(** * The parameter-set sampler of [mackelab_toolbox/parameters.py]

    A shallow embedding of [Transform], [ParameterSampler] (with its
    [PopSampler]) and [ParameterSetSampler], and the properties of the
    sampling chain: draw order, generator-state transaction, errors.
    With them, [make_paramrecs], and [expand_params] with its [Parser]:
    the blocks of a description and the expansion of starred blocks.

    Python objects that are shared and mutated (the samplers of one chain,
    [Transform] instances) live in an explicit store and are referred to by
    their position in it.  The NumPy generator, the expression evaluator
    [simpleeval] and the builtins [int] and [str] are external to the
    repository and are taken as parameters of the development (class
    [Externals]); of [simpleeval], the lookup of a bound name and of the
    function of a call are written out ([SimpleEval_eval]). *)

From Stdlib Require Import ZArith List String Ascii Bool Lia Arith.
From Stdlib Require Import DecimalString Sorted Permutation.
Import ListNotations.

Local Open Scope string_scope.
Local Open Scope Z_scope.

Set Implicit Arguments.
Set Warnings "-register-all".

(** ** Python exceptions and outcomes *)

Inductive exn : Type :=
| ValueError (msg : string)
| NameError (name : string)
| KeyError (key : string)
| AttributeError (attr : string)
| TypeError (msg : string)
| IndexError (msg : string)
| NotImplementedError (msg : string)
| NameNotDefined (name : string) (msg : string)   (* simpleeval.NameNotDefined *)
| FunctionNotDefined (func_name : string) (expression : string)
                                                  (* simpleeval.FunctionNotDefined *)
| LibraryError (msg : string)                     (* any other error of an external call *)
| BadReference.     (* a place outside the store; no constructor below creates one *)

(** The result of running a piece of Python: a value, a raised exception,
    or [OutOfFuel] when the recursion bound of the model was reached. *)
Inductive outcome (A : Type) : Type :=
| Ok (a : A)
| Raise (e : exn)
| OutOfFuel.

Arguments Ok {A} a.
Arguments Raise {A} e.
Arguments OutOfFuel {A}.

Definition obind {A B} (o : outcome A) (f : A -> outcome B) : outcome B :=
  match o with
  | Ok a => f a
  | Raise e => Raise e
  | OutOfFuel => OutOfFuel
  end.

Notation "'do' x <- o ; k" := (obind o (fun x => k))
  (at level 10, x name, o at level 100, k at level 200).

Fixpoint omap {A B} (f : A -> outcome B) (l : list A) : outcome (list B) :=
  match l with
  | [] => Ok []
  | a :: l' => do b <- f a; do bs <- omap f l'; Ok (b :: bs)
  end.

(** ** Strings as Python has them

    A string is a sequence of characters, each standing for a code point
    from U+0000 to U+00FF. *)

Module Str.

(** [s.split(sep)] for a non-empty separator: cut at every occurrence of
    [sep], scanning from the left; [skip] counts the characters of a
    separator still to pass over, [acc] is the piece being read. *)
Fixpoint split_go (sep s : string) (skip : nat) (acc : string) : list string :=
  match s with
  | EmptyString => [acc]
  | String c s' =>
      match skip with
      | S k => split_go sep s' k acc
      | O =>
          if String.prefix sep s
          then acc :: split_go sep s' (Nat.pred (String.length sep)) EmptyString
          else split_go sep s' O (acc ++ String c EmptyString)
      end
  end.

Definition split (s sep : string) : list string := split_go sep s O EmptyString.

(** White space, [str.isspace] on one character.  A character stands
    for its code point, U+0000 to U+00FF: among these the white space is
    U+0009 to U+000D, U+001C to U+001F, the space, U+0085 and U+00A0. *)
Definition is_space (c : ascii) : bool :=
  let n := nat_of_ascii c in
  ((9 <=? n) && (n <=? 13) || (n =? 32) || ((28 <=? n) && (n <=? 31))
   || (n =? 133) || (n =? 160))%nat.

Fixpoint lstrip (s : string) : string :=
  match s with
  | EmptyString => EmptyString
  | String c s' => if is_space c then lstrip s' else s
  end.

Definition rev (s : string) : string :=
  string_of_list_ascii (List.rev (list_ascii_of_string s)).

Definition rstrip (s : string) : string := rev (lstrip (rev s)).

(** [s.strip()] *)
Definition strip (s : string) : string := rstrip (lstrip s).

(** [sep.join(l)] *)
Definition join (sep : string) (l : list string) : string := String.concat sep l.

(** [str(n)] for a non-negative integer. *)
Definition of_nat (n : nat) : string := NilZero.string_of_uint (Nat.to_uint n).

(** The characters of a string, each as a one-character string
    (iteration over a [str]). *)
Fixpoint chars (s : string) : list string :=
  match s with
  | EmptyString => []
  | String c s' => String c EmptyString :: chars s'
  end.

Definition mem (s : string) (l : list string) : bool :=
  existsb (String.eqb s) l.

(** [sorted(l)] on strings: insertion sort by code-point order. *)
Fixpoint insert (x : string) (l : list string) : list string :=
  match l with
  | [] => [x]
  | y :: l' => if String.leb x y then x :: l else y :: insert x l'
  end.

Fixpoint sorted (l : list string) : list string :=
  match l with
  | [] => []
  | x :: l' => insert x (sorted l')
  end.

End Str.

(** ** State and exceptions

    Code that reads and writes mutable state and may raise: a state
    transformer that always gives back the state it reached, also when it
    raises (the state an exception leaves behind is what the caller sees). *)

Definition M (St A : Type) : Type := St -> outcome A * St.

Definition mret {St A} (a : A) : M St A := fun s => (Ok a, s).

Definition mbind {St A B} (m : M St A) (f : A -> M St B) : M St B :=
  fun s =>
    match m s with
    | (Ok a, s') => f a s'
    | (Raise e, s') => (Raise e, s')
    | (OutOfFuel, s') => (OutOfFuel, s')
    end.

Definition lift {St A} (o : outcome A) : M St A := fun s => (o, s).

Definition raise {St A} (e : exn) : M St A := fun s => (Raise e, s).

Notation "'let!' x <- m ; k" := (mbind m (fun x => k))
  (at level 10, x name, m at level 100, k at level 200).
Notation "'run!' m ; k" := (mbind m (fun _ => k))
  (at level 10, m at level 100, k at level 200).

(** A list comprehension whose element expression has effects. *)
Fixpoint mmap {St A B} (f : A -> M St B) (l : list A) : M St (list B) :=
  match l with
  | [] => mret []
  | a :: l' => let! b <- f a; let! bs <- mmap f l'; mret (b :: bs)
  end.

(** ** The sampler *)

Section Sampler.

(** Numeric values (NumPy scalars and arrays) and the state of the NumPy
    generator ([np.random.get_state()]) are opaque. *)
Variable V : Type.
Variable RNG : Type.

(** *** The configuration tree ([ParameterSet])

    A [ParameterSet] is an insertion-ordered mapping from names to
    values; a nested mapping is again a [ParameterSet].  Keys are unique
    in Python; lookups below take the first binding of a key. *)
Inductive pv : Type :=
| PInt (z : Z)
| PVal (v : V)
| PStr (s : string)
| PList (l : list pv)
| PSet (m : list (string * pv)).

Definition ParameterSet : Type := list (string * pv).

Definition keys (d : ParameterSet) : list string := map fst d.

Fixpoint ps_lookup (d : ParameterSet) (k : string) : option pv :=
  match d with
  | [] => None
  | (k', v) :: d' => if String.eqb k k' then Some v else ps_lookup d' k
  end.

(** [k in d] *)
Definition ps_contains (d : ParameterSet) (k : string) : bool := Str.mem k (keys d).

(** [d[k]] *)
Definition ps_getitem (d : ParameterSet) (k : string) : outcome pv :=
  match ps_lookup d k with
  | Some v => Ok v
  | None => Raise (KeyError k)
  end.

(** [d.k] *)
Definition ps_getattr (d : ParameterSet) (k : string) : outcome pv :=
  match ps_lookup d k with
  | Some v => Ok v
  | None => Raise (AttributeError k)
  end.

(** [x.k] on any configuration value: only a [ParameterSet] has its keys
    as attributes. *)
Definition py_getattr (x : pv) (k : string) : outcome pv :=
  match x with
  | PSet m => ps_getattr m k
  | _ => Raise (AttributeError k)
  end.

Fixpoint contains_sub (sub s : string) : bool :=
  String.prefix sub s ||
  match s with
  | EmptyString => false
  | String _ s' => contains_sub sub s'
  end.

Definition is_str (x : pv) (s : string) : bool :=
  match x with
  | PStr s' => String.eqb s' s
  | _ => false
  end.

(** [k in x] on any configuration value: key membership for a mapping,
    element membership for a sequence, substring test for a string. *)
Definition py_contains (x : pv) (k : string) : outcome bool :=
  match x with
  | PSet m => Ok (ps_contains m k)
  | PList l => Ok (existsb (fun y => is_str y k) l)
  | PStr s => Ok (contains_sub k s)
  | PInt _ | PVal _ => Raise (TypeError "argument is not iterable")
  end.

(** Iteration over a configuration value, and [len]. *)
Definition py_iter (x : pv) : outcome (list pv) :=
  match x with
  | PList l => Ok l
  | PStr s => Ok (map PStr (Str.chars s))
  | PSet m => Ok (map PStr (keys m))
  | PInt _ | PVal _ => Raise (TypeError "object is not iterable")
  end.

Definition py_len (x : option pv) : outcome nat :=
  match x with
  | None => Raise (TypeError "object of type 'NoneType' has no len()")
  | Some (PInt _) | Some (PVal _) => Raise (TypeError "object has no len()")
  | Some y => do l <- py_iter y; Ok (List.length l)
  end.

(** *** External functions *)

(** The value a name is bound to in a transform expression: a number, or
    one of the modules of [Transform.namespaces]. *)
Inductive nsval : Type :=
| NVal (v : V)
| NModule (m : string).

(** NumPy, the builtins [int] and [str], and [simpleeval.simple_eval]
    (see [SimpleEval_eval] below for the expressions it is asked
    about). *)
Class Externals : Type := {
  np_array : pv -> V;
  np_exp : V -> V;
  np_imul : V -> pv -> V;                    (* res *= factor *)
  np_block : list V -> V;                    (* np.block([b, ...]) *)
  np_block2 : list (list V) -> V;            (* np.block([[b, ...], ...]) *)
  np_random_seed : pv -> outcome RNG;
  np_random_normal : option pv -> option pv -> list pv -> M RNG V;
  np_random_exponential : option pv -> list pv -> M RNG V;
  np_random_gamma : option pv -> option pv -> list pv -> M RNG V;
  py_int : string -> option Z;               (* int(s) on a str *)
  py_str : pv -> string;                     (* str(x), as format() inserts it *)
  simple_eval : string -> list (string * nsval) -> outcome V
}.

Context {ext : Externals}.

(** *** Transform *)

(** A [Transform] instance; its two attributes exist once [__init__] has
    parsed a description. *)
Record Transform : Type := mkTransform {
  xname : option string;
  expr : option string
}.

Definition blank_Transform : Transform := mkTransform None None.

(** The body of [Transform.__init__] on a string description:
    [xname, expr = transform_desc.split('->')], both stripped. *)
Definition Transform_parse (transform_desc : string) : outcome Transform :=
  match Str.split transform_desc "->" with
  | [x; e] => Ok (mkTransform (Some (Str.strip x)) (Some (Str.strip e)))
  | _ => Raise (ValueError "wrong number of values to unpack")
  end.

(** [Transform.desc], which [Transform.__str__] returns. *)
Definition Transform_desc (self : Transform) : outcome string :=
  match xname self, expr self with
  | Some x, Some e => Ok (x ++ " -> " ++ e)
  | None, _ => Raise (AttributeError "xname")
  | _, None => Raise (AttributeError "expr")
  end.

(** What [Transform(...)] may be called with. *)
Inductive targ : Type :=
| AStr (s : string)
| ATransform (r : nat)      (* an existing instance, by its place in the store *)
| AOther (x : pv).

Definition theap : Type := list Transform.

(** [Transform.__new__(cls, args...)] *)
Definition Transform_new (args : list targ) : M theap nat :=
  match args with
  | ATransform r :: _ => mret r
  | _ => fun h => (Ok (List.length h), (h ++ [blank_Transform])%list)
  end.

Fixpoint set_nth {A} (n : nat) (x : A) (l : list A) : list A :=
  match l, n with
  | [], _ => []
  | _ :: l', O => x :: l'
  | y :: l', S n' => y :: set_nth n' x l'
  end.

(** [Transform.__init__(self, transform_desc)] *)
Definition Transform_init (self : nat) (transform_desc : targ) : M theap unit :=
  match transform_desc with
  | ATransform _ => mret tt
  | AStr s =>
      let! t <- lift (Transform_parse s);
      fun h => (Ok tt, set_nth self t h)
  | AOther _ => raise (AttributeError "split")
  end.

(** The call [Transform(args...)]: [__new__], then [__init__] on what it
    returned with the same arguments. *)
Definition Transform_call (args : list targ) : M theap nat :=
  let! obj <- Transform_new args;
  match args with
  | [d] => run! Transform_init obj d; mret obj
  | _ => raise (TypeError "__init__() takes 2 positional arguments")
  end.

(** [Transform.namespaces] *)
Definition namespaces : list (string * nsval) :=
  [("np", NModule "numpy"); ("sp", NModule "scipy")].

(** [d[k] = v] on a dict kept as an association list. *)
Fixpoint dict_set {A} (k : string) (v : A) (d : list (string * A)) : list (string * A) :=
  match d with
  | [] => [(k, v)]
  | (k', v') :: d' =>
      if String.eqb k k' then (k, v) :: d' else (k', v') :: dict_set k v d'
  end.

(** [d.update(other)] *)
Definition dict_update {A} (d other : list (string * A)) : list (string * A) :=
  fold_left (fun acc kv => dict_set (fst kv) (snd kv) acc) other d.

Definition nl : string := String (ascii_of_nat 10) EmptyString.

Definition namespace_hint (name : string) : string :=
  nl ++ nl ++ "This may be due to a module function in the transform "
  ++ "expression (only numpy and scipy, as 'np' and 'sp', are "
  ++ "available by default)." ++ nl ++ "If '" ++ name ++ "' is a module or class, you can "
  ++ "make it available by adding it to the transform namespace: "
  ++ "`Transform.namespaces.update({'" ++ name ++ "': " ++ name ++ "})`." ++ nl
  ++ "Such a line would "
  ++ "typically be included at the beginning of the execution script "
  ++ "(it does not need to be in the same module as the one where "
  ++ "the transform is defined, as long as it is executed before).".

(** [d[k]] on a dict kept as an association list, [None] for a missing
    key. *)
Fixpoint dict_get {A} (k : string) (d : list (string * A)) : option A :=
  match d with
  | [] => None
  | (k', v) :: d' => if String.eqb k k' then Some v else dict_get k d'
  end.

(** *** simpleeval

    [simpleeval] is a library of its own.  [Transform.__call__] gives it
    the expression, the operators and the names, and no functions, so
    the functions are the library's defaults.  Two rules of the library
    are written out here, for expressions made of names, attribute
    references and calls: a name bound in [names] evaluates to what it
    is bound to ([_eval_name]), and a call of a bare name looks the name
    up among the functions before any argument is evaluated, and raises
    [FunctionNotDefined] for a name that is not one ([_eval_call]).
    For every other expression (operators, numbers, attributes of the
    modules, the default functions) [simple_eval] of the class
    [Externals] stands for the library. *)

(** The nodes of [ast] that such expressions have. *)
Inductive node : Type :=
| Name (id : string)
| Attribute (value : node) (attr : string)
| Call (func : node) (args : list node).

Inductive token : Type :=
| TName (id : string)
| TDot
| TLpar
| TRpar
| TComma.

(** [keyword.kwlist]: these are no names. *)
Definition kwlist : list string :=
  ["False"; "None"; "True"; "and"; "as"; "assert"; "async"; "await"; "break";
   "class"; "continue"; "def"; "del"; "elif"; "else"; "except"; "finally";
   "for"; "from"; "global"; "if"; "import"; "in"; "is"; "lambda"; "nonlocal";
   "not"; "or"; "pass"; "raise"; "return"; "try"; "while"; "with"; "yield"].

Definition is_id_start (c : ascii) : bool :=
  let n := nat_of_ascii c in
  ((65 <=? n) && (n <=? 90) || (97 <=? n) && (n <=? 122) || (n =? 95))%nat.

Definition is_digit (c : ascii) : bool :=
  let n := nat_of_ascii c in ((48 <=? n) && (n <=? 57))%nat.

(** The name read so far becomes a token. *)
Definition flush (cur : string) (rest : option (list token)) : option (list token) :=
  match cur, rest with
  | EmptyString, _ => rest
  | _, Some ts => if Str.mem cur kwlist then None else Some (TName cur :: ts)
  | _, None => None
  end.

(** The tokens of an expression written with names, dots, parentheses,
    commas and spaces; [None] for any other text.  [cur] is the name
    being read. *)
Fixpoint tokens (s cur : string) : option (list token) :=
  match s with
  | EmptyString => flush cur (Some [])
  | String c s' =>
      if is_id_start c then tokens s' (cur ++ String c EmptyString)
      else if is_digit c then
        match cur with
        | EmptyString => None
        | _ => tokens s' (cur ++ String c EmptyString)
        end
      else
        let rest := tokens s' EmptyString in
        let push t := match rest with
                      | Some ts => Some (t :: ts)
                      | None => None
                      end in
        flush cur (if Ascii.eqb c "." then push TDot
                   else if Ascii.eqb c "(" then push TLpar
                   else if Ascii.eqb c ")" then push TRpar
                   else if Ascii.eqb c "," then push TComma
                   else if Ascii.eqb c " " then rest
                   else None)
  end.

(** A name followed by attribute references and calls, as Python's
    grammar has a primary expression; [parse_args] reads the arguments
    of a call up to its closing parenthesis. *)
Fixpoint parse_primary (fuel : nat) (ts : list token) : option (node * list token) :=
  match fuel with
  | O => None
  | S fuel' =>
      match ts with
      | TName id :: ts' => parse_trailers fuel' (Name id) ts'
      | _ => None
      end
  end

with parse_trailers (fuel : nat) (e : node) (ts : list token)
  : option (node * list token) :=
  match fuel with
  | O => None
  | S fuel' =>
      match ts with
      | TDot :: TName a :: ts' => parse_trailers fuel' (Attribute e a) ts'
      | TDot :: _ => None
      | TLpar :: TRpar :: ts' => parse_trailers fuel' (Call e []) ts'
      | TLpar :: ts' =>
          match parse_args fuel' ts' with
          | Some (args, ts'') => parse_trailers fuel' (Call e args) ts''
          | None => None
          end
      | _ => Some (e, ts)
      end
  end

with parse_args (fuel : nat) (ts : list token) : option (list node * list token) :=
  match fuel with
  | O => None
  | S fuel' =>
      match parse_primary fuel' ts with
      | Some (a, TComma :: ts') =>
          match parse_args fuel' ts' with
          | Some (l, ts'') => Some (a :: l, ts'')
          | None => None
          end
      | Some (a, TRpar :: ts') => Some ([a], ts')
      | _ => None
      end
  end.

(** [ast.parse(s).body[0].value], where [s] is such an expression; a
    text that starts with a space is none (Python takes the space for
    an indentation). *)
Definition parse (s : string) : option node :=
  match s with
  | String " " _ => None
  | _ =>
      match tokens s EmptyString with
      | Some ts =>
          match parse_primary (2 * List.length ts + 2) ts with
          | Some (e, []) => Some e
          | _ => None
          end
      | None => None
      end
  end.

(** The names of [simpleeval.DEFAULT_FUNCTIONS]. *)
Definition DEFAULT_FUNCTIONS : list string :=
  ["rand"; "randint"; "int"; "float"; "str"].

(** [SimpleEval._eval] on a node, where one of the two rules decides. *)
Definition eval_node (expression : string) (names : list (string * nsval)) (e : node)
  : option (outcome V) :=
  match e with
  | Name id =>
      match dict_get id names with
      | Some (NVal v) => Some (Ok v)
      | _ => None
      end
  | Call (Name f) _ =>
      if Str.mem f DEFAULT_FUNCTIONS then None
      else Some (Raise (FunctionNotDefined f expression))
  | _ => None
  end.

(** [simpleeval.simple_eval(expression, names=names)]: the library
    strips the expression before it parses it. *)
Definition SimpleEval_eval (expression : string) (names : list (string * nsval))
  : outcome V :=
  match parse (Str.strip expression) with
  | Some e =>
      match eval_node expression names e with
      | Some r => r
      | None => simple_eval expression names
      end
  | None => simple_eval expression names
  end.

(** [Transform.__call__(self, x)] *)
Definition Transform_apply (self : Transform) (x : V) : outcome V :=
  match xname self, expr self with
  | Some xn, Some e =>
      let names := dict_update [(xn, NVal x)] namespaces in
      match SimpleEval_eval e names with
      | Raise (NameNotDefined name msg) =>
          Raise (NameNotDefined name (msg ++ namespace_hint name))
      | r => r
      end
  | None, _ => Raise (AttributeError "xname")
  | _, None => Raise (AttributeError "expr")
  end.

(** *** PopSampler

    [PopSampler] keeps the key of the block being resolved in its field
    [key]: [__getitem__] and the closure it returns set the field before
    every attribute they read and reset it after, so a read never sees a
    key other than its caller's.  The key is passed as an argument here.  *)

Inductive popkey : Type :=
| NoPops
| Key (k : string).

Record PopSampler : Type := mkPopSampler {
  distparams : ParameterSet;
  popnames : option pv
}.

(** [PopSampler.__getattr__(self, attr)] while a key is set; [None] is
    Python's [None]. *)
Definition PopSampler_getattr (self : PopSampler) (key : popkey) (attr : string)
  : outcome (option pv) :=
  match key with
  | NoPops => Ok (ps_lookup (distparams self) attr)
  | Key k =>
      do sub <- ps_getitem (distparams self) k;
      do present <- py_contains sub attr;
      if present
      then do v <- py_getattr sub attr; Ok (Some v)
      else Ok (ps_lookup (distparams self) attr)
  end.

Definition opt_is_str (x : option pv) (s : string) : bool :=
  match x with
  | Some y => is_str y s
  | None => false
  end.

Definition unrecognized (d : string) : string :=
  "Unrecognized distribution type '" ++ d ++ "'.".

(** The inner [_sample_pop(size)] chosen by [__getitem__]. *)
Definition _sample_pop (self : PopSampler) (key : popkey) (dist : option pv)
  : outcome (list pv -> M RNG V) :=
  if opt_is_str dist "normal" then
    Ok (fun size =>
          let! loc <- lift (PopSampler_getattr self key "loc");
          let! scale <- lift (PopSampler_getattr self key "scale");
          np_random_normal loc scale size)
  else if opt_is_str dist "expnormal" then
    Ok (fun size =>
          let! loc <- lift (PopSampler_getattr self key "loc");
          let! scale <- lift (PopSampler_getattr self key "scale");
          let! r <- np_random_normal loc scale size;
          mret (np_exp r))
  else if opt_is_str dist "exponential" || opt_is_str dist "exp" then
    Ok (fun size =>
          let! scale <- lift (PopSampler_getattr self key "scale");
          np_random_exponential scale size)
  else if opt_is_str dist "gamma" then
    Ok (fun size =>
          let! a <- lift (PopSampler_getattr self key "a");
          let! scale <- lift (PopSampler_getattr self key "scale");
          np_random_gamma a scale size)
  else
    do d <- ps_getattr (distparams self) "dist";
    Raise (ValueError (unrecognized (py_str d))).

(** [PopSampler.__getitem__(self, key)]: the closure [sample_pop]. *)
Definition PopSampler_getitem (self : PopSampler) (key : popkey)
  : outcome (list pv -> M RNG V) :=
  do dist <- PopSampler_getattr self key "dist";
  do draw <- _sample_pop self key dist;
  Ok (fun size =>
        let! res <- draw size;
        let! factor <- lift (PopSampler_getattr self key "factor");
        match factor with
        | Some f => mret (np_imul res f)
        | None => mret res
        end).

(** *** ParameterSampler *)

(** One sampler of the chain.  [_previous] is the place of the previous
    sampler in the chain's store; it and [_previous_offset] do not exist
    before [set_previous]. *)
Record ParameterSampler : Type := mkParameterSampler {
  name : string;
  sampled_idx : option Z;
  _get_sample : M RNG V;
  _cache : list V;
  _previous : option nat;
  _previous_offset : option Z
}.

(** [key(poplabels...)]: [','.join(poplabels)], on labels that are strings. *)
Definition label (x : pv) : outcome string :=
  match x with
  | PStr s => Ok s
  | _ => Raise (TypeError "sequence item: expected str instance")
  end.

Definition key (poplabels : list pv) : outcome popkey :=
  do ls <- omap label poplabels; Ok (Key (Str.join "," ls)).

Definition shape_mismatch (name : string) (parts pops : nat) : string :=
  "The parameter '" ++ name ++ "' has a shape with " ++ Str.of_nat parts
  ++ " components, but we have " ++ Str.of_nat pops ++ " populations.".

Definition int_of (s : string) : outcome pv :=
  match py_int s with
  | Some z => Ok (PInt z)
  | None => Raise (ValueError ("invalid literal for int() with base 10: '" ++ s ++ "'"))
  end.

(** The loop [for s in desc.shape] of [__init__]: the block shapes and
    the pattern of population axes. *)
Fixpoint shape_loop (name : string) (popnames : option pv) (comps : list pv)
           (shapes : list (list pv)) (pop_pattern : list bool)
  : outcome (list (list pv) * list bool) :=
  match comps with
  | [] => Ok (shapes, pop_pattern)
  | PStr s :: rest =>
      let pop_sizes := Str.split s "+" in
      do npops <- py_len popnames;
      if negb (List.length pop_sizes =? npops)%nat
      then Raise (ValueError (shape_mismatch name (List.length pop_sizes) npops))
      else
        do sizes <- omap int_of pop_sizes;
        shape_loop name popnames rest
          (flat_map (fun r => map (fun psize => r ++ [psize])%list sizes) shapes)
          (pop_pattern ++ [true])%list
  | s :: rest =>
      shape_loop name popnames rest
        (map (fun r => r ++ [s])%list shapes) (pop_pattern ++ [false])%list
  end.

Definition pattern_eqb (p q : list bool) : bool :=
  if list_eq_dec Bool.bool_dec p q then true else false.

(** [str(pop_pattern)], a tuple of booleans. *)
Definition pattern_str (p : list bool) : string :=
  let item (b : bool) := if b then "True" else "False" in
  match p with
  | [b] => "(" ++ item b ++ ",)"
  | _ => "(" ++ Str.join ", " (map item p) ++ ")"
  end.

Definition nth_shape (shapes : list (list pv)) (i : nat) : outcome (list pv) :=
  match nth_error shapes i with
  | Some sh => Ok sh
  | None => Raise (IndexError "list index out of range")
  end.

(** One block: [pop_samplers[key(pops...)](shape)]. *)
Definition block (pop_samplers : PopSampler) (pops : list pv) (shape : list pv)
  : M RNG V :=
  let! k <- lift (key pops);
  let! sample_pop <- lift (PopSampler_getitem pop_samplers k);
  sample_pop shape.

(** The closure [get_sample] that [__init__] chooses for a distribution,
    by the pattern of population axes. *)
Definition pop_get_sample (pop_samplers : PopSampler) (pops : list pv)
           (shapes : list (list pv)) (pop_pattern : list bool)
  : outcome (M RNG V) :=
  if forallb negb pop_pattern then
    Ok (let! sample_pop <- lift (PopSampler_getitem pop_samplers NoPops);
        let! shape <- lift (nth_shape shapes 0);
        sample_pop shape)
  else if pattern_eqb pop_pattern [true] then
    Ok (let! bs <- mmap (fun ps => block pop_samplers [fst ps] (snd ps))
                        (combine pops shapes);
        mret (np_block bs))
  else if pattern_eqb pop_pattern [false; true] then
    Ok (let! bs <- mmap (fun ps => block pop_samplers [fst ps] (snd ps))
                        (combine pops shapes);
        mret (np_block2 [bs]))
  else if pattern_eqb pop_pattern [true; false] then
    Ok (let! bs <- mmap (fun ps => let! b <- block pop_samplers [fst ps] (snd ps);
                                   mret [b])
                        (combine pops shapes);
        mret (np_block2 bs))
  else if pattern_eqb pop_pattern [true; true] then
    let n := List.length pops in
    Ok (let! rows <-
          mmap (fun p1 =>
                  mmap (fun p2 =>
                          let! k <- lift (key [fst p1; fst p2]);
                          let! sample_pop <- lift (PopSampler_getitem pop_samplers k);
                          let! shape <- lift (nth_shape shapes (snd p1 + snd p2));
                          sample_pop shape)
                       (combine pops (seq 0 n)))
               (combine pops (map (fun i => i * n)%nat (seq 0 n)));
        mret (np_block2 rows))
  else
    Raise (NotImplementedError
             ("Population samplers for block-broadcastable pattern '"
              ++ pattern_str pop_pattern ++ "' are not yet implemented.")).

(** The elements of [desc.shape]. *)
Definition desc_shape (desc : ParameterSet) : outcome (list pv) :=
  do sh <- ps_getattr desc "shape"; py_iter sh.

(** The elements of [popnames], where the closures iterate over it. *)
Definition pops_of (popnames : option pv) : list pv :=
  match popnames with
  | Some p => match py_iter p with Ok l => l | _ => [] end
  | None => []
  end.

(** [ParameterSampler.__init__(self, name, desc, popnames)] *)
Definition ParameterSampler_init (name : string) (desc : pv) (popnames : option pv)
  : outcome ParameterSampler :=
  match desc with
  | PSet d =>
      if negb (ps_contains d "dist")
      then do dist <- ps_getattr d "dist"; Raise (ValueError (unrecognized (py_str dist)))
      else
        do comps <- desc_shape d;
        do sp <- shape_loop name popnames comps [[]] [];
        let pop_samplers := mkPopSampler d popnames in
        do get_sample <- pop_get_sample pop_samplers (pops_of popnames) (fst sp) (snd sp);
        do get_sample' <-
          (if ps_contains d "transform"
           then
             do tr <- ps_getattr d "transform";
             do back <- py_getattr tr "back";
             do inverse <- match back with
                           | PStr s => Transform_parse s
                           | _ => Raise (AttributeError "split")
                           end;
             Ok (let! r <- get_sample; lift (Transform_apply inverse r))
           else Ok get_sample);
        Ok (mkParameterSampler name (Some 0) get_sample' [] None None)
  | _ =>
      Ok (mkParameterSampler name None (mret (np_array desc)) [] None None)
  end.

(** *** The samplers of one chain

    The samplers of a chain refer to each other through [_previous]; they
    live in a store and are named by their place in it.  Drawing also
    advances the NumPy generator, which is global. *)
Record world : Type := mkWorld {
  np_random : RNG;
  store : list ParameterSampler
}.

Definition node_at (st : list ParameterSampler) (i : nat) : outcome ParameterSampler :=
  match nth_error st i with
  | Some nd => Ok nd
  | None => Raise BadReference
  end.

(** The property [ParameterSampler.previous]. *)
Fixpoint previous (fuel : nat) (st : list ParameterSampler) (self : nat) : outcome nat :=
  match fuel with
  | O => OutOfFuel
  | S fuel' =>
      do nd <- node_at st self;
      match _previous nd with
      | None => Raise (AttributeError "_previous")
      | Some p =>
          do pn <- node_at st p;
          match sampled_idx pn with
          | None => previous fuel' st p
          | Some _ => Ok p
          end
      end
  end.

(** The property [ParameterSampler.previous_offset]. *)
Fixpoint previous_offset (fuel : nat) (st : list ParameterSampler) (self : nat)
  : outcome Z :=
  match fuel with
  | O => OutOfFuel
  | S fuel' =>
      do nd <- node_at st self;
      match _previous nd with
      | None => Raise (AttributeError "_previous")
      | Some p =>
          do pn <- node_at st p;
          match sampled_idx pn with
          | None =>
              match _previous_offset nd with
              | None => Raise (AttributeError "_previous_offset")
              | Some off => do off' <- previous_offset fuel' st p; Ok (off + off')
              end
          | Some _ =>
              match _previous_offset nd with
              | None => Raise (AttributeError "_previous_offset")
              | Some off => Ok off
              end
          end
      end
  end.

Definition get_node (i : nat) : M world ParameterSampler :=
  fun w => (node_at (store w) i, w).

Definition modify_node (i : nat) (f : ParameterSampler -> ParameterSampler)
  : M world unit :=
  fun w =>
    match nth_error (store w) i with
    | Some nd => (Ok tt, mkWorld (np_random w) (set_nth i (f nd) (store w)))
    | None => (Raise BadReference, w)
    end.

Definition set_idx (z : Z) (nd : ParameterSampler) : ParameterSampler :=
  mkParameterSampler (name nd) (Some z) (_get_sample nd) (_cache nd)
                     (_previous nd) (_previous_offset nd).

Definition set_cache (c : list V) (nd : ParameterSampler) : ParameterSampler :=
  mkParameterSampler (name nd) (sampled_idx nd) (_get_sample nd) c
                     (_previous nd) (_previous_offset nd).

(** [self._cache.append(self._get_sample())] *)
Definition draw_append (self : nat) : M world unit :=
  let! nd <- get_node self;
  let! v <- (fun w => let (r, g) := _get_sample nd (np_random w) in
                      (r, mkWorld g (store w)));
  modify_node self (fun nd' => set_cache (_cache nd' ++ [v])%list nd').

Definition the_idx (nd : ParameterSampler) : M world Z :=
  match sampled_idx nd with
  | Some z => mret z
  | None => raise (TypeError "'<' not supported between NoneType and int")
  end.

(** [ParameterSampler._sample(self, sample_i)], with the [while] loop of
    its body as [_sample_while].  [fuel] bounds the depth of calls. *)
Fixpoint _sample (fuel : nat) (self : nat) (sample_i : option Z) : M world unit :=
  match fuel with
  | O => fun w => (OutOfFuel, w)
  | S fuel' =>
      let! nd <- get_node self;
      match sampled_idx nd with
      | None => draw_append self
      | Some idx =>
          let sample_i := match sample_i with
                          | None => idx + 1
                          | Some i => i
                          end in
          if sample_i >? idx then
            run! _sample_while fuel' self sample_i;
            let! nd' <- get_node self;
            let! idx' <- the_idx nd';
            run! modify_node self (set_idx (idx' + 1));
            draw_append self
          else mret tt
      end
  end

with _sample_while (fuel : nat) (self : nat) (sample_i : Z) : M world unit :=
  match fuel with
  | O => fun w => (OutOfFuel, w)
  | S fuel' =>
      let! p <- (fun w => (previous fuel' (store w) self, w));
      let! pn <- get_node p;
      let! pidx <- the_idx pn;
      let! off <- (fun w => (previous_offset fuel' (store w) self, w));
      if pidx <? sample_i + off then
        let! p' <- (fun w => (previous fuel' (store w) self, w));
        let! off' <- (fun w => (previous_offset fuel' (store w) self, w));
        run! _sample fuel' p' (Some (sample_i + off'));
        _sample_while fuel' self sample_i
      else mret tt
  end.

(** [ParameterSampler.__call__(self)] *)
Definition ParameterSampler_call (fuel : nat) (self : nat) : M world V :=
  let! nd <- get_node self;
  run! (if (List.length (_cache nd) =? 0)%nat then _sample fuel self None else mret tt);
  let! nd' <- get_node self;
  match _cache nd' with
  | v :: rest => run! modify_node self (set_cache rest); mret v
  | [] => raise (IndexError "pop from an empty deque")
  end.

Definition set_link (previous_sampler : nat) (offset : Z) (nd : ParameterSampler)
  : ParameterSampler :=
  mkParameterSampler (name nd) (sampled_idx nd) (_get_sample nd) (_cache nd)
                     (Some previous_sampler) (Some offset).

(** [ParameterSampler.set_previous(self, previous_sampler, offset)], on
    the store that holds [self]. *)
Definition set_previous (self : nat) (previous_sampler : nat) (offset : Z)
  : M (list ParameterSampler) unit :=
  if offset >? 0 then raise (ValueError "Offset cannot be positive.")
  else
    fun st =>
      match nth_error st self with
      | Some nd => (Ok tt, set_nth self (set_link previous_sampler offset nd) st)
      | None => (Raise BadReference, st)
      end.

(** Whether [set_previous] logs its warning about an unusual offset. *)
Definition set_previous_warns (offset : Z) : bool :=
  negb (offset >? 0) && negb ((offset =? 0) || (offset =? -1)).

(** *** ParameterSetSampler *)

Definition population_attrs : list string :=
  ["population"; "populations"; "mixture"; "mixtures"; "label"; "labels"].

(** A chain.  [_samplers] maps each name of [varnames] to its sampler:
    the sampler of [varnames[i]] is at place [i] of the store. *)
Record ParameterSetSampler : Type := mkParameterSetSampler {
  varnames : list string;
  _samplers : list ParameterSampler;
  rng_state : RNG
}.

(** [np.random.get_state()] and [np.random.set_state(g)] *)
Definition get_state : M RNG RNG := fun g => (Ok g, g).
Definition set_state (g : RNG) : M RNG unit := fun _ => (Ok tt, g).

Fixpoint mfor {St A} (f : A -> M St unit) (l : list A) : M St unit :=
  match l with
  | [] => mret tt
  | a :: l' => run! f a; mfor f l'
  end.

(** The two linking statements of [__init__], for [n] names. *)
Definition link_samplers (n : nat) : M (list ParameterSampler) unit :=
  match n with
  | O => raise (IndexError "list index out of range")
  | S last =>
      run! set_previous 0 last (-1);
      mfor (fun i => set_previous i (i - 1) 0) (seq 1 last)
  end.

(** The population keys the specification has, and the labels under the
    one it may have. *)
Definition popattrs_of (dists : ParameterSet) : list string :=
  filter (ps_contains dists) population_attrs.

Definition popnames_of (dists : ParameterSet) : outcome (option pv) :=
  if (1 <? List.length (popattrs_of dists))%nat then
    (* the message names [population_strs], which is not defined *)
    Raise (NameError "population_strs")
  else match popattrs_of dists with
       | a :: _ => do p <- ps_getitem dists a; Ok (Some p)
       | [] => Ok None
       end.

(** The constructor argument, or else the [seed] of the specification. *)
Definition effective_seed (dists : ParameterSet) (seed : option pv) : option pv :=
  match seed with
  | None => ps_lookup dists "seed"
  | Some s => Some s
  end.

Definition varnames_of (dists : ParameterSet) : list string :=
  Str.sorted (filter (fun name => negb (Str.mem name ("seed" :: popattrs_of dists)))
                     (keys dists)).

Definition make_samplers (dists : ParameterSet) (popnames : option pv)
           (varnames : list string) : outcome (list ParameterSampler) :=
  omap (fun varname => do desc <- ps_getitem dists varname;
                       ParameterSampler_init varname desc popnames)
       varnames.

Definition link_all (n : nat) (samplers : list ParameterSampler)
  : outcome (list ParameterSampler) :=
  match link_samplers n samplers with
  | (Ok _, st) => Ok st
  | (Raise e, _) => Raise e
  | (OutOfFuel, _) => OutOfFuel
  end.

(** [ParameterSetSampler.__init__(self, dists, seed)]; the state is the
    global NumPy generator. *)
Definition ParameterSetSampler_init (dists : ParameterSet) (seed : option pv)
  : M RNG ParameterSetSampler :=
  let! orig_state <- get_state;
  let! popnames <- lift (popnames_of dists);
  run! (match effective_seed dists seed with
        | Some s => let! g <- lift (np_random_seed s); set_state g
        | None => mret tt
        end);
  let varnames := varnames_of dists in
  let! samplers <- lift (make_samplers dists popnames varnames);
  let! linked <- lift (link_all (List.length varnames) samplers);
  let! rng <- get_state;
  run! set_state orig_state;
  mret (mkParameterSetSampler varnames linked rng).

(** What [sample] is asked for, and what it returns. *)
Inductive request : Type :=
| All                            (* varname=None *)
| One (varname : string)
| Many (names : list string).

Inductive response : Type :=
| Value (v : V)
| Values (d : list (string * V)).     (* a ParameterSet of values *)

Fixpoint index_of (x : string) (l : list string) : option nat :=
  match l with
  | [] => None
  | y :: l' => if String.eqb x y then Some O
               else match index_of x l' with
                    | Some i => Some (S i)
                    | None => None
                    end
  end.

(** [self._samplers[name]()] *)
Definition call_sampler (fuel : nat) (varnames : list string) (name : string)
  : M world V :=
  match index_of name varnames with
  | Some i => ParameterSampler_call fuel i
  | None => raise (KeyError name)
  end.

(** The dict built from the items of a comprehension, in order. *)
Definition dict_of {A} (items : list (string * A)) : list (string * A) :=
  dict_update [] items.

(** The part of [sample] between the two generator swaps. *)
Definition sample_body (fuel : nat) (varnames : list string) (varname : request)
  : M world response :=
  match varname with
  | One name => let! v <- call_sampler fuel varnames name; mret (Value v)
  | Many names =>
      let! items <- mmap (fun name => let! v <- call_sampler fuel varnames name;
                                      mret (name, v)) names;
      mret (Values (dict_of items))
  | All =>
      let! items <- mmap (fun name => let! v <- call_sampler fuel varnames name;
                                      mret (name, v)) varnames;
      mret (Values (dict_of items))
  end.

(** [ParameterSetSampler.sample(self, varname)]; the state is the global
    NumPy generator together with the chain. *)
Definition sample (fuel : nat) (varname : request)
  : M (RNG * ParameterSetSampler) response :=
  fun '(orig_state, self) =>
    match sample_body fuel (varnames self) varname
                      (mkWorld (rng_state self) (_samplers self)) with
    | (Ok res, w) =>
        (Ok res, (orig_state,
                  mkParameterSetSampler (varnames self) (store w) (np_random w)))
    | (r, w) =>
        (r, (np_random w,
             mkParameterSetSampler (varnames self) (store w) (rng_state self)))
    end.

(** A sequence of [sample] calls on one chain. *)
Definition run (fuel : nat) (reqs : list request)
  : M (RNG * ParameterSetSampler) (list response) :=
  mmap (sample fuel) reqs.

(** The values of variable [x] a caller sees in the answers to its
    requests, in order. *)
Definition seen (x : string) (qa : request * response) : list V :=
  match qa with
  | (One name, Value v) => if String.eqb name x then [v] else []
  | (_, Values d) => match dict_get x d with
                     | Some v => [v]
                     | None => []
                     end
  | _ => []
  end.

Definition values_of (x : string) (reqs : list request) (resps : list response)
  : list V :=
  flat_map (seen x) (combine reqs resps).

(** *** The canonical order of draws

    What follows describes, for the samplers [st0] of a chain as
    [__init__] leaves them and the generator state [g0] the chain starts
    from, the one order in which draws can happen: round after round, and
    inside a round by place.  A sampler of a fixed value has a place in
    the round but makes no draw. *)

Definition active (nd : ParameterSampler) : bool :=
  match sampled_idx nd with
  | Some _ => true
  | None => false
  end.

Definition is_active (st : list ParameterSampler) (q : nat) : bool :=
  match nth_error st q with
  | Some nd => active nd
  | None => false
  end.

(** A draw that cannot fail. *)
Definition total_draw (m : M RNG V) : Prop :=
  forall g, exists v g', m g = (Ok v, g').

(** The generator after the turn of one sampler. *)
Definition slot (nd : ParameterSampler) (g : RNG) : RNG :=
  if active nd then snd (_get_sample nd g) else g.

Definition sweep (nds : list ParameterSampler) (g : RNG) : RNG :=
  fold_left (fun g' nd => slot nd g') nds g.

(** The generator after [k] full rounds and the first [c] places of the
    next one. *)
Definition gen_state (st0 : list ParameterSampler) (g0 : RNG) (k c : nat) : RNG :=
  sweep (firstn c st0) (Nat.iter k (sweep st0) g0).

(** The value the sampler at place [p] produces in round [k]. *)
Definition canon (st0 : list ParameterSampler) (g0 : RNG) (p k : nat) : outcome V :=
  match nth_error st0 p with
  | Some nd => fst (_get_sample nd (gen_state st0 g0 k p))
  | None => Raise BadReference
  end.

(** The index of the sampler at place [p] once [k] rounds and [c] places
    are done. *)
Definition idx_of (k c p : nat) : nat := (k + (if p <? c then 1 else 0))%nat.

(** The last sampler below place [j] that draws. *)
Fixpoint last_active_below (st : list ParameterSampler) (j : nat) : option nat :=
  match j with
  | O => None
  | S j' =>
      match nth_error st j' with
      | Some nd => if active nd then Some j' else last_active_below st j'
      | None => last_active_below st j'
      end
  end.

(** The sampler that [previous] resolves to from place [i], and the
    offset [previous_offset] adds up on the way. *)
Definition prev_of (st : list ParameterSampler) (i : nat) : nat * Z :=
  match last_active_below st i with
  | Some p => (p, 0)
  | None =>
      match last_active_below st (List.length st) with
      | Some p => (p, -1)
      | None => (i, -1)
      end
  end.

(** The chain as [__init__] links it: a ring in order of place. *)
Definition linked (st0 : list ParameterSampler) : Prop :=
  forall p nd, nth_error st0 p = Some nd ->
    _previous nd = Some (if (p =? 0)%nat then List.length st0 - 1 else p - 1)%nat /\
    _previous_offset nd = Some (if (p =? 0)%nat then -1 else 0).

(** Samplers of fixed values return their value and leave the generator
    alone; the draws of the others do not fail. *)
Definition draws_ok (st0 : list ParameterSampler) : Prop :=
  forall p nd, nth_error st0 p = Some nd ->
    if active nd then total_draw (_get_sample nd)
    else exists c, forall g, _get_sample nd g = (Ok c, g).

(** The sampler [nd] at place [p], against its initial form [nd0], once
    [k] rounds and [c] places are done and [cons p] of its values have
    been handed out. *)
Definition node_ok (st0 : list ParameterSampler) (g0 : RNG) (k c : nat)
           (cons : nat -> nat) (p : nat) (nd0 nd : ParameterSampler) : Prop :=
  name nd = name nd0 /\ _get_sample nd = _get_sample nd0 /\
  _previous nd = _previous nd0 /\ _previous_offset nd = _previous_offset nd0 /\
  if active nd0 then
    sampled_idx nd = Some (Z.of_nat (idx_of k c p)) /\
    (cons p <= idx_of k c p)%nat /\
    map Ok (_cache nd) = map (canon st0 g0 p) (seq (cons p) (idx_of k c p - cons p))
  else
    sampled_idx nd = None /\
    Forall (fun v => Ok v = canon st0 g0 p 0) (_cache nd).

(** The invariant of a chain at work. *)
Definition Inv (st0 : list ParameterSampler) (g0 : RNG) (k c : nat)
           (cons : nat -> nat) (w : world) : Prop :=
  List.length (store w) = List.length st0 /\
  (c <= List.length st0)%nat /\
  np_random w = gen_state st0 g0 k c /\
  forall p nd0, nth_error st0 p = Some nd0 ->
    exists nd, nth_error (store w) p = Some nd /\ node_ok st0 g0 k c cons p nd0 nd.

(** How many places lie between the one a chain of [n] samplers is at
    and place [i]. *)
Definition dist (n c i : nat) : nat :=
  if (i <? c)%nat then (n - c + i)%nat else (i - c)%nat.

Definition upd (f : nat -> nat) (i v : nat) : nat -> nat :=
  fun j => if (j =? i)%nat then v else f j.

(** A fuel that is enough for any call on a chain of [n] samplers. *)
Definition enough (n : nat) : nat := (3 * n + 8)%nat.

Fixpoint nodupb (l : list string) : bool :=
  match l with
  | [] => true
  | x :: l' => negb (Str.mem x l') && nodupb l'
  end.

(** Requests that name declared variables, each at most once in one
    call. *)
Definition request_ok (varnames : list string) (r : request) : bool :=
  match r with
  | All => nodupb varnames
  | One name => Str.mem name varnames
  | Many names => forallb (fun x => Str.mem x varnames) names && nodupb names
  end.

(** What a request leaves for variable [x] at place [i]: if the request
    names [x], the next value of [x]; otherwise nothing. *)
Definition served (st0 : list ParameterSampler) (g0 : RNG)
           (names : list string) (items : list (string * V))
           (cons cons' : nat -> nat) (x : string) (i : nat) : Prop :=
  if Str.mem x names
  then exists v, dict_get x items = Some v /\
                 Ok v = canon st0 g0 i (cons i) /\ cons' i = S (cons i)
  else dict_get x items = None /\ cons' i = cons i.

(** [m] calls of a sampler in a row, and [m] fills of its cache in a
    row. *)
Fixpoint calls (fuel self m : nat) : M world (list V) :=
  match m with
  | O => mret []
  | S m' =>
      let! v <- ParameterSampler_call fuel self;
      let! vs <- calls fuel self m';
      mret (v :: vs)
  end.

Fixpoint fills (fuel self m : nat) : M world unit :=
  match m with
  | O => mret tt
  | S m' => run! _sample fuel self None; fills fuel self m'
  end.

Definition cache_len (w : world) (i : nat) : nat :=
  match nth_error (store w) i with
  | Some nd => List.length (_cache nd)
  | None => O
  end.

(** A sampler as [__init__] leaves it: nothing cached, not linked, index
    0 or none; a sampler without index returns a fixed value. *)
Definition fresh (nd : ParameterSampler) : Prop :=
  _cache nd = [] /\ _previous nd = None /\ _previous_offset nd = None /\
  (sampled_idx nd = Some 0 \/
   (sampled_idx nd = None /\ exists c, forall g, _get_sample nd g = (Ok c, g))).

(** Two samplers that differ in their links at most. *)
Definition same_core (nd' nd : ParameterSampler) : Prop :=
  name nd' = name nd /\ sampled_idx nd' = sampled_idx nd /\
  _get_sample nd' = _get_sample nd /\ _cache nd' = _cache nd.

(** The kinds [PopSampler.__getitem__] knows. *)
Definition recognized (dist : option pv) : bool :=
  opt_is_str dist "normal" || opt_is_str dist "expnormal" ||
  opt_is_str dist "exponential" || opt_is_str dist "exp" ||
  opt_is_str dist "gamma".

Definition not_str (x : pv) : bool :=
  match x with
  | PStr _ => false
  | _ => true
  end.

(** *** More of the chain *)

(** The property [ParameterSetSampler.sampled_varnames]: the names whose
    sampler has an index. *)
Definition sampled_varnames (self : ParameterSetSampler) : list string :=
  map fst (filter (fun ns => active (snd ns)) (combine (varnames self) (_samplers self))).

(** What no call changes of a sampler: everything but its index, where it
    has one, and its cache. *)
Definition frame (nd : ParameterSampler)
  : string * bool * M RNG V * option nat * option Z :=
  (name nd, active nd, _get_sample nd, _previous nd, _previous_offset nd).

(** [isinstance(desc, ParameterSetBase)] *)
Definition is_set (x : pv) : bool :=
  match x with
  | PSet _ => true
  | _ => false
  end.

(** Number of population axes among the components of a shape. *)
Definition pop_axes (comps : list pv) : nat :=
  List.length (filter (fun s => negb (not_str s)) comps).

(** [len(popnames)], 0 where it has none. *)
Definition npops_of (popnames : option pv) : nat :=
  match py_len popnames with
  | Ok n => n
  | _ => O
  end.

(** The order [sorted] puts names in. *)
Definition name_le (a b : string) : Prop := String.leb a b = true.

(** Two states of a chain whose samplers agree on everything a call
    leaves alone. *)
Definition same_frame (w w' : world) : Prop :=
  map frame (store w') = map frame (store w).

(** [w'] comes from [w] without a change to any sampler of a fixed
    value, the one at place [e] excepted. *)
Definition keeps (e : option nat) (w w' : world) : Prop :=
  same_frame w w' /\
  forall p nd, nth_error (store w) p = Some nd -> active nd = false ->
               e <> Some p -> nth_error (store w') p = Some nd.

(** The samplers of fixed values of a chain at rest: nothing cached, the
    value at hand. *)
Definition fixed_fresh (st : list ParameterSampler) : Prop :=
  forall p nd, nth_error st p = Some nd -> active nd = false ->
    _cache nd = [] /\ exists c, forall g, _get_sample nd g = (Ok c, g).

End Sampler.

Arguments _sample : simpl never.
Arguments _sample_while : simpl never.

Arguments PInt {V} z.
Arguments PStr {V} s.
Arguments AStr {V} s.
Arguments ATransform {V} r.
Arguments not_str {V} x.
Arguments frame {V RNG} nd.
Arguments same_frame {V RNG} w w'.

(** ** Labelled parameter sets ([make_paramrecs]) *)

Module Records.

Section Records.

(** The type of parameter sets is left open. *)
Variable P : Type.

(** An element of [params]: a Sumatra record (or record view), which
    has a label of its own, a [ParameterSet], or anything else. *)
Inductive param : Type :=
| ARecord (label : string) (parameters : P)
| ASet (p : P)
| AOther.

Record ParamRec : Type := mkParamRec {
  label : string;
  parameters : P
}.

(** What the function ends in: a value, an exception, or a failed
    [assert]. *)
Inductive checked (A : Type) : Type :=
| Done (a : A)
| Failed (e : exn)
| AssertionFailed.

Arguments Done {A} a.
Arguments Failed {A} e.
Arguments AssertionFailed {A}.

Definition no_label : string :=
  "A label must be given for each element of "
  ++ "`params` which is not a Sumatra record.".

(** The loop [for p in params]; [i] counts the labels used. *)
Fixpoint paramrecs_loop (smttk_loaded : bool) (params : list param)
         (labels : list string) (i : nat) (recs : list ParamRec)
  : checked (nat * list ParamRec) :=
  match params with
  | [] => Done (i, recs)
  | p :: rest =>
      match p with
      | ARecord l ps =>
          if smttk_loaded
          then paramrecs_loop smttk_loaded rest labels i (recs ++ [mkParamRec l ps])%list
          else AssertionFailed       (* a record is no ParameterSet *)
      | ASet ps =>
          match nth_error labels i with
          | None => Failed (ValueError no_label)
          | Some l =>
              paramrecs_loop smttk_loaded rest labels (S i) (recs ++ [mkParamRec l ps])%list
          end
      | AOther => AssertionFailed
      end
  end.

(** [make_paramrecs(params, labels)] *)
Definition make_paramrecs (smttk_loaded : bool) (params : list param)
           (labels : option (list string)) : checked (list ParamRec) :=
  let labels := match labels with
                | None => []
                | Some l => l
                end in
  match paramrecs_loop smttk_loaded params labels 0 [] with
  | Done (i, recs) =>
      if (i =? List.length labels)%nat then Done recs else AssertionFailed
  | Failed e => Failed e
  | AssertionFailed => AssertionFailed
  end.

(** What the docstring asks for: the parameter sets take the labels in
    order, the records keep theirs. *)
Fixpoint labelled (params : list param) (labels : list string) : list ParamRec :=
  match params with
  | [] => []
  | ARecord l ps :: rest => mkParamRec l ps :: labelled rest labels
  | ASet ps :: rest =>
      match labels with
      | l :: labels' => mkParamRec l ps :: labelled rest labels'
      | [] => []
      end
  | AOther :: rest => labelled rest labels
  end.

Definition is_set (p : param) : bool :=
  match p with
  | ASet _ => true
  | _ => false
  end.

Definition is_other (p : param) : bool :=
  match p with
  | AOther => true
  | _ => false
  end.

End Records.

Arguments Done {A} a.
Arguments Failed {A} e.
Arguments AssertionFailed {A}.
Arguments AOther {P}.

End Records.

(** ** Expansion of parameter descriptions

    [expand_params] and its parser.  A description is a sequence of
    characters; a block of the parser is referred to by the index of its
    opening bracket, which no two blocks share. *)

Module Expansion.

Definition text : Type := list ascii.

(** [s[a:b]] for indices that are not negative. *)
Definition slice (s : text) (a b : nat) : text := firstn (b - a) (skipn a s).

Definition amem (c : ascii) (l : list ascii) : bool := existsb (Ascii.eqb c) l.

(** [l.index(c)], where it finds [c]. *)
Fixpoint list_index (c : ascii) (l : list ascii) : option nat :=
  match l with
  | [] => None
  | x :: l' => if Ascii.eqb x c then Some O
               else match list_index c l' with
                    | Some i => Some (S i)
                    | None => None
                    end
  end.

Record Parser : Type := mkParser {
  open_brackets : list ascii;
  close_brackets : list ascii;
  separators : list ascii;
  expanders : list ascii
}.

(** [Parser()] *)
Definition default_parser : Parser :=
  mkParser ["["%char; "{"%char] ["]"%char; "}"%char] [","%char] ["*"%char].

Definition show (c : ascii) : string := String c EmptyString.

Definition not_in_list (c : ascii) : string := "'" ++ show c ++ "' is not in list".

Definition nth_bracket (l : list ascii) (idx : nat) : outcome ascii :=
  match nth_error l idx with
  | Some x => Ok x
  | None => Raise (IndexError "list index out of range")
  end.

(** [Parser.get_closer(self, c)] and [Parser.get_opener(self, c)] *)
Definition get_closer (self : Parser) (c : ascii) : outcome ascii :=
  match list_index c (open_brackets self) with
  | Some idx => nth_bracket (close_brackets self) idx
  | None => Raise (ValueError (not_in_list c))
  end.

Definition get_opener (self : Parser) (c : ascii) : outcome ascii :=
  match list_index c (close_brackets self) with
  | Some idx => nth_bracket (open_brackets self) idx
  | None => Raise (ValueError (not_in_list c))
  end.

(** A [Block]; [elements] is the [OrderedDict] of its elements by the
    index of their first character, [blocks] the blocks nested in it. *)
Record Block : Type := mkBlock {
  start : nat;
  stop : option nat;
  opener : ascii;
  closer : ascii;
  elements : list (nat * option text);
  blocks : list nat
}.

(** [Block(start, opener, closer)] *)
Definition Block_init (start : nat) (opener closer : ascii) : Block :=
  mkBlock start None opener closer [((start + 1)%nat, None)] [].

(** [d[k] = v] on a dict with integer keys. *)
Fixpoint nset {A} (k : nat) (v : A) (d : list (nat * A)) : list (nat * A) :=
  match d with
  | [] => [(k, v)]
  | (k', v') :: d' =>
      if (k =? k')%nat then (k, v) :: d' else (k', v') :: nset k v d'
  end.

Fixpoint nget {A} (k : nat) (d : list (nat * A)) : option A :=
  match d with
  | [] => None
  | (k', v) :: d' => if (k =? k')%nat then Some v else nget k d'
  end.

(** [list(d.keys())[-1]] *)
Definition last_key {A} (d : list (nat * A)) : outcome nat :=
  match List.rev d with
  | (k, _) :: _ => Ok k
  | [] => Raise (IndexError "list index out of range")
  end.

Definition set_elements (e : list (nat * option text)) (b : Block) : Block :=
  mkBlock (start b) (stop b) (opener b) (closer b) e (blocks b).

Definition set_stop (j : nat) (b : Block) : Block :=
  mkBlock (start b) (Some j) (opener b) (closer b) (elements b) (blocks b).

Definition add_block (child : nat) (b : Block) : Block :=
  mkBlock (start b) (stop b) (opener b) (closer b) (elements b) (blocks b ++ [child])%list.

(** The state of the loop of [extract_blocks]: the unclosed blocks, the
    innermost first, and the closed blocks by their start. *)
Record pstate : Type := mkState {
  block_stack : list Block;
  closed : list (nat * Block)
}.

Definition unmatched_closing (c : ascii) (i : nat) : string :=
  "Unmatched closing bracket '" ++ show c ++ "' at position " ++ Str.of_nat i ++ ".".

Definition mismatched (c : ascii) (i : nat) (o : ascii) (j : nat) : string :=
  "Closing bracket '" ++ show c ++ "' at position " ++ Str.of_nat i
  ++ " does not match opening bracket '" ++ show o ++ "' at position "
  ++ Str.of_nat j ++ ".".

Definition unmatched_opening (o : ascii) (j : nat) : string :=
  "Unmatched opening bracket '" ++ show o ++ "' at position " ++ Str.of_nat j ++ ".".

Definition empty_deque : exn := IndexError "deque index out of range".

(** The two statements that end the current element of a block at
    index [i]. *)
Definition end_element (s : text) (i : nat) (block : Block) : outcome Block :=
  do el_start_i <- last_key (elements block);
  Ok (set_elements (nset el_start_i (Some (slice s el_start_i i)) (elements block))
                   block).

(** The body of the loop of [extract_blocks] for the character [c] at
    index [i]. *)
Definition step (self : Parser) (s : text) (i : nat) (c : ascii) (st : pstate)
  : outcome pstate :=
  if amem c (open_brackets self) then
    do cl <- get_closer self c;
    let block := Block_init i c cl in
    Ok (mkState (block :: match block_stack st with
                          | top :: rest => add_block i top :: rest
                          | [] => []
                          end)
                (closed st))
  else if amem c (close_brackets self) then
    match block_stack st with
    | [] => Raise empty_deque
    | block :: rest =>
        if (List.length (block_stack st) =? 0)%nat
        then Raise (ValueError (unmatched_closing c i))
        else if negb (Ascii.eqb c (closer block))
        then Raise (ValueError (mismatched c i (opener block) (start block)))
        else
          do block' <- end_element s i (set_stop (i + 1) block);
          Ok (mkState rest (nset (start block') block' (closed st)))
    end
  else if amem c (separators self) then
    match block_stack st with
    | [] => Raise empty_deque
    | block :: rest =>
        do block' <- end_element s i block;
        Ok (mkState (set_elements (nset (i + 1)%nat None (elements block')) block' :: rest)
                    (closed st))
    end
  else Ok st.

(** The loop over [enumerate(s)], from index [i] on. *)
Fixpoint scan (self : Parser) (s : text) (i : nat) (chars : text) (st : pstate)
  : outcome pstate :=
  match chars with
  | [] => Ok st
  | c :: rest => do st' <- step self s i c st; scan self s (S i) rest st'
  end.

(** [Parser.extract_blocks(self, s)] *)
Definition extract_blocks (self : Parser) (s : text) : outcome (list (nat * Block)) :=
  do st <- scan self s 0 s (mkState [] []);
  match block_stack st with
  | top :: _ => Raise (ValueError (unmatched_opening (opener top) (start top)))
  | [] => Ok (closed st)
  end.

(** [str(el)] for an element of a block. *)
Definition str_of (el : option text) : text :=
  match el with
  | Some e => e
  | None => list_ascii_of_string "None"
  end.

(** [s[j:]] where [j] may be [None]. *)
Definition from (s : text) (j : option nat) : text :=
  match j with
  | Some j' => skipn j' s
  | None => s
  end.

Definition unexpanded (s : text) (i : nat) : string :=
  "Expansion identifier '*' at position " ++ Str.of_nat i
  ++ " must be followed by a bracketed expression." ++ nl
  ++ "Context: '" ++ string_of_list_ascii (slice s (i - 10) (i + 10)) ++ "'.".

(** The loop of [_expand] over [enumerate(s)], from index [i] on; the
    result is an [ExpandResult(strs, done)]. *)
Fixpoint expand_scan (self : Parser) (s : text) (fail_on_unexpanded : bool)
         (blocks : list (nat * Block)) (i : nat) (chars : text)
  : outcome (list text * bool) :=
  match chars with
  | [] => Ok ([s], true)
  | c :: rest =>
      if amem c (expanders self) then
        match nget (i + 1)%nat blocks with
        | Some block =>
            Ok (map (fun el => firstn i s ++ str_of (snd el) ++ from s (stop block))%list
                    (elements block),
                false)
        | None =>
            if fail_on_unexpanded then Raise (ValueError (unexpanded s i))
            else expand_scan self s fail_on_unexpanded blocks (S i) rest
        end
      else expand_scan self s fail_on_unexpanded blocks (S i) rest
  end.

(** [_expand(s, fail_on_unexpanded, parser)] *)
Definition _expand (s : text) (fail_on_unexpanded : bool) (parser : Parser)
  : outcome (list text * bool) :=
  do blocks <- extract_blocks parser s;
  expand_scan parser s fail_on_unexpanded blocks 0 s.

(** The loop [while not done] of [expand_params]. *)
Fixpoint expand_while (fuel : nat) (fail_on_unexpanded : bool) (parser : Parser)
         (param_strs : list text) : outcome (list text) :=
  match fuel with
  | O => OutOfFuel
  | S fuel' =>
      do res_lst <- omap (fun s => _expand s fail_on_unexpanded parser) param_strs;
      let param_strs' := flat_map fst res_lst in
      if forallb snd res_lst then Ok param_strs'
      else expand_while fuel' fail_on_unexpanded parser param_strs'
  end.

Section Files.

(** [expand_urls] reads files, and [strip_comments] is imported from a
    module of its own. *)
Variable expand_urls : text -> outcome text.
Variable strip_comments : text -> text.

(** [expand_params(param_str, fail_on_unexpanded, parser)] *)
Definition expand_params (fuel : nat) (param_str : text) (fail_on_unexpanded : bool)
           (parser : option Parser) : outcome (list text) :=
  let parser := match parser with
                | None => default_parser
                | Some p => p
                end in
  do param_str <- expand_urls param_str;
  expand_while fuel fail_on_unexpanded parser [strip_comments param_str].

End Files.

(** A character the parser does not act on. *)
Definition plain (self : Parser) (c : ascii) : bool :=
  negb (amem c (open_brackets self)) && negb (amem c (close_brackets self))
  && negb (amem c (separators self)).

(** A description [_expand] has nothing to do on. *)
Definition settled (fail_on_unexpanded : bool) (parser : Parser) (s : text) : Prop :=
  _expand s fail_on_unexpanded parser = Ok ([s], true).

Local Open Scope list_scope.
Local Open Scope nat_scope.

(** [sep.join(els)] *)
Fixpoint join_with (sep : ascii) (els : list text) : text :=
  match els with
  | [] => []
  | [e] => e
  | e :: rest => e ++ sep :: join_with sep rest
  end.


(** *** What the loop of [extract_blocks] keeps

    An element that is closed is a string of at most [bound - st - 2]
    characters; an open block at index [i] has its elements closed but
    for the last, which starts after the opening bracket; a closed block
    is stored under its start, ends inside the text and has its elements
    closed. *)
Definition el_ok (st bound : nat) (kv : nat * option text) : Prop :=
  exists e, snd kv = Some e /\ List.length e + st + 2 <= bound.

Definition open_ok (i : nat) (b : Block) : Prop :=
  exists es p, elements b = es ++ [(p, None)] /\ start b < p /\ p <= i /\
               Forall (fun kv => fst kv < p /\ el_ok (start b) i kv) es.

Definition closed_ok (n : nat) (kb : nat * Block) : Prop :=
  start (snd kb) = fst kb /\
  exists j, stop (snd kb) = Some j /\ j <= n /\
            Forall (el_ok (fst kb) j) (elements (snd kb)).

Definition state_ok (n i : nat) (st : pstate) : Prop :=
  Forall (open_ok i) (block_stack st) /\ Forall (closed_ok n) (closed st).

(** A block that starts at an opening bracket of the text, and a closed
    block that ends at the closing bracket that goes with it. *)
Definition opened_at (self : Parser) (s : text) (b : Block) : Prop :=
  nth_error s (start b) = Some (opener b) /\
  amem (opener b) (open_brackets self) = true /\
  get_closer self (opener b) = Ok (closer b).

Definition spans (self : Parser) (s : text) (kb : nat * Block) : Prop :=
  start (snd kb) = fst kb /\ opened_at self s (snd kb) /\
  exists j, stop (snd kb) = Some j /\ fst kb < j /\ j <= List.length s /\
            nth_error s (j - 1) = Some (closer (snd kb)).

(** Every opening bracket before index [i] has its block, open or
    closed. *)
Definition brackets_ok (self : Parser) (s : text) (i : nat) (st : pstate) : Prop :=
  Forall (fun b => opened_at self s b /\ start b < i) (block_stack st) /\
  Forall (spans self s) (closed st) /\
  forall k c, k < i -> nth_error s k = Some c ->
              amem c (open_brackets self) = true ->
              (exists b, In b (block_stack st) /\ start b = k) \/
              nget k (closed st) <> None.

End Expansion.

(** ** A small instance

    A generator whose state is a counter and whose draws return a number
    made from the counter, to run the sampler on concrete
    specifications. *)

Module Demo.

Definition leaf (x : pv Z) : Z :=
  match x with
  | PInt z => z
  | PVal v => v
  | _ => 0
  end.

Definition scale_by (v : Z) (f : pv Z) : Z := v * leaf f.

Definition seed_of (x : pv Z) : outcome Z :=
  match x with
  | PInt z => Ok z
  | _ => Raise (TypeError "Cannot cast the seed to an integer")
  end.

Definition int_of_string (s : string) : option Z :=
  match NilZero.uint_of_string s with
  | Some u => Some (Z.of_nat (Nat.of_uint u))
  | None => None
  end.

Definition show (x : pv Z) : string :=
  match x with
  | PStr s => s
  | _ => "?"
  end.

(** The instance evaluates no expression beyond those that
    [SimpleEval_eval] decides. *)
Definition eval (e : string) (names : list (string * nsval Z)) : outcome Z :=
  Raise (LibraryError "expression not supported").

#[export] Instance ext : Externals Z Z := {|
  np_array := leaf;
  np_exp := fun v => v + 1000;
  np_imul := scale_by;
  np_block := fun l => fold_right Z.add 0 l;
  np_block2 := fun l => fold_right Z.add 0 (List.concat l);
  np_random_seed := seed_of;
  np_random_normal := fun _ _ _ g => (Ok (3 * g + 1), g + 1);
  np_random_exponential := fun _ _ g => (Ok (3 * g + 2), g + 1);
  np_random_gamma := fun _ _ _ g => (Ok (3 * g), g + 1);
  py_int := int_of_string;
  py_str := show;
  simple_eval := eval
|}.

(** The example of the class docstring, with a fixed value added. *)
Definition spec_xy : ParameterSet Z :=
  [("seed", PInt 100);
   ("x", PSet [("dist", PStr "normal"); ("shape", PList [PInt 2]);
               ("loc", PInt 0); ("scale", PInt 1)]);
   ("y", PSet [("dist", PStr "gamma"); ("shape", PList [PInt 1]);
               ("a", PInt 2); ("scale", PInt 1)]);
   ("c", PInt 42)].

(** A variable of a kind the sampler does not know. *)
Definition spec_uniform : ParameterSet Z :=
  [("seed", PInt 100);
   ("x", PSet [("dist", PStr "uniform"); ("shape", PList [PInt 2])])].


(** A shape with a population string, and no population key. *)
Definition spec_nopop : ParameterSet Z :=
  [("seed", PInt 100);
   ("x", PSet [("dist", PStr "normal"); ("shape", PList [PStr "2+3"])])].

(** Two population keys at once. *)
Definition spec_two_keys : ParameterSet Z :=
  [("seed", PInt 100);
   ("population", PList [PStr "A"; PStr "B"]);
   ("labels", PList [PStr "A"; PStr "B"]);
   ("x", PSet [("dist", PStr "normal"); ("shape", PList [PInt 2])])].

(** A shape of two parts against three populations. *)
Definition spec_mismatch : ParameterSet Z :=
  [("seed", PInt 100);
   ("population", PList [PStr "A"; PStr "B"; PStr "C"]);
   ("x", PSet [("dist", PStr "normal"); ("shape", PList [PStr "2+3"])])].


(** The chain the constructor builds, where it builds one. *)
Definition chain_of (dists : ParameterSet Z) (seed : option (pv Z)) (g : Z)
  : ParameterSetSampler Z Z :=
  match ParameterSetSampler_init dists seed g with
  | (Ok c, _) => c
  | _ => mkParameterSetSampler [] [] 0
  end.

Definition chain_xy : ParameterSetSampler Z Z := chain_of spec_xy None 7.
Definition chain_xy5 : ParameterSetSampler Z Z := chain_of spec_xy (Some (PInt 5)) 7.
Definition chain_uniform : ParameterSetSampler Z Z := chain_of spec_uniform None 7.



Definition desc_uniform : ParameterSet Z :=
  [("dist", PStr "uniform"); ("shape", PList [PInt 2])].





Definition sampler_c : ParameterSampler Z Z :=
  mkParameterSampler "c" None (mret 42) [] (Some 2%nat) (Some (-1)).

(** Requests on [chain_xy], the last of which names no variable, and
    what they leave. *)
Definition reqs_bad : list request := [One "y"; One "nope"].

Definition after_bad : outcome (list (response Z)) * (Z * ParameterSetSampler Z Z) :=
  run 20 reqs_bad (7, chain_xy).

(** [spec_xy] with its entries in the opposite order. *)
Definition spec_yx : ParameterSet Z := rev spec_xy.

(** A specification without variables. *)
Definition spec_seed_only : ParameterSet Z := [("seed", PInt 100)].

(** A shape with a population axis. *)
Definition desc_pop : ParameterSet Z :=
  [("dist", PStr "normal"); ("shape", PList [PStr "2+3"])].

Definition two_pops : list (pv Z) := [PStr "A"; PStr "B"].

(** Parameter descriptions. *)
Definition description : Expansion.text := list_ascii_of_string "{a: *[1, 2]}".
Definition product : Expansion.text := list_ascii_of_string "2*3".
Definition plain_set : Expansion.text := list_ascii_of_string "{a: 1}".
Definition one_block : Expansion.text := list_ascii_of_string "[1]".

Definition blocks_of (s : Expansion.text) : list (nat * Expansion.Block) :=
  match Expansion.extract_blocks Expansion.default_parser s with
  | Ok bl => bl
  | _ => []
  end.

End Demo.

Unset Implicit Arguments.

(** ** The store *)

Section Store.

Context {A : Type}.

Lemma set_nth_length (i : nat) (x : A) (l : list A) :
  List.length (set_nth i x l) = List.length l.
Proof.
  revert i; induction l as [|y l IH]; intros [|i]; simpl; auto.
Qed.

Lemma nth_error_set_nth_eq (i : nat) (x : A) (l : list A) :
  (i < List.length l)%nat -> nth_error (set_nth i x l) i = Some x.
Proof.
  revert i; induction l as [|y l IH]; intros [|i] H; simpl in *; try lia; auto.
  apply IH; lia.
Qed.

Lemma nth_error_set_nth_neq (i j : nat) (x : A) (l : list A) :
  i <> j -> nth_error (set_nth i x l) j = nth_error l j.
Proof.
  revert i j; induction l as [|y l IH]; intros [|i] [|j] H; simpl; auto; try lia.
Qed.

Lemma set_nth_twice (i : nat) (x y : A) (l : list A) :
  set_nth i x (set_nth i y l) = set_nth i x l.
Proof.
  revert i; induction l as [|z l IH]; intros [|i]; simpl; auto.
  f_equal; auto.
Qed.

End Store.

(** ** Resolving the previous sampler *)

Section Previous.

Local Open Scope nat_scope.

Context {V RNG : Type}.

Variable st : list (ParameterSampler V RNG).
Hypothesis Hlinked : linked st.

Lemma last_active_below_some (j p : nat) :
  last_active_below st j = Some p ->
  p < j /\ (p < List.length st -> is_active st p = true) /\
  (exists nd, nth_error st p = Some nd /\ active nd = true) /\
  forall q, p < q < j -> is_active st q = false.
Proof.
  induction j as [|j IH]; simpl; [discriminate|].
  unfold is_active in *.
  destruct (nth_error st j) as [nd|] eqn:E.
  - destruct (active nd) eqn:Ea.
    + intros H; inversion H; subst p.
      split; [lia|]. split; [now rewrite E|]. split; [eauto|].
      intros q Hq; lia.
    + intros H. destruct (IH H) as (H1 & H2 & H3 & H4).
      split; [lia|]. split; [auto|]. split; [auto|].
      intros q Hq. destruct (Nat.eq_dec q j) as [->|Hne].
      * now rewrite E.
      * apply H4; lia.
  - intros H. destruct (IH H) as (H1 & H2 & H3 & H4).
    split; [lia|]. split; [auto|]. split; [auto|].
    intros q Hq. destruct (Nat.eq_dec q j) as [->|Hne].
    + now rewrite E.
    + apply H4; lia.
Qed.

Lemma last_active_below_none (j : nat) :
  last_active_below st j = None -> forall q, q < j -> is_active st q = false.
Proof.
  induction j as [|j IH]; simpl; intros H q Hq; [lia|].
  unfold is_active in *.
  destruct (nth_error st j) as [nd|] eqn:E.
  - destruct (active nd) eqn:Ea; [discriminate|].
    destruct (Nat.eq_dec q j) as [->|Hne]; [now rewrite E|apply IH; auto; lia].
  - destruct (Nat.eq_dec q j) as [->|Hne]; [now rewrite E|apply IH; auto; lia].
Qed.

(** Going back from place [j] without passing place 0. *)
Lemma previous_nowrap (d : nat) :
  forall j p, j < List.length st -> p < j -> j - p <= d ->
    is_active st p = true ->
    (forall q, p < q < j -> is_active st q = false) ->
    forall fuel, d <= fuel ->
      previous fuel st j = Ok p /\ previous_offset fuel st j = Ok 0%Z.
Proof.
  induction d as [|d IH]; intros j p Hj Hp Hd Ha Hbetween fuel Hf; [lia|].
  destruct fuel as [|fuel]; [lia|].
  simpl. unfold node_at.
  destruct (nth_error st j) as [nd|] eqn:Ej;
    [|apply nth_error_None in Ej; lia].
  destruct (Hlinked _ _ Ej) as [Hprev Hoff].
  destruct (Nat.eqb_spec j 0) as [->|Hj0]; [lia|].
  simpl. rewrite Hprev, Hoff.
  destruct (nth_error st (j - 1)) as [pn|] eqn:Ep;
    [|apply nth_error_None in Ep; lia].
  simpl.
  destruct (Nat.eq_dec (j - 1) p) as [Heq|Hne].
  - subst p. unfold is_active in Ha. rewrite Ep in Ha. unfold active in Ha.
    destruct (sampled_idx pn); [auto|discriminate].
  - assert (Hq : is_active st (j - 1) = false) by (apply Hbetween; lia).
    unfold is_active in Hq. rewrite Ep in Hq. unfold active in Hq.
    destruct (sampled_idx pn); [discriminate|].
    destruct (IH (j - 1) p) with (fuel := fuel) as [H1 H2]; try lia; auto.
    { intros q Hq'; apply Hbetween; lia. }
    rewrite H1, H2. auto.
Qed.

(** Going back from place [j] through place 0 to the last sampler that
    draws. *)
Lemma previous_wrap :
  forall j p, j < List.length st -> p < List.length st ->
    is_active st p = true ->
    (forall q, p < q < List.length st -> is_active st q = false) ->
    (forall q, q < j -> is_active st q = false) ->
    forall fuel, j + (List.length st - p) <= fuel ->
      previous fuel st j = Ok p /\ previous_offset fuel st j = Ok (-1)%Z.
Proof.
  induction j as [|j IH]; intros p Hj Hp Ha Habove Hbelow fuel Hf.
  - destruct fuel as [|fuel]; [lia|].
    simpl. unfold node_at.
    destruct (nth_error st 0) as [nd|] eqn:Ej;
      [|apply nth_error_None in Ej; lia].
    destruct (Hlinked _ _ Ej) as [Hprev Hoff]. simpl in Hprev, Hoff.
    simpl. rewrite Hprev, Hoff.
    destruct (nth_error st (List.length st - 1)) as [pn|] eqn:Ep;
      [|apply nth_error_None in Ep; lia].
    simpl.
    destruct (Nat.eq_dec (List.length st - 1) p) as [Heq|Hne].
    + subst p. unfold is_active in Ha. rewrite Ep in Ha. unfold active in Ha.
      destruct (sampled_idx pn); [auto|discriminate].
    + assert (Hq : is_active st (List.length st - 1) = false) by (apply Habove; lia).
      unfold is_active in Hq. rewrite Ep in Hq. unfold active in Hq.
      destruct (sampled_idx pn); [discriminate|].
      destruct (@previous_nowrap (List.length st - 1 - p) (List.length st - 1) p)
        with (fuel := fuel) as [H1 H2]; try lia; auto.
      { intros q Hq'; apply Habove; lia. }
      rewrite H1, H2. auto.
  - destruct fuel as [|fuel]; [lia|].
    simpl. unfold node_at.
    destruct (nth_error st (S j)) as [nd|] eqn:Ej;
      [|apply nth_error_None in Ej; lia].
    destruct (Hlinked _ _ Ej) as [Hprev Hoff]. simpl in Hprev, Hoff.
    rewrite Nat.sub_0_r in Hprev.
    simpl. rewrite Hprev, Hoff.
    destruct (nth_error st j) as [pn|] eqn:Ep;
      [|apply nth_error_None in Ep; lia].
    simpl.
    assert (Hq : is_active st j = false) by (apply Hbelow; lia).
    unfold is_active in Hq. rewrite Ep in Hq. unfold active in Hq.
    destruct (sampled_idx pn); [discriminate|].
    destruct (IH p) with (fuel := fuel) as [H1 H2]; try lia; auto.
    rewrite H1, H2. auto.
Qed.

(** What [prev_of] resolves to. *)
Lemma prev_of_spec (i : nat) :
  i < List.length st -> is_active st i = true ->
  let p := fst (prev_of st i) in
  let off := snd (prev_of st i) in
  p < List.length st /\ is_active st p = true /\
  ((off = 0%Z /\ p < i /\ forall q, p < q < i -> is_active st q = false) \/
   (off = (-1)%Z /\ i <= p /\ (forall q, q < i -> is_active st q = false) /\
    forall q, p < q < List.length st -> is_active st q = false)).
Proof.
  intros Hi Ha. unfold prev_of.
  destruct (last_active_below st i) as [p|] eqn:E1.
  - destruct (last_active_below_some _ _ E1) as (H1 & H2 & H3 & H4).
    simpl. repeat split; try lia. { apply H2; lia. }
    left. auto.
  - pose proof (last_active_below_none _ E1) as Hnone.
    destruct (last_active_below st (List.length st)) as [p|] eqn:E2.
    + destruct (last_active_below_some _ _ E2) as (H1 & H2 & H3 & H4).
      simpl. repeat split; try lia. { apply H2; lia. }
      right. repeat split; auto.
      destruct (le_lt_dec i p); auto.
      rewrite H4 in Ha; [discriminate|lia].
    + pose proof (last_active_below_none _ E2 i Hi) as Hc. congruence.
Qed.

(** The two properties agree with [prev_of], given fuel for one turn of
    the ring. *)
Lemma previous_spec (i : nat) :
  i < List.length st -> is_active st i = true ->
  forall fuel, List.length st + 1 <= fuel ->
    previous fuel st i = Ok (fst (prev_of st i)) /\
    previous_offset fuel st i = Ok (snd (prev_of st i)).
Proof.
  intros Hi Ha fuel Hf.
  destruct (prev_of_spec i Hi Ha) as (Hp & Hpa & [(Hoff & Hlt & Hb)|(Hoff & Hle & Hb & Hab)]);
    rewrite Hoff.
  - apply (@previous_nowrap (i - fst (prev_of st i))); auto; lia.
  - apply previous_wrap; auto; lia.
Qed.

End Previous.

(** ** The invariant of the ring *)

Section Ring.

Local Open Scope nat_scope.
Local Open Scope list_scope.

Context {V RNG : Type}.

Variable st0 : list (ParameterSampler V RNG).
Variable g0 : RNG.
Hypothesis Hlinked0 : linked st0.
Hypothesis Hdraws : draws_ok st0.

Lemma sweep_app (a b : list (ParameterSampler V RNG)) (g : RNG) :
  sweep (a ++ b) g = sweep b (sweep a g).
Proof. unfold sweep. apply fold_left_app. Qed.

Lemma firstn_S_nth {A : Type} (l : list A) (c : nat) (x : A) :
  nth_error l c = Some x -> firstn (S c) l = firstn c l ++ [x].
Proof.
  revert c; induction l as [|y l IH]; intros [|c] H; simpl in *; try discriminate.
  - now inversion H.
  - f_equal. now apply IH.
Qed.

Lemma gen_state_step (k c : nat) (nd : ParameterSampler V RNG) :
  nth_error st0 c = Some nd ->
  gen_state st0 g0 k (S c) = slot nd (gen_state st0 g0 k c).
Proof.
  intros H. unfold gen_state. rewrite (firstn_S_nth _ _ _ H), sweep_app. reflexivity.
Qed.

Lemma gen_state_round (k : nat) :
  gen_state st0 g0 k (List.length st0) = gen_state st0 g0 (S k) 0.
Proof.
  unfold gen_state. rewrite firstn_all. reflexivity.
Qed.

(** The value of a sampler that does not draw is the same in every
    round. *)
Lemma canon_const (p k : nat) (nd0 : ParameterSampler V RNG) :
  nth_error st0 p = Some nd0 -> active nd0 = false ->
  canon st0 g0 p k = canon st0 g0 p 0.
Proof.
  intros E Ha. unfold canon. rewrite E.
  pose proof (Hdraws _ _ E) as Hd. rewrite Ha in Hd. destruct Hd as [c Hc].
  now rewrite !Hc.
Qed.

Lemma node_ok_same_idx (k c k' c' : nat) (cons : nat -> nat) (p : nat)
      (nd0 nd : ParameterSampler V RNG) :
  (active nd0 = true -> idx_of k' c' p = idx_of k c p) ->
  node_ok st0 g0 k c cons p nd0 nd -> node_ok st0 g0 k' c' cons p nd0 nd.
Proof.
  intros Hidx (H1 & H2 & H3 & H4 & H5). unfold node_ok.
  repeat (split; [assumption|]).
  destruct (active nd0); [|assumption].
  rewrite Hidx by reflexivity. assumption.
Qed.

(** A place whose sampler does not draw can be counted as done. *)
Lemma Inv_skip (k c : nat) (cons : nat -> nat) (w : world V RNG) :
  Inv st0 g0 k c cons w -> c < List.length st0 -> is_active st0 c = false ->
  Inv st0 g0 k (S c) cons w.
Proof.
  intros (Hlen & Hc & Hg & Hn) Hlt Hin.
  unfold is_active in Hin.
  destruct (nth_error st0 c) as [ndc|] eqn:Ec;
    [|apply nth_error_None in Ec; lia].
  split; [assumption|]. split; [lia|]. split.
  - rewrite Hg. rewrite (gen_state_step _ _ _ Ec). unfold slot. now rewrite Hin.
  - intros p nd0 E. destruct (Hn p nd0 E) as (nd & En & Hok).
    exists nd. split; [assumption|].
    apply (node_ok_same_idx k c); [|assumption].
    intros Ha. unfold idx_of.
    assert (p <> c) by (intros ->; congruence).
    destruct (Nat.ltb_spec p (S c)), (Nat.ltb_spec p c); lia.
Qed.

Lemma Inv_skip_range (k c c' : nat) (cons : nat -> nat) (w : world V RNG) :
  Inv st0 g0 k c cons w -> c <= c' -> c' <= List.length st0 ->
  (forall q, c <= q < c' -> is_active st0 q = false) ->
  Inv st0 g0 k c' cons w.
Proof.
  intros HI Hle. induction Hle as [|c' Hle IH]; intros Hn Hq; [assumption|].
  apply Inv_skip; [|lia|apply Hq; lia].
  apply IH; [lia|]. intros q Hq'. apply Hq. lia.
Qed.

(** A finished round is the start of the next. *)
Lemma Inv_round (k : nat) (cons : nat -> nat) (w : world V RNG) :
  Inv st0 g0 k (List.length st0) cons w -> Inv st0 g0 (S k) 0 cons w.
Proof.
  intros (Hlen & Hc & Hg & Hn).
  split; [assumption|]. split; [lia|]. split.
  - now rewrite Hg, gen_state_round.
  - intros p nd0 E. destruct (Hn p nd0 E) as (nd & En & Hok).
    exists nd. split; [assumption|].
    apply (node_ok_same_idx k (List.length st0)); [|assumption].
    intros _. unfold idx_of.
    assert (p < List.length st0) by (apply nth_error_Some; congruence).
    destruct (Nat.ltb_spec p 0), (Nat.ltb_spec p (List.length st0)); lia.
Qed.

(** The samplers of a chain at work are those it started with, in
    activity and in links. *)
Lemma Inv_active (k c : nat) (cons : nat -> nat) (w : world V RNG) (q : nat) :
  Inv st0 g0 k c cons w -> is_active (store w) q = is_active st0 q.
Proof.
  intros (Hlen & Hc & Hg & Hn). unfold is_active.
  destruct (nth_error st0 q) as [nd0|] eqn:E.
  - destruct (Hn q nd0 E) as (nd & En & (_ & _ & _ & _ & Hok)). rewrite En.
    unfold active at 1. destruct (active nd0).
    + destruct Hok as (-> & _). reflexivity.
    + destruct Hok as (-> & _). reflexivity.
  - apply nth_error_None in E.
    destruct (nth_error (store w) q) eqn:E'; [|reflexivity].
    assert (q < List.length (store w)) by (apply nth_error_Some; congruence). lia.
Qed.

Lemma Inv_linked (k c : nat) (cons : nat -> nat) (w : world V RNG) :
  Inv st0 g0 k c cons w -> linked (store w).
Proof.
  intros (Hlen & Hc & Hg & Hn) p nd E.
  assert (Hp : p < List.length st0) by (rewrite <- Hlen; apply nth_error_Some; congruence).
  destruct (nth_error st0 p) as [nd0|] eqn:E0;
    [|apply nth_error_None in E0; lia].
  destruct (Hn p nd0 E0) as (nd' & En & (_ & _ & H3 & H4 & _)).
  assert (nd' = nd) by congruence. subst nd'.
  rewrite H3, H4, Hlen. apply Hlinked0. assumption.
Qed.

Lemma last_active_below_ext (st st' : list (ParameterSampler V RNG)) (j : nat) :
  (forall q, is_active st q = is_active st' q) ->
  last_active_below st j = last_active_below st' j.
Proof.
  intros H. induction j as [|j IH]; simpl; [reflexivity|].
  pose proof (H j) as Hj. unfold is_active in Hj.
  destruct (nth_error st j) as [nd|], (nth_error st' j) as [nd'|]; rewrite IH.
  - now rewrite Hj.
  - now rewrite Hj.
  - now rewrite <- Hj.
  - reflexivity.
Qed.

Lemma Inv_prev_of (k c : nat) (cons : nat -> nat) (w : world V RNG) (i : nat) :
  Inv st0 g0 k c cons w -> prev_of (store w) i = prev_of st0 i.
Proof.
  intros HI. unfold prev_of.
  assert (Hext : forall q, is_active (store w) q = is_active st0 q)
    by (intros q; apply (Inv_active k c cons); assumption).
  rewrite !(last_active_below_ext _ _ _ Hext).
  destruct HI as (-> & _). reflexivity.
Qed.

(** Replacing one sampler of the store. *)
Lemma Inv_update (k c k' c' : nat) (cons cons' : nat -> nat) (w : world V RNG)
      (i : nat) (nd0 nd' : ParameterSampler V RNG) (g' : RNG) :
  Inv st0 g0 k c cons w ->
  nth_error st0 i = Some nd0 ->
  node_ok st0 g0 k' c' cons' i nd0 nd' ->
  (forall p m0 m, p <> i -> nth_error st0 p = Some m0 ->
     node_ok st0 g0 k c cons p m0 m -> node_ok st0 g0 k' c' cons' p m0 m) ->
  c' <= List.length st0 ->
  g' = gen_state st0 g0 k' c' ->
  Inv st0 g0 k' c' cons' (mkWorld g' (set_nth i nd' (store w))).
Proof.
  intros (Hlen & Hc & Hg & Hn) E Hok Hothers Hc' Hg'.
  split; [simpl; now rewrite set_nth_length|].
  split; [assumption|]. split; [assumption|].
  intros p m0 Ep. simpl.
  destruct (Nat.eq_dec p i) as [->|Hne].
  - assert (m0 = nd0) by congruence. subst m0.
    exists nd'. split; [|assumption].
    apply nth_error_set_nth_eq. rewrite Hlen. apply nth_error_Some. congruence.
  - destruct (Hn p m0 Ep) as (m & Em & Hm).
    exists m. split; [|apply Hothers; auto].
    rewrite nth_error_set_nth_neq; auto.
Qed.

Lemma Inv_node (k c : nat) (cons : nat -> nat) (w : world V RNG) (p : nat)
      (nd0 : ParameterSampler V RNG) :
  Inv st0 g0 k c cons w -> nth_error st0 p = Some nd0 ->
  exists nd, nth_error (store w) p = Some nd /\ node_ok st0 g0 k c cons p nd0 nd.
Proof. intros (_ & _ & _ & Hn). apply Hn. Qed.

(** The end of [_sample] for a sampler whose turn it is: the index goes
    up by one and the value of this round joins the cache. *)
Lemma sample_tail (k i : nat) (cons : nat -> nat) (w : world V RNG)
      (nd0 : ParameterSampler V RNG) :
  Inv st0 g0 k i cons w -> nth_error st0 i = Some nd0 -> active nd0 = true ->
  exists w',
    (let! nd' <- get_node i;
     let! idx' <- the_idx nd';
     run! modify_node i (set_idx (idx' + 1)%Z);
     draw_append i) w = (Ok tt, w') /\
    Inv st0 g0 k (S i) cons w'.
Proof.
  intros HI E Ha.
  destruct (Inv_node _ _ _ _ _ _ HI E) as (nd & En & Hok).
  pose proof Hok as (Hname & Hgs & Hprev & Hoff & Hact).
  rewrite Ha in Hact. destruct Hact as (Hidx & Hcons & Hcache).
  assert (Hii : idx_of k i i = k) by (unfold idx_of; rewrite Nat.ltb_irrefl; lia).
  rewrite Hii in *.
  assert (Hi : i < List.length (store w)) by (apply nth_error_Some; congruence).
  pose proof (Hdraws _ _ E) as Hd. rewrite Ha in Hd.
  destruct (Hd (np_random w)) as (v & g' & Hv).
  eexists. split.
  - unfold mbind, get_node, node_at, the_idx, modify_node, draw_append.
    rewrite En, Hidx. simpl. rewrite En. simpl.
    unfold mbind, get_node, node_at. simpl.
    rewrite nth_error_set_nth_eq by assumption. simpl.
    rewrite Hgs, Hv. unfold modify_node. simpl.
    rewrite nth_error_set_nth_eq by assumption. reflexivity.
  - simpl. rewrite set_nth_twice.
    apply (Inv_update k i k (S i) cons cons w i nd0); auto.
    + unfold node_ok. simpl. repeat (split; [assumption|]).
      rewrite Ha.
      assert (Hi1 : idx_of k (S i) i = S k)
        by (unfold idx_of; destruct (Nat.ltb_spec i (S i)); lia).
      rewrite Hi1. split; [f_equal; lia|]. split; [lia|].
      replace (S k - cons i) with (S (k - cons i)) by lia.
      rewrite seq_S, !map_app, Hcache. simpl. f_equal. f_equal.
      replace (cons i + (k - cons i)) with k by lia.
      unfold canon. rewrite E.
      destruct HI as (_ & _ & <- & _). now rewrite Hv.
    + intros p m0 m Hne Ep. apply node_ok_same_idx.
      intros _. unfold idx_of.
      destruct (Nat.ltb_spec p (S i)), (Nat.ltb_spec p i); lia.
    + assert (i < List.length st0) by (apply nth_error_Some; congruence). lia.
    + destruct HI as (_ & _ & Hg & _).
      rewrite (gen_state_step _ _ _ E). unfold slot. rewrite Ha, <- Hg, Hv. reflexivity.
Qed.

Lemma _sample_eq (fuel self : nat) (sample_i : option Z) :
  @_sample V RNG (S fuel) self sample_i =
  (let! nd <- get_node self;
   match sampled_idx nd with
   | None => draw_append self
   | Some idx =>
       let sample_i := match sample_i with
                       | None => (idx + 1)%Z
                       | Some i => i
                       end in
       if (sample_i >? idx)%Z then
         run! _sample_while fuel self sample_i;
         let! nd' <- get_node self;
         let! idx' <- the_idx nd';
         run! modify_node self (set_idx (idx' + 1)%Z);
         draw_append self
       else mret tt
   end).
Proof. reflexivity. Qed.

Lemma _sample_while_eq (fuel self : nat) (sample_i : Z) :
  @_sample_while V RNG (S fuel) self sample_i =
  (let! p <- (fun w => (previous fuel (store w) self, w));
   let! pn <- get_node p;
   let! pidx <- the_idx pn;
   let! off <- (fun w => (previous_offset fuel (store w) self, w));
   if (pidx <? sample_i + off)%Z then
     let! p' <- (fun w => (previous fuel (store w) self, w));
     let! off' <- (fun w => (previous_offset fuel (store w) self, w));
     run! _sample fuel p' (Some (sample_i + off')%Z);
     _sample_while fuel self sample_i
   else mret tt).
Proof. reflexivity. Qed.

Lemma Inv_previous (k c : nat) (cons : nat -> nat) (w : world V RNG) (i fuel : nat)
      (nd0 : ParameterSampler V RNG) :
  Inv st0 g0 k c cons w -> nth_error st0 i = Some nd0 -> active nd0 = true ->
  List.length st0 + 1 <= fuel ->
  previous fuel (store w) i = Ok (fst (prev_of st0 i)) /\
  previous_offset fuel (store w) i = Ok (snd (prev_of st0 i)).
Proof.
  intros HI E Ha Hf.
  rewrite <- (Inv_prev_of k c cons w i HI).
  apply previous_spec.
  - eapply Inv_linked; eassumption.
  - destruct HI as (-> & _). apply nth_error_Some. congruence.
  - rewrite (Inv_active k c cons w i HI). unfold is_active. now rewrite E.
  - destruct HI as (-> & _). assumption.
Qed.

Lemma Inv_idx (k c : nat) (cons : nat -> nat) (w : world V RNG) (p : nat) :
  Inv st0 g0 k c cons w -> is_active st0 p = true ->
  exists nd, nth_error (store w) p = Some nd /\
             sampled_idx nd = Some (Z.of_nat (idx_of k c p)).
Proof.
  intros HI Ha. unfold is_active in Ha.
  destruct (nth_error st0 p) as [nd0|] eqn:E; [|discriminate].
  destruct (Inv_node _ _ _ _ _ _ HI E) as (nd & En & (_ & _ & _ & _ & Hact)).
  rewrite Ha in Hact. exists nd. tauto.
Qed.

(** When it is the turn of the sampler at place [i], its loop has
    nothing to wait for. *)
Lemma while_done (k i : nat) (cons : nat -> nat) (w : world V RNG) (fuel : nat)
      (nd0 : ParameterSampler V RNG) :
  Inv st0 g0 k i cons w -> nth_error st0 i = Some nd0 -> active nd0 = true ->
  List.length st0 + 2 <= fuel ->
  _sample_while fuel i (Z.of_nat k + 1)%Z w = (Ok tt, w).
Proof.
  intros HI E Ha Hf.
  destruct fuel as [|fuel]; [lia|].
  rewrite _sample_while_eq.
  destruct (Inv_previous k i cons w i fuel nd0 HI E Ha) as [Hp Ho]; [lia|].
  assert (Hi : i < List.length st0) by (apply nth_error_Some; congruence).
  assert (Hai : is_active st0 i = true) by (unfold is_active; now rewrite E).
  destruct (prev_of_spec st0 i Hi Hai) as (Hpl & Hpa & Hcases).
  destruct (Inv_idx k i cons w _ HI Hpa) as (pn & Epn & Hpidx).
  unfold mbind, get_node, node_at, the_idx. simpl.
  rewrite Hp. simpl. rewrite Epn. simpl. rewrite Hpidx. simpl. rewrite Ho. simpl.
  unfold idx_of.
  destruct Hcases as [(-> & Hlt & _)|(-> & Hle & _)].
  - destruct (Nat.ltb_spec (fst (prev_of st0 i)) i); [|lia].
    destruct (Z.ltb_spec (Z.of_nat (k + 1)) (Z.of_nat k + 1 + 0)); [lia|reflexivity].
  - destruct (Nat.ltb_spec (fst (prev_of st0 i)) i); [lia|].
    destruct (Z.ltb_spec (Z.of_nat (k + 0)) (Z.of_nat k + 1 + -1)); [lia|reflexivity].
Qed.

Lemma Inv_wrap_to (k c i : nat) (cons : nat -> nat) (w : world V RNG) :
  Inv st0 g0 k c cons w ->
  (forall q, c <= q < List.length st0 -> is_active st0 q = false) ->
  (forall q, q < i -> is_active st0 q = false) ->
  i <= List.length st0 ->
  Inv st0 g0 (S k) i cons w.
Proof.
  intros HI Habove Hbelow Hi.
  apply (Inv_skip_range (S k) 0 i); [|lia|assumption|intros q Hq; apply Hbelow; lia].
  apply Inv_round.
  apply (Inv_skip_range k c); auto.
  destruct HI as (_ & Hc & _). assumption.
Qed.


(** [_sample] on a sampler that draws: every sampler between the place
    the chain is at and place [i] draws once, in order of place, and
    then the sampler at [i]. *)
Lemma sample_active (d : nat) :
  forall k c cons w i nd0 fuel target,
    Inv st0 g0 k c cons w -> nth_error st0 i = Some nd0 -> active nd0 = true ->
    dist (List.length st0) c i <= d ->
    2 * d + List.length st0 + 4 <= fuel ->
    target = None \/ target = Some (Z.of_nat (idx_of k c i) + 1)%Z ->
    exists w', _sample fuel i target w = (Ok tt, w') /\
               Inv st0 g0 (if i <? c then S k else k) (S i) cons w'.
Proof.
  induction d as [d IH] using lt_wf_ind.
  intros k c cons w i nd0 fuel target HI E Ha Hd Hf Ht.
  destruct fuel as [|[|fuel]]; try lia.
  assert (Hi : i < List.length st0) by (apply nth_error_Some; congruence).
  assert (Hai : is_active st0 i = true) by (unfold is_active; now rewrite E).
  assert (Hc : c <= List.length st0) by (destruct HI as (_ & Hc & _); exact Hc).
  destruct (Inv_idx k c cons w i HI Hai) as (nd & En & Hidx).
  set (kk := if i <? c then S k else k).
  assert (HT : (Z.of_nat (idx_of k c i) + 1 = Z.of_nat kk + 1)%Z).
  { unfold idx_of, kk. destruct (i <? c); lia. }
  (* the loop *)
  assert (Hloop : exists w1,
             _sample_while (S fuel) i (Z.of_nat kk + 1)%Z w = (Ok tt, w1) /\
             Inv st0 g0 kk i cons w1).
  { rewrite _sample_while_eq.
    destruct (Inv_previous k c cons w i fuel nd0 HI E Ha) as [Hp Ho]; [lia|].
    destruct (prev_of_spec st0 i Hi Hai) as (Hpl & Hpa & Hcases).
    destruct (Inv_idx k c cons w _ HI Hpa) as (pn & Epn & Hpidx).
    set (p := fst (prev_of st0 i)) in *.
    destruct (nth_error st0 p) as [pn0|] eqn:Ep0;
      [|apply nth_error_None in Ep0; lia].
    assert (Hpa0 : active pn0 = true)
      by (unfold is_active in Hpa; now rewrite Ep0 in Hpa).
    unfold mbind at 1 2 3 4, get_node, node_at, the_idx. simpl.
    rewrite Hp. simpl. rewrite Epn. simpl. rewrite Hpidx. simpl. rewrite Ho. simpl.
    (* what the recursive call gives, where there is one *)
    assert (Hrec :
               dist (List.length st0) c p < d ->
               (Z.of_nat kk + 1 + snd (prev_of st0 i))%Z = (Z.of_nat (idx_of k c p) + 1)%Z ->
               (forall w1, Inv st0 g0 (if p <? c then S k else k) (S p) cons w1 ->
                           Inv st0 g0 kk i cons w1) ->
               exists w1,
                 (let! p' <- (fun w => (previous fuel (store w) i, w));
                  let! off' <- (fun w => (previous_offset fuel (store w) i, w));
                  run! _sample fuel p' (Some (Z.of_nat kk + 1 + off')%Z);
                  _sample_while fuel i (Z.of_nat kk + 1)%Z) w = (Ok tt, w1) /\
                 Inv st0 g0 kk i cons w1).
    { intros Hdp Htp Hconv.
      destruct (IH (dist (List.length st0) c p) Hdp k c cons w p pn0 fuel
                   (Some (Z.of_nat kk + 1 + snd (prev_of st0 i))%Z))
        as (w1 & Hs & HI1); auto; try lia.
      { right. now rewrite Htp. }
      exists w1. split; [|now apply Hconv].
      unfold mbind. simpl. rewrite Hp, Ho. fold p. rewrite Hs.
      apply (while_done kk i cons w1 fuel nd0); auto; try lia. }
    unfold idx_of in *.
    destruct Hcases as [(Hoff & Hlt & Hbetween)|(Hoff & Hle & Hbelow & Habove)];
      rewrite Hoff in *; unfold kk, dist in *.
    - (* the previous sampler is below [i] *)
      destruct (Nat.ltb_spec i c) as [Hic|Hic].
      + destruct (Nat.ltb_spec p c) as [Hpc|Hpc]; [|lia].
        destruct (Z.ltb_spec (Z.of_nat (k + 1)) (Z.of_nat (S k) + 1 + 0)); [|lia].
        apply Hrec; [lia|lia|].
          intros w1 H1. apply (Inv_skip_range (S k) (S p) i); auto; try lia;
            intros q Hq; apply Hbetween; lia.
      + destruct (Nat.ltb_spec p c) as [Hpc|Hpc].
        * destruct (Z.ltb_spec (Z.of_nat (k + 1)) (Z.of_nat k + 1 + 0)); [lia|].
          exists w. split; [reflexivity|].
          apply (Inv_skip_range k c i); auto; try lia;
            intros q Hq; apply Hbetween; lia.
        * destruct (Z.ltb_spec (Z.of_nat (k + 0)) (Z.of_nat k + 1 + 0)); [|lia].
          apply Hrec; [lia|lia|].
          intros w1 H1. apply (Inv_skip_range k (S p) i); auto; try lia;
            intros q Hq; apply Hbetween; lia.
    - (* the previous sampler is the last of the ring *)
      destruct (Nat.ltb_spec i c) as [Hic|Hic].
      + destruct (Nat.ltb_spec p c) as [Hpc|Hpc].
        * destruct (Z.ltb_spec (Z.of_nat (k + 1)) (Z.of_nat (S k) + 1 + -1)); [lia|].
          exists w. split; [reflexivity|].
          apply (Inv_wrap_to k c i); auto; try lia;
            intros q Hq; apply Habove; lia.
        * destruct (Z.ltb_spec (Z.of_nat (k + 0)) (Z.of_nat (S k) + 1 + -1)); [|lia].
          apply Hrec; [lia|lia|].
          intros w1 H1. apply (Inv_wrap_to k (S p) i); auto; try lia;
            intros q Hq; apply Habove; lia.
      + destruct (Nat.ltb_spec p c) as [Hpc|Hpc]; [lia|].
        destruct (Z.ltb_spec (Z.of_nat (k + 0)) (Z.of_nat k + 1 + -1)); [lia|].
        exists w. split; [reflexivity|].
        apply (Inv_skip_range k c i); auto; try lia;
          intros q Hq; apply Hbelow; lia. }
  destruct Hloop as (w1 & Hw & HI1).
  destruct (sample_tail kk i cons w1 nd0 HI1 E Ha) as (w' & Htail & HI').
  exists w'. split; [|exact HI'].
  rewrite _sample_eq.
  unfold mbind at 1, get_node, node_at. rewrite En. simpl. rewrite Hidx.
  assert (Hti : match target with
                | Some i0 => i0
                | None => (Z.of_nat (idx_of k c i) + 1)%Z
                end = (Z.of_nat kk + 1)%Z).
  { destruct Ht as [->| ->]; assumption. }
  rewrite Hti.
  destruct (Z.gtb_spec (Z.of_nat kk + 1) (Z.of_nat (idx_of k c i))); [|lia].
  unfold mbind at 1. rewrite Hw. exact Htail.
Qed.

Lemma node_ok_cons (k c : nat) (cons cons' : nat -> nat) (p : nat)
      (nd0 nd : ParameterSampler V RNG) :
  cons' p = cons p ->
  node_ok st0 g0 k c cons p nd0 nd -> node_ok st0 g0 k c cons' p nd0 nd.
Proof.
  intros H (H1 & H2 & H3 & H4 & H5). unfold node_ok.
  repeat (split; [assumption|]). rewrite H. assumption.
Qed.

(** Taking the oldest value out of a cache that has one. *)
Lemma pop_step (k c : nat) (cons : nat -> nat) (w : world V RNG) (i : nat)
      (nd0 nd : ParameterSampler V RNG) (v : V) (rest : list V) :
  Inv st0 g0 k c cons w -> nth_error st0 i = Some nd0 ->
  nth_error (store w) i = Some nd -> _cache nd = v :: rest ->
  exists w',
    (let! nd' <- get_node i;
     match _cache nd' with
     | x :: xs => run! modify_node i (set_cache xs); mret x
     | [] => raise (IndexError "pop from an empty deque")
     end) w = (Ok v, w') /\
    Ok v = canon st0 g0 i (cons i) /\
    Inv st0 g0 k c (upd cons i (S (cons i))) w'.
Proof.
  intros HI E En Hcache.
  destruct (Inv_node _ _ _ _ _ _ HI E) as (nd' & En' & Hok).
  assert (nd' = nd) by congruence. subst nd'.
  pose proof Hok as (Hname & Hgs & Hprev & Hoff & Hact).
  eexists. split; [|split].
  - unfold mbind, get_node, node_at, modify_node. rewrite En. simpl.
    rewrite Hcache. simpl. rewrite En. reflexivity.
  - destruct (active nd0) eqn:Ha.
    + destruct Hact as (_ & Hle & Hmap). rewrite Hcache in Hmap.
      destruct (idx_of k c i - cons i) as [|m] eqn:Em; [discriminate|].
      simpl in Hmap. now inversion Hmap.
    + destruct Hact as (_ & Hall). rewrite Hcache in Hall.
      inversion Hall; subst. rewrite (canon_const i (cons i) nd0 E Ha). assumption.
  - assert (Hc : c <= List.length st0) by (destruct HI as (_ & Hc & _); exact Hc).
    apply (Inv_update k c k c cons (upd cons i (S (cons i))) w i nd0); auto.
    + unfold node_ok. simpl. repeat (split; [assumption|]).
      unfold upd. rewrite Nat.eqb_refl.
      destruct (active nd0) eqn:Ha.
      * destruct Hact as (Hidx & Hle & Hmap). rewrite Hcache in Hmap.
        destruct (idx_of k c i - cons i) as [|m] eqn:Em; [discriminate|].
        simpl in Hmap. inversion Hmap.
        split; [assumption|]. split; [lia|].
        replace (idx_of k c i - S (cons i)) with m by lia. assumption.
      * destruct Hact as (Hidx & Hall). split; [assumption|].
        rewrite Hcache in Hall. now inversion Hall.
    + intros p m0 m Hne Ep. apply node_ok_cons. unfold upd.
      destruct (Nat.eqb_spec p i); [contradiction|reflexivity].
    + destruct HI as (_ & _ & Hg & _). exact Hg.
Qed.

Lemma dist_le (c i : nat) :
  i < List.length st0 -> dist (List.length st0) c i <= List.length st0.
Proof. intros H. unfold dist. destruct (Nat.ltb_spec i c); lia. Qed.

(** [__call__] hands out the values of a sampler in the order of its
    rounds: the call that follows [cons i] earlier ones returns the value
    of round [cons i]. *)
Lemma call_spec (k c : nat) (cons : nat -> nat) (w : world V RNG) (i fuel : nat)
      (nd0 : ParameterSampler V RNG) :
  Inv st0 g0 k c cons w -> nth_error st0 i = Some nd0 ->
  enough (List.length st0) <= fuel ->
  exists v w' k' c',
    ParameterSampler_call fuel i w = (Ok v, w') /\
    Ok v = canon st0 g0 i (cons i) /\
    Inv st0 g0 k' c' (upd cons i (S (cons i))) w'.
Proof.
  intros HI E Hf. unfold enough in Hf.
  assert (Hi : i < List.length st0) by (apply nth_error_Some; congruence).
  destruct (Inv_node _ _ _ _ _ _ HI E) as (nd & En & Hok).
  pose proof Hok as (Hname & Hgs & Hprev & Hoff & Hact).
  unfold ParameterSampler_call.
  unfold mbind at 1, get_node at 1, node_at. rewrite En.
  destruct (_cache nd) as [|v rest] eqn:Hcache.
  - (* the cache is empty *)
    cbn [List.length Nat.eqb].
    assert (Hs : exists w1 k1 c1 nd1 v,
               _sample fuel i None w = (Ok tt, w1) /\
               Inv st0 g0 k1 c1 cons w1 /\
               nth_error (store w1) i = Some nd1 /\ _cache nd1 = [v]).
    { destruct (active nd0) eqn:Ha.
      - destruct (sample_active (List.length st0) k c cons w i nd0 fuel None)
          as (w1 & Hs & HI1); auto; try lia.
        { apply dist_le; assumption. }
        destruct (Inv_node _ _ _ _ _ _ HI1 E) as (nd1 & En1 & Hok1).
        destruct Hok1 as (_ & _ & _ & _ & Hact1). rewrite Ha in Hact1.
        destruct Hact as (Hidx & Hle & Hmap).
        destruct Hact1 as (Hidx1 & Hle1 & Hmap1).
        rewrite ?Hcache in Hmap. simpl in Hmap.
        assert (Hz : idx_of k c i - cons i = 0).
        { destruct (idx_of k c i - cons i); [reflexivity|discriminate]. }
        assert (H1 : idx_of (if i <? c then S k else k) (S i) i - cons i = 1).
        { revert Hz Hle. unfold idx_of.
          destruct (Nat.ltb_spec i c), (Nat.ltb_spec i (S i)); lia. }
        rewrite H1 in Hmap1. simpl in Hmap1.
        destruct (_cache nd1) as [|v [|v' r]] eqn:Hc1; try discriminate.
        exists w1, (if i <? c then S k else k), (S i), nd1, v. auto.
      - destruct fuel as [|fuel]; [lia|].
        rewrite _sample_eq.
        destruct Hact as (Hidx & Hall).
        pose proof (Hdraws _ _ E) as Hd. rewrite Ha in Hd. destruct Hd as [cv Hcv].
        assert (Hil : i < List.length (store w)) by (apply nth_error_Some; congruence).
        eexists. exists k, c.
        exists (set_cache (_cache nd ++ [cv]) nd), cv.
        split; [|split; [|split]].
        + unfold mbind, get_node, node_at, draw_append. rewrite En. simpl.
          rewrite Hidx. unfold mbind, get_node, node_at. rewrite En. simpl.
          rewrite Hgs, Hcv. unfold modify_node. simpl. rewrite En. reflexivity.
        + assert (Hc : c <= List.length st0) by (destruct HI as (_ & Hc & _); exact Hc).
          apply (Inv_update k c k c cons cons w i nd0); auto.
          * unfold node_ok. simpl. repeat (split; [assumption|]).
            rewrite Ha. split; [assumption|].
            rewrite ?Hcache. simpl. constructor; [|constructor].
            unfold canon. rewrite E, Hcv. reflexivity.
          * destruct HI as (_ & _ & Hg & _). exact Hg.
        + simpl. apply nth_error_set_nth_eq. assumption.
        + simpl. now rewrite ?Hcache. }
    destruct Hs as (w1 & k1 & c1 & nd1 & v & Hs & HI1 & En1 & Hc1).
    destruct (pop_step k1 c1 cons w1 i nd0 nd1 v [] HI1 E En1 Hc1)
      as (w' & Hpop & Hv & HI').
    exists v, w', k1, c1. split; [|split; assumption].
    unfold mbind at 1. rewrite Hs. exact Hpop.
  - (* a value is waiting *)
    cbn [List.length Nat.eqb].
    destruct (pop_step k c cons w i nd0 nd v rest HI E En Hcache)
      as (w' & Hpop & Hv & HI').
    exists v, w', k, c. split; [|split; assumption].
    unfold mbind at 1, mret at 1. exact Hpop.
Qed.

(** *** Filling and replaying a cache *)

Lemma cache_len_Inv (k c : nat) (cons : nat -> nat) (w : world V RNG) (i : nat)
      (nd0 : ParameterSampler V RNG) :
  Inv st0 g0 k c cons w -> nth_error st0 i = Some nd0 -> active nd0 = true ->
  cache_len w i = idx_of k c i - cons i.
Proof.
  intros HI E Ha.
  destruct (Inv_node _ _ _ _ _ _ HI E) as (nd & En & (_ & _ & _ & _ & Hact)).
  rewrite Ha in Hact. destruct Hact as (_ & _ & Hmap).
  unfold cache_len. rewrite En.
  rewrite <- (length_map Ok), Hmap, length_map, length_seq. reflexivity.
Qed.

(** One fill: the invariant is kept, no value is handed out, and the
    cache is one longer. *)
Lemma sample_any (k c : nat) (cons : nat -> nat) (w : world V RNG) (i fuel : nat)
      (nd0 : ParameterSampler V RNG) :
  Inv st0 g0 k c cons w -> nth_error st0 i = Some nd0 ->
  enough (List.length st0) <= fuel ->
  exists w' k' c',
    _sample fuel i None w = (Ok tt, w') /\
    Inv st0 g0 k' c' cons w' /\
    cache_len w' i = S (cache_len w i).
Proof.
  intros HI E Hf. unfold enough in Hf.
  assert (Hi : i < List.length st0) by (apply nth_error_Some; congruence).
  destruct (active nd0) eqn:Ha.
  - destruct (sample_active (List.length st0) k c cons w i nd0 fuel None)
      as (w1 & Hs & HI1); auto; try lia.
    { apply dist_le; assumption. }
    exists w1, (if i <? c then S k else k), (S i).
    split; [assumption|]. split; [assumption|].
    rewrite (cache_len_Inv _ _ _ _ _ _ HI1 E Ha), (cache_len_Inv _ _ _ _ _ _ HI E Ha).
    destruct (Inv_node _ _ _ _ _ _ HI E) as (nd & En & (_ & _ & _ & _ & Hact)).
    rewrite Ha in Hact. destruct Hact as (_ & Hle & _).
    revert Hle. unfold idx_of.
    destruct (Nat.ltb_spec i c), (Nat.ltb_spec i (S i)); lia.
  - destruct (Inv_node _ _ _ _ _ _ HI E) as (nd & En & Hok).
    pose proof Hok as (Hname & Hgs & Hprev & Hoff & Hact).
    rewrite Ha in Hact. destruct Hact as (Hidx & Hall).
    destruct fuel as [|fuel]; [lia|].
    rewrite _sample_eq.
    pose proof (Hdraws _ _ E) as Hd. rewrite Ha in Hd. destruct Hd as [cv Hcv].
    assert (Hil : i < List.length (store w)) by (apply nth_error_Some; congruence).
    eexists. exists k, c.
    split; [|split].
    + unfold mbind, get_node, node_at, draw_append. rewrite En. simpl.
      rewrite Hidx. unfold mbind, get_node, node_at. rewrite En. simpl.
      rewrite Hgs, Hcv. unfold modify_node. simpl. rewrite En. reflexivity.
    + assert (Hc : c <= List.length st0) by (destruct HI as (_ & Hc & _); exact Hc).
      apply (Inv_update k c k c cons cons w i nd0); auto.
      * unfold node_ok. simpl. repeat (split; [assumption|]).
        rewrite Ha. split; [assumption|].
        apply Forall_app. split; [assumption|]. constructor; [|constructor].
        unfold canon. rewrite E, Hcv. reflexivity.
      * destruct HI as (_ & _ & Hg & _). exact Hg.
    + unfold cache_len. simpl. rewrite En.
      rewrite nth_error_set_nth_eq by assumption. simpl.
      rewrite length_app. simpl. lia.
Qed.

Lemma fills_spec (fuel : nat) (Hf : enough (List.length st0) <= fuel) (i : nat)
      (nd0 : ParameterSampler V RNG) (E : nth_error st0 i = Some nd0) :
  forall m k c cons w,
    Inv st0 g0 k c cons w ->
    exists w' k' c',
      fills fuel i m w = (Ok tt, w') /\
      Inv st0 g0 k' c' cons w' /\
      cache_len w' i = cache_len w i + m.
Proof.
  induction m as [|m IH]; intros k c cons w HI.
  - exists w, k, c. split; [reflexivity|]. split; [assumption|lia].
  - destruct (sample_any k c cons w i fuel nd0 HI E Hf)
      as (w1 & k1 & c1 & Hs & HI1 & Hlen1).
    destruct (IH k1 c1 cons w1 HI1) as (w' & k' & c' & Hfl & HI' & Hlen').
    exists w', k', c'. split; [|split; [assumption|lia]].
    simpl. unfold mbind. rewrite Hs. exact Hfl.
Qed.

Lemma calls_spec (fuel : nat) (Hf : enough (List.length st0) <= fuel) (i : nat)
      (nd0 : ParameterSampler V RNG) (E : nth_error st0 i = Some nd0) :
  forall m k c cons w,
    Inv st0 g0 k c cons w ->
    exists vs w' k' c' cons',
      calls fuel i m w = (Ok vs, w') /\
      map Ok vs = map (canon st0 g0 i) (seq (cons i) m) /\
      Inv st0 g0 k' c' cons' w'.
Proof.
  induction m as [|m IH]; intros k c cons w HI.
  - exists [], w, k, c, cons. split; [reflexivity|]. split; [reflexivity|assumption].
  - destruct (call_spec k c cons w i fuel nd0 HI E Hf)
      as (v & w1 & k1 & c1 & Hc & Hv & HI1).
    destruct (IH k1 c1 _ w1 HI1) as (vs & w' & k' & c' & cons' & Hcs & Hvs & HI').
    exists (v :: vs), w', k', c', cons'. split; [|split; [|assumption]].
    + simpl. unfold mbind at 1. rewrite Hc. unfold mbind at 1. rewrite Hcs. reflexivity.
    + simpl. rewrite Hv, Hvs. unfold upd. rewrite Nat.eqb_refl. reflexivity.
Qed.

(** *** Requests on a chain *)

Variable vn : list string.
Hypothesis Hvn : List.length vn = List.length st0.

Lemma index_of_nth (x : string) (l : list string) (i : nat) :
  index_of x l = Some i -> nth_error l i = Some x.
Proof.
  revert i; induction l as [|y l IH]; intros i; simpl; [discriminate|].
  destruct (String.eqb_spec x y) as [->|Hne].
  - intros H; inversion H; reflexivity.
  - destruct (index_of x l) as [j|]; [|discriminate].
    intros H; inversion H; subst. simpl. now apply IH.
Qed.

Lemma index_of_mem (x : string) (l : list string) :
  Str.mem x l = true -> exists i, index_of x l = Some i.
Proof.
  unfold Str.mem. induction l as [|y l IH]; simpl; [discriminate|].
  destruct (String.eqb_spec x y) as [->|Hne]; simpl; [eauto|].
  intros H. destruct (IH H) as [i ->]. eauto.
Qed.

Lemma index_of_inj (x y : string) (i : nat) :
  index_of x vn = Some i -> index_of y vn = Some i -> x = y.
Proof.
  intros Hx Hy. apply index_of_nth in Hx. apply index_of_nth in Hy. congruence.
Qed.

Lemma index_of_node (x : string) (i : nat) :
  index_of x vn = Some i -> exists nd0, nth_error st0 i = Some nd0.
Proof.
  intros H. apply index_of_nth in H.
  assert (i < List.length st0) by (rewrite <- Hvn; apply nth_error_Some; congruence).
  destruct (nth_error st0 i) eqn:E; [eauto|]. apply nth_error_None in E. lia.
Qed.

Lemma call_sampler_spec (k c : nat) (cons : nat -> nat) (w : world V RNG)
      (x : string) (i fuel : nat) :
  Inv st0 g0 k c cons w -> index_of x vn = Some i ->
  enough (List.length st0) <= fuel ->
  exists v w' k' c',
    call_sampler fuel vn x w = (Ok v, w') /\
    Ok v = canon st0 g0 i (cons i) /\
    Inv st0 g0 k' c' (upd cons i (S (cons i))) w'.
Proof.
  intros HI Hx Hf. unfold call_sampler. rewrite Hx.
  destruct (index_of_node x i Hx) as [nd0 E].
  apply (call_spec k c cons w i fuel nd0); assumption.
Qed.

Lemma items_spec (fuel : nat) (Hf : enough (List.length st0) <= fuel) :
  forall names k c cons w,
    Inv st0 g0 k c cons w ->
    forallb (fun x => Str.mem x vn) names = true -> nodupb names = true ->
    exists items w' k' c' cons',
      mmap (fun name => let! v <- call_sampler fuel vn name; mret (name, v)) names w
      = (Ok items, w') /\
      Inv st0 g0 k' c' cons' w' /\
      map fst items = names /\
      forall x i, index_of x vn = Some i -> served st0 g0 names items cons cons' x i.
Proof.
  induction names as [|y names IH]; intros k c cons w HI Hall Hnd.
  - exists [], w, k, c, cons.
    split; [reflexivity|split; [assumption|split; [reflexivity|]]].
    intros x i _. unfold served. simpl. auto.
  - simpl in Hall, Hnd.
    apply andb_true_iff in Hall. destruct Hall as [Hy Hall].
    apply andb_true_iff in Hnd. destruct Hnd as [Hyn Hnd].
    apply negb_true_iff in Hyn.
    destruct (index_of_mem y vn Hy) as [j Hj].
    destruct (call_sampler_spec k c cons w y j fuel HI Hj Hf)
      as (v & w1 & k1 & c1 & Hcall & Hv & HI1).
    destruct (IH k1 c1 _ w1 HI1 Hall Hnd)
      as (items & w' & k' & c' & cons' & Hmm & HI' & Hfst & Hserved).
    exists ((y, v) :: items), w', k', c', cons'.
    split; [|split; [assumption|split]].
    + simpl. unfold mbind at 1 2. rewrite Hcall. unfold mret at 1.
      unfold mbind at 1. rewrite Hmm. reflexivity.
    + simpl. now rewrite Hfst.
    + intros x i Hx. specialize (Hserved x i Hx). unfold served in *.
      unfold Str.mem in *. simpl.
      destruct (String.eqb_spec x y) as [->|Hne].
      * simpl. assert (i = j) by congruence. subst j.
        rewrite Hyn in Hserved. destruct Hserved as [_ Hc].
        exists v. repeat split; auto.
        rewrite Hc. unfold upd. now rewrite Nat.eqb_refl.
      * simpl.
        assert (Hij : i <> j) by (intros ->; apply Hne; eapply index_of_inj; eauto).
        unfold upd in Hserved.
        destruct (Nat.eqb_spec i j); [contradiction|]. exact Hserved.
Qed.

Lemma forallb_mem_self (l : list string) :
  forallb (fun x => Str.mem x l) l = true.
Proof.
  apply forallb_forall. intros x Hx. unfold Str.mem.
  apply existsb_exists. exists x. split; [assumption|apply String.eqb_refl].
Qed.

Lemma dict_set_fresh {A : Type} (k : string) (v : A) (d : list (string * A)) :
  Str.mem k (map fst d) = false -> dict_set k v d = d ++ [(k, v)].
Proof.
  unfold Str.mem. induction d as [|[k' v'] d IH]; simpl; [reflexivity|].
  intros H. apply orb_false_iff in H. destruct H as [H1 H2].
  rewrite H1. f_equal. now apply IH.
Qed.

Lemma mem_app (x : string) (a b : list string) :
  Str.mem x (a ++ b) = Str.mem x a || Str.mem x b.
Proof. unfold Str.mem. apply existsb_app. Qed.

Lemma dict_update_nodup {A : Type} (items d : list (string * A)) :
  nodupb (map fst items) = true ->
  (forall x, Str.mem x (map fst items) = true -> Str.mem x (map fst d) = false) ->
  dict_update d items = d ++ items.
Proof.
  unfold dict_update. revert d.
  induction items as [|[k v] items IH]; intros d Hnd Hdis; simpl.
  - now rewrite app_nil_r.
  - simpl in Hnd. apply andb_true_iff in Hnd. destruct Hnd as [Hk Hnd].
    apply negb_true_iff in Hk.
    rewrite dict_set_fresh.
    + rewrite IH; [now rewrite <- app_assoc|assumption|].
      intros x Hx. rewrite map_app, mem_app. simpl.
      rewrite Hdis.
      * simpl. unfold Str.mem. simpl. rewrite orb_false_r.
        destruct (String.eqb_spec x k) as [->|]; [congruence|reflexivity].
      * unfold Str.mem in *. simpl. rewrite Hx. apply orb_true_r.
    + apply Hdis. unfold Str.mem. simpl. now rewrite String.eqb_refl.
Qed.

Lemma dict_of_nodup {A : Type} (items : list (string * A)) :
  nodupb (map fst items) = true -> dict_of items = items.
Proof.
  intros H. unfold dict_of. rewrite dict_update_nodup; auto.
Qed.

Lemma served_seen (names : list string) (items : list (string * V))
      (cons cons' : nat -> nat) (x : string) (i : nat) :
  served st0 g0 names items cons cons' x i ->
  cons i <= cons' i /\
  map Ok (match dict_get x items with Some v => [v] | None => [] end)
  = map (canon st0 g0 i) (seq (cons i) (cons' i - cons i)).
Proof.
  unfold served. destruct (Str.mem x names).
  - intros (v & -> & Hv & ->). split; [lia|].
    replace (S (cons i) - cons i) with 1 by lia. simpl. now rewrite Hv.
  - intros (-> & ->). split; [lia|]. now rewrite Nat.sub_diag.
Qed.

(** One call of [sample]: the generator outside is left as it was, and
    a named variable gets its next value. *)
Lemma sample_spec (fuel : nat) (Hf : enough (List.length st0) <= fuel) :
  forall r k c cons self h,
    varnames self = vn ->
    Inv st0 g0 k c cons (mkWorld (rng_state self) (_samplers self)) ->
    request_ok vn r = true ->
    exists resp self' k' c' cons',
      sample fuel r (h, self) = (Ok resp, (h, self')) /\
      varnames self' = vn /\
      Inv st0 g0 k' c' cons' (mkWorld (rng_state self') (_samplers self')) /\
      forall x i, index_of x vn = Some i ->
        cons i <= cons' i /\
        map Ok (seen x (r, resp))
        = map (canon st0 g0 i) (seq (cons i) (cons' i - cons i)).
Proof.
  intros r k c cons self h Hnames HI Hr.
  assert (Hitems : forall names,
             forallb (fun x => Str.mem x vn) names = true -> nodupb names = true ->
             exists items w' k' c' cons',
               (let! items <- mmap (fun name => let! v <- call_sampler fuel vn name;
                                               mret (name, v)) names;
                mret (Values (dict_of items)))
                 (mkWorld (rng_state self) (_samplers self))
               = (Ok (Values items), w') /\
               Inv st0 g0 k' c' cons' w' /\
               forall x i, index_of x vn = Some i ->
                           served st0 g0 names items cons cons' x i).
  { intros names Hall Hnd.
    destruct (items_spec fuel Hf names k c cons _ HI Hall Hnd)
      as (items & w' & k' & c' & cons' & Hmm & HI' & Hfst & Hserved).
    exists items, w', k', c', cons'. split; [|split; assumption].
    unfold mbind at 1. rewrite Hmm. unfold mret.
    rewrite dict_of_nodup; [reflexivity|now rewrite Hfst]. }
  destruct r as [|name|names]; simpl in Hr.
  - destruct (Hitems vn (forallb_mem_self vn) Hr)
      as (items & w' & k' & c' & cons' & Hbody & HI' & Hserved).
    exists (Values items),
      (mkParameterSetSampler (varnames self) (store w') (np_random w')), k', c', cons'.
    split; [|split; [assumption|split]].
    + unfold sample, sample_body. rewrite Hnames, Hbody. reflexivity.
    + destruct w'. exact HI'.
    + intros x i Hx. simpl. apply (served_seen vn). now apply Hserved.
  - destruct (index_of_mem name vn Hr) as [j Hj].
    destruct (call_sampler_spec k c cons _ name j fuel HI Hj Hf)
      as (v & w' & k' & c' & Hcall & Hv & HI').
    exists (Value v),
      (mkParameterSetSampler (varnames self) (store w') (np_random w')), k', c',
      (upd cons j (S (cons j))).
    split; [|split; [assumption|split]].
    + unfold sample, sample_body. rewrite Hnames. unfold mbind. rewrite Hcall.
      reflexivity.
    + destruct w'. exact HI'.
    + intros x i Hx. simpl. unfold upd.
      destruct (String.eqb_spec name x) as [->|Hne].
      * assert (i = j) by congruence. subst j. rewrite Nat.eqb_refl.
        split; [lia|]. replace (S (cons i) - cons i) with 1 by lia.
        simpl. now rewrite Hv.
      * assert (Hij : i <> j)
          by (intros ->; apply Hne; eapply index_of_inj; eauto).
        destruct (Nat.eqb_spec i j); [contradiction|].
        split; [lia|]. now rewrite Nat.sub_diag.
  - apply andb_true_iff in Hr. destruct Hr as [Hall Hnd].
    destruct (Hitems names Hall Hnd)
      as (items & w' & k' & c' & cons' & Hbody & HI' & Hserved).
    exists (Values items),
      (mkParameterSetSampler (varnames self) (store w') (np_random w')), k', c', cons'.
    split; [|split; [assumption|split]].
    + unfold sample, sample_body. rewrite Hnames, Hbody. reflexivity.
    + destruct w'. exact HI'.
    + intros x i Hx. simpl. apply (served_seen names). now apply Hserved.
Qed.

(** A sequence of calls: every variable sees its values in the order of
    its rounds, whatever else was asked for in between. *)
Lemma run_spec (fuel : nat) (Hf : enough (List.length st0) <= fuel) :
  forall reqs k c cons self h,
    varnames self = vn ->
    Inv st0 g0 k c cons (mkWorld (rng_state self) (_samplers self)) ->
    forallb (request_ok vn) reqs = true ->
    exists resps self' k' c' cons',
      run fuel reqs (h, self) = (Ok resps, (h, self')) /\
      varnames self' = vn /\
      Inv st0 g0 k' c' cons' (mkWorld (rng_state self') (_samplers self')) /\
      forall x i, index_of x vn = Some i ->
        cons i <= cons' i /\
        map Ok (values_of x reqs resps)
        = map (canon st0 g0 i) (seq (cons i) (cons' i - cons i)).
Proof.
  induction reqs as [|r reqs IH]; intros k c cons self h Hnames HI Hok.
  - exists [], self, k, c, cons. split; [reflexivity|].
    split; [assumption|]. split; [assumption|].
    intros x i _. split; [lia|]. now rewrite Nat.sub_diag.
  - simpl in Hok. apply andb_true_iff in Hok. destruct Hok as [Hr Hok].
    destruct (sample_spec fuel Hf r k c cons self h Hnames HI Hr)
      as (resp & self1 & k1 & c1 & cons1 & Hs & Hn1 & HI1 & Hseen).
    destruct (IH k1 c1 cons1 self1 h Hn1 HI1 Hok)
      as (resps & self' & k' & c' & cons' & Hrun & Hn' & HI' & Hvals).
    exists (resp :: resps), self', k', c', cons'.
    split; [|split; [assumption|split; [assumption|]]].
    + unfold run in *. simpl. unfold mbind at 1. rewrite Hs.
      unfold mbind at 1. rewrite Hrun. reflexivity.
    + intros x i Hx.
      destruct (Hseen x i Hx) as [Hle1 Hm1].
      destruct (Hvals x i Hx) as [Hle2 Hm2].
      split; [lia|].
      unfold values_of in *. cbn [combine flat_map].
      rewrite map_app, Hm1, Hm2, <- map_app.
      f_equal.
      replace (cons' i - cons i) with ((cons1 i - cons i) + (cons' i - cons1 i)) by lia.
      rewrite seq_app. f_equal. f_equal. lia.
Qed.

End Ring.

(** ** What the constructor builds *)

Section Construct.

Local Open Scope nat_scope.
Local Open Scope list_scope.

Context {V RNG : Type} {ext : Externals V RNG}.

Lemma omap_spec {A B : Type} (f : A -> outcome B) (l : list A) (l' : list B) :
  omap f l = Ok l' ->
  List.length l' = List.length l /\
  forall i y, nth_error l' i = Some y ->
              exists x, nth_error l i = Some x /\ f x = Ok y.
Proof.
  revert l'; induction l as [|a l IH]; intros l'; simpl.
  - intros H; inversion H; subst. split; [reflexivity|].
    intros [|i] y; discriminate.
  - destruct (f a) as [b| |] eqn:Ea; simpl; try discriminate.
    destruct (omap f l) as [bs| |]; simpl; try discriminate.
    intros H; inversion H; subst. destruct (IH bs eq_refl) as [Hlen Hnth].
    split; [simpl; now rewrite Hlen|].
    intros [|i] y; simpl.
    + intros Hy; inversion Hy; subst. eauto.
    + apply Hnth.
Qed.

Lemma ParameterSampler_init_fresh (name : string) (desc : pv V)
      (popnames : option (pv V)) (nd : ParameterSampler V RNG) :
  ParameterSampler_init name desc popnames = Ok nd -> fresh nd.
Proof.
  unfold ParameterSampler_init, fresh.
  destruct desc;
    try (intros H; inversion H; subst; simpl;
         repeat (split; [reflexivity|]); right; split; [reflexivity|];
         eexists; intros g; reflexivity).
  destruct (negb (ps_contains m "dist")).
  - destruct (ps_getattr m "dist"); simpl; discriminate.
  - destruct (desc_shape m); simpl; try discriminate.
    destruct (shape_loop name popnames a [[]] []); simpl; try discriminate.
    destruct (pop_get_sample _ _ _ _); simpl; try discriminate.
    match goal with
    | |- obind ?o _ = _ -> _ => destruct o; simpl; try discriminate
    end.
    intros H; inversion H; subst; simpl. auto.
Qed.

Lemma set_previous_ok (self prev : nat) (off : Z) (st : list (ParameterSampler V RNG))
      (nd : ParameterSampler V RNG) :
  (off <= 0)%Z -> nth_error st self = Some nd ->
  set_previous self prev off st = (Ok tt, set_nth self (set_link prev off nd) st).
Proof.
  intros Hoff E. unfold set_previous.
  destruct (Z.gtb_spec off 0); [lia|]. now rewrite E.
Qed.

Lemma mfor_link (l : list nat) :
  forall st : list (ParameterSampler V RNG),
    (forall i, In i l -> i < List.length st) ->
    exists st',
      mfor (fun i => set_previous i (i - 1) 0) l st = (Ok tt, st') /\
      List.length st' = List.length st /\
      forall p nd, nth_error st p = Some nd ->
        exists nd', nth_error st' p = Some nd' /\ same_core nd' nd /\
          (In p l -> _previous nd' = Some (p - 1) /\ _previous_offset nd' = Some 0%Z) /\
          (~ In p l -> _previous nd' = _previous nd /\
                       _previous_offset nd' = _previous_offset nd).
Proof.
  induction l as [|i l IH]; intros st Hl.
  - exists st. split; [reflexivity|]. split; [reflexivity|].
    intros p nd E. exists nd. unfold same_core. repeat split; auto; contradiction.
  - assert (Hi : i < List.length st) by (apply Hl; now left).
    destruct (nth_error st i) as [ndi|] eqn:Ei;
      [|apply nth_error_None in Ei; lia].
    destruct (IH (set_nth i (set_link (i - 1) 0 ndi) st)) as (st' & Hm & Hlen & Hn).
    { intros j Hj. rewrite set_nth_length. apply Hl. now right. }
    exists st'. split; [|split].
    + simpl. unfold mbind. rewrite (set_previous_ok i (i - 1) 0 st ndi); auto; lia.
    + now rewrite Hlen, set_nth_length.
    + intros p nd E. destruct (Nat.eq_dec p i) as [->|Hne].
      * assert (nd = ndi) by congruence. subst ndi.
        destruct (Hn i (set_link (i - 1) 0 nd)) as (nd' & E' & Hcore & Hin & Hnin).
        { now apply nth_error_set_nth_eq. }
        exists nd'. split; [assumption|]. split; [exact Hcore|].
        split; [|intros H; exfalso; apply H; now left].
        intros _. destruct (in_dec Nat.eq_dec i l) as [Hil|Hil]; [now apply Hin|].
        destruct (Hnin Hil) as [-> ->]. simpl. auto.
      * destruct (Hn p nd) as (nd' & E' & Hcore & Hin & Hnin).
        { rewrite nth_error_set_nth_neq; auto. }
        exists nd'. split; [assumption|]. split; [assumption|]. split.
        -- intros [H|H]; [congruence|now apply Hin].
        -- intros H. apply Hnin. intros H'. apply H. now right.
Qed.

(** The links [__init__] sets: the first sampler after the last with
    offset -1, every other after the one before it with offset 0. *)
Lemma link_samplers_spec (st : list (ParameterSampler V RNG)) :
  0 < List.length st ->
  exists st',
    link_samplers (List.length st) st = (Ok tt, st') /\
    List.length st' = List.length st /\ linked st' /\
    forall p nd, nth_error st p = Some nd ->
      exists nd', nth_error st' p = Some nd' /\ same_core nd' nd.
Proof.
  intros Hpos. unfold link_samplers.
  destruct (List.length st) as [|last] eqn:Elen; [lia|].
  destruct (nth_error st 0) as [nd0|] eqn:E0;
    [|apply nth_error_None in E0; lia].
  destruct (mfor_link (seq 1 last) (set_nth 0 (set_link last (-1) nd0) st))
    as (st' & Hm & Hlen & Hn).
  { intros i Hi. apply in_seq in Hi. rewrite set_nth_length. lia. }
  exists st'. rewrite set_nth_length in Hlen.
  split; [|split; [congruence|split]].
  - unfold mbind. rewrite (set_previous_ok 0 last (-1) st nd0); auto; lia.
  - intros p nd' E'.
    assert (Hp : p < List.length st)
      by (rewrite <- Hlen; apply nth_error_Some; congruence).
    rewrite Hlen, Elen.
    destruct (nth_error (set_nth 0 (set_link last (-1) nd0) st) p) as [nd1|] eqn:E1;
      [|apply nth_error_None in E1; rewrite set_nth_length in E1; lia].
    destruct (Hn p nd1 E1) as (nd'' & E'' & Hcore & Hin & Hnin).
    assert (nd'' = nd') by congruence. subst nd''.
    destruct (Nat.eqb_spec p 0) as [->|Hp0].
    + rewrite nth_error_set_nth_eq in E1 by lia. inversion E1; subst nd1.
      destruct Hnin as [-> ->].
      { intros H. apply in_seq in H. lia. }
      simpl. rewrite Nat.sub_0_r. auto.
    + apply Hin. apply in_seq. lia.
  - intros p nd E.
    destruct (Nat.eq_dec p 0) as [->|Hp0].
    + assert (nd = nd0) by congruence. subst nd0.
      destruct (Hn 0 (set_link last (-1) nd)) as (nd' & E' & Hcore & _).
      { apply nth_error_set_nth_eq. lia. }
      exists nd'. split; [assumption|exact Hcore].
    + destruct (Hn p nd) as (nd' & E' & Hcore & _).
      { rewrite nth_error_set_nth_neq; auto. }
      exists nd'. split; assumption.
Qed.

(** What a successful construction has done. *)
Lemma init_inv (dists : ParameterSet V) (seed : option (pv V)) (g g' : RNG)
      (A : ParameterSetSampler V RNG) :
  ParameterSetSampler_init dists seed g = (Ok A, g') ->
  g' = g /\
  exists popnames samplers,
    popnames_of dists = Ok popnames /\
    make_samplers dists popnames (varnames_of dists) = Ok samplers /\
    link_all (List.length (varnames_of dists)) samplers = Ok (_samplers A) /\
    varnames A = varnames_of dists /\
    match effective_seed dists seed with
    | Some s => np_random_seed s = Ok (rng_state A)
    | None => rng_state A = g
    end.
Proof.
  unfold ParameterSetSampler_init, mbind, get_state, set_state, lift, mret.
  destruct (popnames_of dists) as [popnames| |]; try discriminate.
  destruct (effective_seed dists seed) as [s|].
  - destruct (np_random_seed s) as [gs| |]; try discriminate.
    destruct (make_samplers dists popnames (varnames_of dists)) as [samplers| |] eqn:Ems;
      try discriminate.
    destruct (link_all _ samplers) as [st| |] eqn:Ela; try discriminate.
    intros H; inversion H; subst; simpl. split; [reflexivity|].
    exists popnames, samplers. auto.
  - destruct (make_samplers dists popnames (varnames_of dists)) as [samplers| |] eqn:Ems;
      try discriminate.
    destruct (link_all _ samplers) as [st| |] eqn:Ela; try discriminate.
    intros H; inversion H; subst; simpl. split; [reflexivity|].
    exists popnames, samplers. auto.
Qed.


Lemma link_all_spec (n : nat) (samplers st : list (ParameterSampler V RNG)) :
  n = List.length samplers -> link_all n samplers = Ok st ->
  List.length st = n /\ linked st /\
  forall p nd, nth_error samplers p = Some nd ->
    exists nd', nth_error st p = Some nd' /\ same_core nd' nd.
Proof.
  intros -> H. unfold link_all in H.
  destruct (List.length samplers) as [|m] eqn:El.
  - simpl in H. discriminate.
  - destruct (link_samplers_spec samplers) as (st' & Hl & Hlen & Hlk & Hn); [lia|].
    rewrite El in Hl. rewrite Hl in H. inversion H; subst st'.
    split; [congruence|]. split; assumption.
Qed.

(** A chain just built satisfies the invariant at the start of round 0. *)
Lemma init_Inv (dists : ParameterSet V) (seed : option (pv V)) (g g' : RNG)
      (A : ParameterSetSampler V RNG) :
  ParameterSetSampler_init dists seed g = (Ok A, g') ->
  (forall nd, In nd (_samplers A) -> active nd = true -> total_draw (_get_sample nd)) ->
  linked (_samplers A) /\ draws_ok (_samplers A) /\
  List.length (varnames A) = List.length (_samplers A) /\
  Inv (_samplers A) (rng_state A) 0 0 (fun _ => 0)
      (mkWorld (rng_state A) (_samplers A)).
Proof.
  intros HA Htot.
  destruct (init_inv _ _ _ _ _ HA) as (_ & pn & ss & Hpn & Hss & Hl & Hv & _).
  destruct (omap_spec _ _ _ Hss) as [Hlen Hnth].
  destruct (link_all_spec _ _ _ (eq_sym Hlen) Hl) as (Hlen' & Hlinked & Hcore).
  assert (Hfresh : forall p nd, nth_error (_samplers A) p = Some nd ->
                     _cache nd = [] /\
                     (sampled_idx nd = Some 0%Z \/
                      (sampled_idx nd = None /\
                       exists c, forall g, _get_sample nd g = (Ok c, g)))).
  { intros p nd E.
    assert (Hp : p < List.length ss).
    { rewrite Hlen, <- Hlen'. apply nth_error_Some. congruence. }
    destruct (nth_error ss p) as [nd1|] eqn:E1;
      [|apply nth_error_None in E1; lia].
    destruct (Hcore p nd1 E1) as (nd' & E' & (_ & Hi & Hg & Hc)).
    assert (nd' = nd) by congruence. subst nd'.
    destruct (Hnth p nd1 E1) as (x & _ & Hx).
    destruct (ps_getitem dists x) as [desc| |]; simpl in Hx; try discriminate.
    destruct (ParameterSampler_init_fresh _ _ _ _ Hx) as (Hc1 & _ & _ & Hidx).
    rewrite Hc, Hi, Hg. auto. }
  split; [assumption|]. split; [|split].
  - intros p nd E. destruct (active nd) eqn:Ha.
    + apply Htot; [eapply nth_error_In; eassumption|assumption].
    + destruct (Hfresh p nd E) as (_ & [Hi|[_ Hc]]); [|assumption].
      unfold active in Ha. rewrite Hi in Ha. discriminate.
  - now rewrite Hv, Hlen'.
  - split; [reflexivity|]. split; [lia|]. split; [reflexivity|].
    intros p nd E. exists nd. split; [assumption|].
    unfold node_ok. repeat (split; [reflexivity|]).
    destruct (Hfresh p nd E) as (Hc & [Hi|[Hi _]]); unfold active; rewrite Hi, Hc.
    + unfold idx_of. simpl. auto.
    + auto.
Qed.

End Construct.

(** ** Transform descriptions: the arrow and the description read back *)

Section Arrow.

Local Open Scope nat_scope.
Local Open Scope list_scope.
Local Open Scope string_scope.

Lemma append_nil_r (s : string) : s ++ "" = s.
Proof. induction s as [|c s IH]; simpl; [reflexivity|now rewrite IH]. Qed.

Lemma append_assoc (a b c : string) : (a ++ b) ++ c = a ++ b ++ c.
Proof. induction a as [|x a IH]; simpl; [reflexivity|now rewrite IH]. Qed.

Lemma prefix_app (p a s : string) :
  String.prefix p a = true -> String.prefix p (a ++ s) = true.
Proof.
  revert a; induction p as [|x p IH]; intros a H; [destruct (a ++ s); reflexivity|].
  destruct a as [|y a]; simpl in *; [discriminate|].
  destruct (ascii_dec x y); [now apply IH|discriminate].
Qed.

Lemma contains_sub_app_l (p a s : string) :
  contains_sub p a = true -> contains_sub p (a ++ s) = true.
Proof.
  induction a as [|y a IH]; intros H.
  - simpl in H. rewrite orb_false_r in H.
    destruct p; [destruct s; reflexivity|discriminate].
  - cbn [contains_sub] in H. apply orb_true_iff in H. destruct H as [H|H].
    + change ((String y a) ++ s) with (String y (a ++ s)).
      cbn [contains_sub]. change (String y (a ++ s)) with ((String y a) ++ s).
      now rewrite (prefix_app _ _ _ H).
    + change ((String y a) ++ s) with (String y (a ++ s)).
      cbn [contains_sub]. rewrite (IH H). apply orb_true_r.
Qed.

Lemma contains_sub_app_r (p a s : string) :
  contains_sub p s = true -> contains_sub p (a ++ s) = true.
Proof.
  intros H. induction a as [|y a IH]; [exact H|].
  change ((String y a) ++ s) with (String y (a ++ s)).
  cbn [contains_sub]. rewrite IH. apply orb_true_r.
Qed.

Lemma noarrow_cons (c : ascii) (a : string) :
  contains_sub "->" (String c a) = false ->
  String.prefix "->" (String c a) = false /\ contains_sub "->" a = false.
Proof.
  cbn [contains_sub]. intros H. apply orb_false_iff in H. exact H.
Qed.

Lemma prefix_nil (b : string) : String.prefix "" b = true.
Proof. destruct b; reflexivity. Qed.

Lemma prefix_cons (x y : ascii) (p s : string) :
  String.prefix (String x p) (String y s)
  = if ascii_dec x y then String.prefix p s else false.
Proof. reflexivity. Qed.

Lemma prefix_empty (x : ascii) (p : string) : String.prefix (String x p) "" = false.
Proof. reflexivity. Qed.

(** An arrow does not start inside a text without arrow that an arrow
    follows. *)
Lemma prefix_arrow_app (c : ascii) (a b : string) :
  String.prefix "->" (String c a) = false ->
  String.prefix "->" (String c (a ++ "->" ++ b)) = false.
Proof.
  rewrite !prefix_cons. destruct (ascii_dec "-" c); [|reflexivity].
  destruct a as [|d a].
  - intros _. cbn [append]. rewrite prefix_cons.
    destruct (ascii_dec ">" "-"); [discriminate|reflexivity].
  - change ((String d a) ++ "->" ++ b) with (String d (a ++ "->" ++ b)).
    rewrite !prefix_cons. destruct (ascii_dec ">" d); [|reflexivity].
    now rewrite !prefix_nil.
Qed.

Lemma split_go_pre (a : string) :
  forall acc b, contains_sub "->" a = false ->
    Str.split_go "->" (a ++ "->" ++ b) 0 acc
    = (acc ++ a) :: Str.split_go "->" b 0 "".
Proof.
  induction a as [|c a IH]; intros acc b Ha.
  - cbn [append]. cbn [Str.split_go]. rewrite !prefix_cons, prefix_nil.
    destruct (ascii_dec "-" "-") as [_|n]; [|now elim n].
    destruct (ascii_dec ">" ">") as [_|n]; [|now elim n].
    cbn [String.length Nat.pred]. now rewrite append_nil_r.
  - destruct (noarrow_cons _ _ Ha) as [Hp Hn].
    change ((String c a) ++ "->" ++ b) with (String c (a ++ "->" ++ b)).
    cbn [Str.split_go].
    rewrite (prefix_arrow_app _ _ _ Hp). rewrite (IH _ _ Hn). f_equal.
    rewrite append_assoc. reflexivity.
Qed.

Lemma split_go_last (b : string) :
  contains_sub "->" b = false ->
  forall acc, Str.split_go "->" b 0 acc = [acc ++ b].
Proof.
  induction b as [|c b IH]; intros Hb acc.
  - simpl. now rewrite append_nil_r.
  - destruct (noarrow_cons _ _ Hb) as [Hp Hn].
    cbn [Str.split_go]. rewrite Hp, (IH Hn). f_equal.
    rewrite append_assoc. reflexivity.
Qed.

(** A description with one arrow splits into what is before it and what
    is after it. *)
Lemma split_arrow (a b : string) :
  contains_sub "->" a = false -> contains_sub "->" b = false ->
  Str.split (a ++ "->" ++ b) "->" = [a; b].
Proof.
  intros Ha Hb. unfold Str.split. rewrite (split_go_pre a "" b Ha).
  now rewrite (split_go_last b Hb).
Qed.

Lemma length_append (a b : string) :
  String.length (a ++ b) = String.length a + String.length b.
Proof. induction a as [|c a IH]; simpl; [reflexivity|now rewrite IH]. Qed.

Lemma list_of_app (a b : string) :
  list_ascii_of_string (a ++ b) = (list_ascii_of_string a ++ list_ascii_of_string b)%list.
Proof. induction a as [|c a IH]; simpl; [reflexivity|now rewrite IH]. Qed.

Lemma string_of_app (l1 l2 : list ascii) :
  string_of_list_ascii (l1 ++ l2)%list = string_of_list_ascii l1 ++ string_of_list_ascii l2.
Proof. induction l1 as [|c l IH]; simpl; [reflexivity|now rewrite IH]. Qed.

Lemma str_rev_app (a b : string) : Str.rev (a ++ b) = Str.rev b ++ Str.rev a.
Proof. unfold Str.rev. now rewrite list_of_app, rev_app_distr, string_of_app. Qed.

Lemma str_rev_involutive (a : string) : Str.rev (Str.rev a) = a.
Proof.
  unfold Str.rev.
  now rewrite list_ascii_of_string_of_list_ascii, List.rev_involutive,
    string_of_list_ascii_of_string.
Qed.

Lemma str_rev_single (c : ascii) : Str.rev (String c "") = String c "".
Proof. reflexivity. Qed.

Lemma str_rev_cons (c : ascii) (a : string) : Str.rev (String c a) = Str.rev a ++ String c "".
Proof. change (String c a) with (String c "" ++ a). now rewrite str_rev_app, str_rev_single. Qed.

(** [lstrip], [rstrip] and [strip] *)

Lemma lstrip_suffix (s : string) : exists sp, s = sp ++ Str.lstrip s.
Proof.
  induction s as [|c s [sp IH]]; [now exists ""|]. simpl.
  destruct (Str.is_space c).
  - exists (String c sp). simpl. now rewrite <- IH.
  - now exists "".
Qed.

Lemma lstrip_head (s : string) :
  Str.lstrip s = "" \/ exists c r, Str.lstrip s = String c r /\ Str.is_space c = false.
Proof.
  induction s as [|c s IH]; [now left|]. simpl.
  destruct (Str.is_space c) eqn:E; [exact IH|]. right. eauto.
Qed.

Lemma lstrip_fixed (c : ascii) (r : string) :
  Str.is_space c = false -> Str.lstrip (String c r) = String c r.
Proof. intros H. simpl. now rewrite H. Qed.

Lemma lstrip_idem (s : string) : Str.lstrip (Str.lstrip s) = Str.lstrip s.
Proof.
  destruct (lstrip_head s) as [->|(c & r & -> & H)]; [reflexivity|].
  now apply lstrip_fixed.
Qed.

Lemma lstrip_snoc (w : string) (c : ascii) :
  Str.is_space c = false ->
  Str.lstrip (w ++ String c "") = Str.lstrip w ++ String c "".
Proof.
  intros H. induction w as [|d w IH]; simpl.
  - now rewrite H.
  - destruct (Str.is_space d); [exact IH|reflexivity].
Qed.

Lemma lstrip_app_space (s : string) :
  Str.lstrip (s ++ " ") = Str.lstrip s ++ " " \/
  (Str.lstrip s = "" /\ Str.lstrip (s ++ " ") = "").
Proof.
  induction s as [|c s IH]; simpl.
  - right. split; reflexivity.
  - destruct (Str.is_space c); [exact IH|now left].
Qed.

Lemma rstrip_app_space (y : string) : Str.rstrip (y ++ " ") = Str.rstrip y.
Proof. unfold Str.rstrip. rewrite str_rev_app. reflexivity. Qed.

Lemma strip_app_space (x : string) : Str.strip (x ++ " ") = Str.strip x.
Proof.
  unfold Str.strip. destruct (lstrip_app_space x) as [->|[-> ->]]; [|reflexivity].
  apply rstrip_app_space.
Qed.

Lemma rstrip_prefix (y : string) : exists q, y = Str.rstrip y ++ q.
Proof.
  unfold Str.rstrip. destruct (lstrip_suffix (Str.rev y)) as [sp H].
  exists (Str.rev sp). rewrite <- str_rev_app, <- H. now rewrite str_rev_involutive.
Qed.

Lemma rstrip_idem (y : string) : Str.rstrip (Str.rstrip y) = Str.rstrip y.
Proof. unfold Str.rstrip. now rewrite str_rev_involutive, lstrip_idem. Qed.

Lemma lstrip_rstrip (y : string) :
  Str.lstrip y = y -> Str.lstrip (Str.rstrip y) = Str.rstrip y.
Proof.
  intros Hy. destruct y as [|c r]; [reflexivity|].
  assert (Hc : Str.is_space c = false).
  { simpl in Hy. destruct (Str.is_space c) eqn:E; [|reflexivity].
    destruct (lstrip_suffix r) as [sp Hsp].
    apply (f_equal String.length) in Hy. rewrite Hsp in Hy at 2.
    simpl in Hy. rewrite length_append in Hy. lia. }
  unfold Str.rstrip. rewrite str_rev_cons, (lstrip_snoc _ _ Hc), str_rev_app, str_rev_single.
  simpl. now rewrite Hc.
Qed.

Lemma strip_idem (x : string) : Str.strip (Str.strip x) = Str.strip x.
Proof.
  unfold Str.strip.
  rewrite (lstrip_rstrip (Str.lstrip x) (lstrip_idem x)). apply rstrip_idem.
Qed.

(** Arrows *)

Lemma noarrow_app_l (a s : string) :
  contains_sub "->" (a ++ s) = false -> contains_sub "->" a = false.
Proof.
  intros H. destruct (contains_sub "->" a) eqn:E; [|reflexivity].
  now rewrite (contains_sub_app_l _ _ s E) in H.
Qed.

Lemma noarrow_app_r (a s : string) :
  contains_sub "->" (a ++ s) = false -> contains_sub "->" s = false.
Proof.
  intros H. destruct (contains_sub "->" s) eqn:E; [|reflexivity].
  now rewrite (contains_sub_app_r _ a _ E) in H.
Qed.

Lemma noarrow_strip (x : string) :
  contains_sub "->" x = false -> contains_sub "->" (Str.strip x) = false.
Proof.
  intros H. unfold Str.strip.
  destruct (lstrip_suffix x) as [sp Hsp]. rewrite Hsp in H. apply noarrow_app_r in H.
  destruct (rstrip_prefix (Str.lstrip x)) as [q Hq]. rewrite Hq in H.
  now apply noarrow_app_l in H.
Qed.

Lemma snoc_inj (a b : string) (c d : ascii) :
  a ++ String c "" = b ++ String d "" -> c = d.
Proof.
  intros H. apply (f_equal Str.rev) in H. rewrite !str_rev_app, !str_rev_single in H.
  simpl in H. now inversion H.
Qed.

(** A character added to a text without arrow makes no arrow, unless it
    is [>] after [-]. *)
Lemma noarrow_snoc (acc : string) (c : ascii) :
  contains_sub "->" acc = false -> (forall a, acc = a ++ "-" -> c <> ">"%char) ->
  contains_sub "->" (acc ++ String c "") = false.
Proof.
  induction acc as [|d acc IH]; intros Hn Hb.
  - cbn [append contains_sub]. rewrite prefix_cons, prefix_empty.
    destruct (ascii_dec "-" c); [|reflexivity].
    destruct (String.prefix ">" ""); reflexivity.
  - destruct (noarrow_cons _ _ Hn) as [Hp Hn'].
    change ((String d acc) ++ String c "") with (String d (acc ++ String c "")).
    cbn [contains_sub]. apply orb_false_iff. split.
    + rewrite prefix_cons in *. destruct (ascii_dec "-" d) as [<-|]; [|reflexivity].
      destruct acc as [|e acc].
      * cbn [append]. rewrite prefix_cons.
        destruct (ascii_dec ">" c) as [<-|]; [|reflexivity].
        exfalso. apply (Hb ""); reflexivity.
      * change ((String e acc) ++ String c "") with (String e (acc ++ String c "")).
        rewrite prefix_cons in *. destruct (ascii_dec ">" e); [|reflexivity].
        now rewrite prefix_nil in Hp.
    + apply IH; [assumption|]. intros a Ha. apply (Hb (String d a)).
      simpl. now rewrite Ha.
Qed.

Lemma split_go_noarrow (s : string) :
  forall skip acc,
    contains_sub "->" acc = false ->
    (skip = 0%nat -> forall a, acc = a ++ "-" -> String.prefix ">" s = false) ->
    (skip <> 0%nat -> acc = "") -> (skip <= 1)%nat ->
    Forall (fun p => contains_sub "->" p = false) (Str.split_go "->" s skip acc).
Proof.
  induction s as [|c s IH]; intros skip acc Hn Hb He Hs.
  - simpl. constructor; [assumption|constructor].
  - cbn [Str.split_go]. destruct skip as [|k].
    + destruct (String.prefix "->" (String c s)) eqn:Ep.
      * constructor; [assumption|]. cbn [String.length Nat.pred].
        apply IH.
        -- reflexivity.
        -- discriminate.
        -- reflexivity.
        -- apply Nat.le_refl.
      * apply IH.
        -- apply noarrow_snoc; [assumption|].
           intros a Ha Hc. specialize (Hb eq_refl a Ha). subst c.
           rewrite prefix_cons, prefix_nil in Hb.
           destruct (ascii_dec ">" ">") as [_|n]; [discriminate|now elim n].
        -- intros _ a Ha. apply snoc_inj in Ha. subst c.
           rewrite prefix_cons in Ep.
           destruct (ascii_dec "-" "-") as [_|n]; [exact Ep|now elim n].
        -- intros H. now elim H.
        -- exact Hs.
    + assert (Hk : k = 0) by lia. subst k.
      rewrite (He ltac:(discriminate)).
      apply IH.
      * reflexivity.
      * intros _ a Ha. destruct a; discriminate.
      * intros H. now elim H.
      * apply Nat.le_0_l.
Qed.

Lemma split_noarrow (d : string) :
  Forall (fun p => contains_sub "->" p = false) (Str.split d "->").
Proof.
  unfold Str.split. apply split_go_noarrow.
  - reflexivity.
  - intros _ a Ha. destruct a; discriminate.
  - intros H. now elim H.
  - apply Nat.le_0_l.
Qed.

Lemma noarrow_app_space (x : string) :
  contains_sub "->" x = false -> contains_sub "->" (x ++ " ") = false.
Proof.
  intros H. apply noarrow_snoc; [assumption|]. intros; discriminate.
Qed.

Lemma noarrow_space_app (e : string) :
  contains_sub "->" e = false -> contains_sub "->" (" " ++ e) = false.
Proof. intros H. cbn [append contains_sub]. now rewrite H. Qed.

(** The description of a transform ([Transform.desc], which [__str__]
    returns) is read back as the transform it describes: what
    [Transform.__init__] has made of a description, it makes again of
    the description of the result. *)
Theorem transform_desc_round_trip (d : string) (t : Transform) :
  Transform_parse d = Ok t ->
  exists x e,
    xname t = Some x /\ expr t = Some e /\
    Transform_desc t = Ok (x ++ " -> " ++ e) /\
    Transform_parse (x ++ " -> " ++ e) = Ok t.
Proof.
  unfold Transform_parse at 1. intros H.
  pose proof (split_noarrow d) as Hn.
  destruct (Str.split d "->") as [|x [|e [|? ?]]]; try discriminate.
  injection H as <-.
  inversion Hn as [|? ? Hx Hn']; subst. inversion Hn' as [|? ? He _]; subst.
  exists (Str.strip x), (Str.strip e).
  split; [reflexivity|]. split; [reflexivity|]. split; [reflexivity|].
  unfold Transform_parse.
  change (Str.strip x ++ " -> " ++ Str.strip e)
    with (Str.strip x ++ " " ++ "->" ++ " " ++ Str.strip e).
  rewrite <- append_assoc.
  rewrite (split_arrow (Str.strip x ++ " ") (" " ++ Str.strip e)).
  - rewrite strip_app_space, strip_idem.
    change (Str.strip (" " ++ Str.strip e)) with (Str.strip (Str.strip e)).
    now rewrite strip_idem.
  - apply noarrow_app_space, noarrow_strip, Hx.
  - apply noarrow_space_app, noarrow_strip, He.
Qed.

End Arrow.

(** ** The claims *)

Section Claims.

Local Open Scope nat_scope.
Local Open Scope list_scope.

Context {V RNG : Type} {ext : Externals V RNG}.



Lemma sample_restores (fuel : nat) (r : request) (g g' : RNG)
      (self self' : ParameterSetSampler V RNG) (resp : response V) :
  sample fuel r (g, self) = (Ok resp, (g', self')) -> g' = g.
Proof.
  unfold sample.
  destruct (sample_body fuel (varnames self) r _) as [[res|e|] w];
    intros H; inversion H; reflexivity.
Qed.

Lemma run_restores (fuel : nat) (reqs : list request) :
  forall (g g' : RNG) (self self' : ParameterSetSampler V RNG)
         (resps : list (response V)),
    run fuel reqs (g, self) = (Ok resps, (g', self')) -> g' = g.
Proof.
  unfold run. induction reqs as [|r reqs IH]; intros g g' self self' resps; simpl.
  - unfold mret. intros H; inversion H; reflexivity.
  - unfold mbind at 1.
    destruct (sample fuel r (g, self)) as [[resp|e|] [g1 self1]] eqn:Es;
      try discriminate.
    apply sample_restores in Es. subst g1.
    unfold mbind at 1.
    destruct (mmap (sample fuel) reqs (g, self1)) as [[rs|e|] [g2 self2]] eqn:Er;
      try discriminate.
    apply IH in Er. subst g2.
    unfold mret. intros H; inversion H; reflexivity.
Qed.

(** Every public call on a chain that returns leaves the generator
    outside as it found it: the constructor, one [sample], and any
    sequence of [sample] calls.  On a chain just built whose draws do
    not fail, requests for declared variables do return. *)
Theorem ambient_restored_on_return :
  (forall (dists : ParameterSet V) (seed : option (pv V)) (g g' : RNG)
          (A : ParameterSetSampler V RNG),
      ParameterSetSampler_init dists seed g = (Ok A, g') -> g' = g) /\
  (forall (fuel : nat) (r : request) (g g' : RNG)
          (self self' : ParameterSetSampler V RNG) (resp : response V),
      sample fuel r (g, self) = (Ok resp, (g', self')) -> g' = g) /\
  (forall (fuel : nat) (reqs : list request) (g g' : RNG)
          (self self' : ParameterSetSampler V RNG) (resps : list (response V)),
      run fuel reqs (g, self) = (Ok resps, (g', self')) -> g' = g) /\
  (forall (dists : ParameterSet V) (seed : option (pv V)) (g g' h : RNG)
          (A : ParameterSetSampler V RNG) (reqs : list request) (fuel : nat),
      ParameterSetSampler_init dists seed g = (Ok A, g') ->
      (forall nd, In nd (_samplers A) -> active nd = true ->
                  total_draw (_get_sample nd)) ->
      forallb (request_ok (varnames A)) reqs = true ->
      enough (List.length (varnames A)) <= fuel ->
      exists resps A', run fuel reqs (h, A) = (Ok resps, (h, A'))).
Proof.
  split; [|split; [|split]].
  - intros dists seed g g' A H. now destruct (init_inv _ _ _ _ _ H).
  - intros. eapply sample_restores; eassumption.
  - intros. eapply run_restores; eassumption.
  - intros dists seed g g' h A reqs fuel HA Htot Hr Hf.
    destruct (init_Inv _ _ _ _ _ HA Htot) as (Hlk & Hdr & Hlen & HI).
    rewrite Hlen in Hf.
    destruct (run_spec (_samplers A) (rng_state A) Hlk Hdr (varnames A) Hlen fuel Hf
                       reqs 0 0 (fun _ => 0) A h eq_refl HI Hr)
      as (resps & A' & _ & _ & _ & Hrun & _).
    eauto.
Qed.

(** C5.  A seed given to the constructor is the one the chain is seeded
    with, whatever [seed] the specification has; the seed of the
    specification is used when the constructor is given none, and
    without either the chain starts from the generator state it was built
    in. *)
Theorem C5_constructor_seed_wins :
  (forall (dists : ParameterSet V) (s : pv V) (g g' : RNG)
          (A : ParameterSetSampler V RNG),
      ParameterSetSampler_init dists (Some s) g = (Ok A, g') ->
      np_random_seed s = Ok (rng_state A)) /\
  (forall (dists : ParameterSet V) (g g' : RNG) (A : ParameterSetSampler V RNG),
      ParameterSetSampler_init dists None g = (Ok A, g') ->
      match ps_lookup dists "seed" with
      | Some s => np_random_seed s = Ok (rng_state A)
      | None => rng_state A = g
      end).
Proof.
  split.
  - intros dists s g g' A H.
    destruct (init_inv _ _ _ _ _ H) as (_ & pn & ss & _ & _ & _ & _ & Hseed).
    exact Hseed.
  - intros dists g g' A H.
    destruct (init_inv _ _ _ _ _ H) as (_ & pn & ss & _ & _ & _ & _ & Hseed).
    exact Hseed.
Qed.

(** With more than one population key the constructor stops before it
    touches the generator, on the undefined name in its message. *)
Lemma multiple_population_keys (dists : ParameterSet V) (seed : option (pv V))
      (g : RNG) :
  1 < List.length (popattrs_of dists) ->
  ParameterSetSampler_init dists seed g = (Raise (NameError "population_strs"), g).
Proof.
  intros H. unfold ParameterSetSampler_init, mbind, get_state, lift, popnames_of.
  destruct (Nat.ltb_spec 1 (List.length (popattrs_of dists))); [reflexivity|lia].
Qed.

Lemma Transform_new_instance (r : nat) (args : list (targ V)) (h : theap) :
Transform_new (ATransform r :: args) h = (Ok r, h).
Proof. reflexivity. Qed.

Lemma Transform_init_instance (self r : nat) (h : theap) :
Transform_init (V := V) self (ATransform r) h = (Ok tt, h).
Proof. reflexivity. Qed.

(** C9.  [Transform(t)] on an instance [t] returns [t] itself: [__new__]
    hands back its argument and [__init__] leaves it alone, so no instance
    is created and [xname] and [expr] of [t] are what they were. *)
Theorem C9_transform_idempotent (r : nat) (h : theap) :
Transform_call (V := V) [ATransform r] h = (Ok r, h) /\
(forall h', snd (Transform_call (V := V) [ATransform r] h) = h' ->
            List.length h' = List.length h /\ nth_error h' r = nth_error h r).
Proof.
unfold Transform_call, mbind.
rewrite Transform_new_instance, Transform_init_instance.
split; [reflexivity|].
intros h' <-. split; reflexivity.
Qed.

(** C10.  [set_previous] with a positive offset raises [ValueError] and
    changes nothing; with an offset of 0 or below it sets the link; so
    every link of a chain the constructor built has an offset of 0 or
    below. *)
Theorem C10_set_previous_offset :
  (forall (self prev : nat) (off : Z) (st : list (ParameterSampler V RNG)),
      (0 < off)%Z ->
      set_previous self prev off st
      = (Raise (ValueError "Offset cannot be positive."), st)) /\
  (forall (self prev : nat) (off : Z) (st : list (ParameterSampler V RNG))
          (nd : ParameterSampler V RNG),
      (off <= 0)%Z -> nth_error st self = Some nd ->
      set_previous self prev off st
      = (Ok tt, set_nth self (set_link prev off nd) st)) /\
  (forall (dists : ParameterSet V) (seed : option (pv V)) (g g' : RNG)
          (A : ParameterSetSampler V RNG) (nd : ParameterSampler V RNG),
      ParameterSetSampler_init dists seed g = (Ok A, g') ->
      In nd (_samplers A) ->
      exists off, _previous_offset nd = Some off /\ (off <= 0)%Z).
Proof.
  split; [|split].
  - intros self prev off st H. unfold set_previous.
    destruct (Z.gtb_spec off 0); [reflexivity|lia].
  - intros. now apply set_previous_ok.
  - intros dists seed g g' A nd HA Hin.
    destruct (init_inv _ _ _ _ _ HA) as (_ & pn & ss & _ & Hss & Hl & _).
    destruct (omap_spec _ _ _ Hss) as [Hlen _].
    destruct (link_all_spec _ _ _ (eq_sym Hlen) Hl) as (_ & Hlinked & _).
    apply In_nth_error in Hin. destruct Hin as [p Hp].
    destruct (Hlinked p nd Hp) as [_ Hoff]. rewrite Hoff.
    destruct (p =? 0); eexists; split; try reflexivity; lia.
Qed.

Lemma ps_lookup_contains (d : ParameterSet V) (k : string) (v : pv V) :
  ps_lookup d k = Some v -> ps_contains d k = true.
Proof.
  unfold ps_contains, Str.mem, keys.
  induction d as [|[k' v'] d IH]; simpl; [discriminate|].
  destruct (String.eqb k k'); simpl; auto.
Qed.

Lemma shape_loop_plain (name : string) (popnames : option (pv V)) (comps : list (pv V)) :
  forallb not_str comps = true ->
  forall shapes pat, forallb negb pat = true ->
    exists sp, shape_loop name popnames comps shapes pat = Ok sp /\
               forallb negb (snd sp) = true.
Proof.
  induction comps as [|s comps IH]; intros Hc shapes pat Hp; simpl.
  - eexists; split; [reflexivity|assumption].
  - simpl in Hc. apply andb_true_iff in Hc. destruct Hc as [Hs Hc].
    assert (Hp' : forallb negb (pat ++ [false]) = true)
      by (rewrite forallb_app, Hp; reflexivity).
    destruct s; try discriminate Hs; apply IH; assumption.
Qed.

Lemma unrecognized_raises (self : PopSampler V) (key : popkey) (dist : option (pv V))
      (kind : pv V) :
  recognized dist = false -> ps_lookup (distparams self) "dist" = Some kind ->
  _sample_pop (RNG := RNG) self key dist = Raise (ValueError (unrecognized (py_str kind))).
Proof.
  unfold recognized, _sample_pop. intros Hr Hk.
  repeat (apply orb_false_iff in Hr; destruct Hr as [Hr ?]).
  repeat match goal with H : opt_is_str _ _ = false |- _ => rewrite H; clear H end.
  simpl. unfold ps_getattr. rewrite Hk. reflexivity.
Qed.

(** C3, amended.  A kind that is not recognized does not stop the
    constructor: [PopSampler.__getitem__] looks at the kind, and it is
    called when the variable is drawn.  For a variable without population
    axes and without transform, [ParameterSampler.__init__] succeeds, and
    every draw raises [ValueError] and leaves the generator alone. *)
Theorem C3_unknown_kind_raises_at_draw
        (name : string) (d : ParameterSet V) (popnames : option (pv V))
        (comps : list (pv V)) (kind : pv V) :
  ps_lookup d "dist" = Some kind ->
  recognized (Some kind) = false ->
  desc_shape d = Ok comps ->
  forallb not_str comps = true ->
  ps_contains d "transform" = false ->
  (forall key dist,
      PopSampler_getattr (mkPopSampler d popnames) key "dist" = Ok dist ->
      recognized dist = false ->
      exists e, PopSampler_getitem (RNG := RNG) (mkPopSampler d popnames) key = Raise e /\
                e = ValueError (unrecognized (py_str kind))) /\
  exists nd : ParameterSampler V RNG,
    ParameterSampler_init name (PSet d) popnames = Ok nd /\
    sampled_idx nd = Some 0%Z /\
    forall g, _get_sample nd g
              = (Raise (ValueError (unrecognized (py_str kind))), g).
Proof.
  intros Hk Hr Hsh Hc Ht. split.
  - intros key dist Hd Hrd. eexists. split; [|reflexivity].
    unfold PopSampler_getitem. rewrite Hd. simpl.
    rewrite (unrecognized_raises (mkPopSampler d popnames) key dist kind Hrd Hk).
    reflexivity.
  - destruct (shape_loop_plain name popnames comps Hc [[]] [] eq_refl)
      as (sp & Hsp & Hpat).
    unfold ParameterSampler_init.
    rewrite (ps_lookup_contains _ _ _ Hk). simpl.
    rewrite Hsh. simpl. rewrite Hsp. simpl.
    unfold pop_get_sample. rewrite Hpat. simpl. rewrite Ht. simpl.
    eexists. split; [reflexivity|]. split; [reflexivity|].
    intros g. simpl. unfold mbind, lift, PopSampler_getitem. simpl.
    rewrite Hk. simpl.
    rewrite (unrecognized_raises (mkPopSampler d popnames) NoPops (Some kind) kind Hr Hk).
    reflexivity.
Qed.

Lemma draw_append_ok (w : world V RNG) (i : nat) (nd : ParameterSampler V RNG)
      (v : V) (g' : RNG) :
  nth_error (store w) i = Some nd ->
  _get_sample nd (np_random w) = (Ok v, g') ->
  draw_append i w
  = (Ok tt, mkWorld g' (set_nth i (set_cache (_cache nd ++ [v]) nd) (store w))).
Proof.
  intros E Hv. unfold draw_append, mbind, get_node, node_at, modify_node.
  rewrite E. simpl. rewrite Hv. simpl. rewrite E. reflexivity.
Qed.

Lemma call_pops_oldest (fuel : nat) (w : world V RNG) (i : nat)
      (nd : ParameterSampler V RNG) (v : V) (rest : list V) :
  nth_error (store w) i = Some nd -> _cache nd = v :: rest ->
  ParameterSampler_call fuel i w
  = (Ok v, mkWorld (np_random w) (set_nth i (set_cache rest nd) (store w))).
Proof.
  intros E Hc. unfold ParameterSampler_call, mbind, get_node, node_at, modify_node.
  rewrite E. simpl. rewrite Hc. simpl. unfold mret. rewrite E. simpl.
  rewrite Hc. rewrite E. reflexivity.
Qed.


Lemma run_repeat_calls (fuel : nat) (x : string) (i m : nat) :
  forall (self : ParameterSetSampler V RNG) (h : RNG) (vs : list V) (w' : world V RNG),
    index_of x (varnames self) = Some i ->
    calls fuel i m (mkWorld (rng_state self) (_samplers self)) = (Ok vs, w') ->
    run fuel (repeat (One x) m) (h, self)
    = (Ok (map (@Value V) vs),
       (h, mkParameterSetSampler (varnames self) (store w') (np_random w'))).
Proof.
  unfold run. induction m as [|m IH]; intros self h vs w' Hx Hc; simpl in *.
  - unfold mret in *. inversion Hc; subst. destruct self; reflexivity.
  - unfold mbind at 1 in Hc.
    destruct (ParameterSampler_call fuel i _) as [[v|e|] w1] eqn:E1; try discriminate.
    unfold mbind at 1 in Hc.
    destruct (calls fuel i m w1) as [[vs'|e|] w2] eqn:E2; try discriminate.
    unfold mret in Hc. inversion Hc; subst.
    unfold mbind at 1.
    assert (Hs : sample fuel (One x) (h, self)
                 = (Ok (Value v),
                    (h, mkParameterSetSampler (varnames self) (store w1) (np_random w1)))).
    { unfold sample, sample_body, call_sampler. rewrite Hx.
      unfold mbind. rewrite E1. reflexivity. }
    rewrite Hs. unfold mbind at 1.
    rewrite (IH (mkParameterSetSampler (varnames self) (store w1) (np_random w1))
                h vs' w').
    + reflexivity.
    + exact Hx.
    + simpl. destruct w1. exact E2.
Qed.

(** C6.  [__call__] returns the oldest value of the cache and leaves the
    rest in order.  On a chain at work, [m] calls of [sample] for [x] in
    a row give the same values, in the same order, as [m] fills of [x]'s
    cache followed by [m] calls of its sampler; the claim has [m = 3]. *)
Theorem C6_fifo_replay :
  (forall (fuel : nat) (w : world V RNG) (i : nat) (nd : ParameterSampler V RNG)
          (v : V) (rest : list V),
      nth_error (store w) i = Some nd -> _cache nd = v :: rest ->
      ParameterSampler_call fuel i w
      = (Ok v, mkWorld (np_random w) (set_nth i (set_cache rest nd) (store w)))) /\
  (forall (dists : ParameterSet V) (seed : option (pv V)) (g g' h : RNG)
          (A : ParameterSetSampler V RNG) (reqs : list request) (fuel : nat)
          (x : string) (i m : nat),
      ParameterSetSampler_init dists seed g = (Ok A, g') ->
      (forall nd, In nd (_samplers A) -> active nd = true ->
                  total_draw (_get_sample nd)) ->
      forallb (request_ok (varnames A)) reqs = true ->
      enough (List.length (varnames A)) <= fuel ->
      index_of x (varnames A) = Some i ->
      exists resps A' vs A1 wf w2,
        run fuel reqs (h, A) = (Ok resps, (h, A')) /\
        run fuel (repeat (One x) m) (h, A') = (Ok (map (@Value V) vs), (h, A1)) /\
        fills fuel i m (mkWorld (rng_state A') (_samplers A')) = (Ok tt, wf) /\
        cache_len wf i = cache_len (mkWorld (rng_state A') (_samplers A')) i + m /\
        calls fuel i m wf = (Ok vs, w2)).
Proof.
  split; [intros; now apply call_pops_oldest|].
  intros dists seed g g' h A reqs fuel x i m HA Htot Hr Hf Hx.
  destruct (init_Inv _ _ _ _ _ HA Htot) as (Hlk & Hdr & Hlen & HI).
  rewrite Hlen in Hf.
  destruct (run_spec (_samplers A) (rng_state A) Hlk Hdr (varnames A) Hlen fuel Hf
                     reqs 0 0 (fun _ => 0) A h eq_refl HI Hr)
    as (resps & A' & k1 & c1 & cons1 & Hrun & Hn1 & HI1 & _).
  destruct (index_of_node (_samplers A) (varnames A) Hlen x i Hx) as [nd0 E].
  destruct (calls_spec (_samplers A) (rng_state A) Hlk Hdr fuel Hf i nd0 E
                       m k1 c1 cons1 _ HI1)
    as (vs & w1 & k2 & c2 & cons2 & Hcalls & Hvs & _).
  destruct (fills_spec (_samplers A) (rng_state A) Hlk Hdr fuel Hf i nd0 E
                       m k1 c1 cons1 _ HI1)
    as (wf & k3 & c3 & Hfills & HIf & Hlenf).
  destruct (calls_spec (_samplers A) (rng_state A) Hlk Hdr fuel Hf i nd0 E
                       m k3 c3 cons1 wf HIf)
    as (vs' & w2 & k4 & c4 & cons4 & Hcalls' & Hvs' & _).
  assert (vs' = vs).
  { assert (Hm : map (@Ok V) vs' = map (@Ok V) vs) by congruence.
    clear - Hm. revert vs Hm. induction vs' as [|a l IH]; intros [|b l'] H;
      simpl in H; try discriminate; [reflexivity|].
    inversion H. f_equal. now apply IH. }
  subst vs'.
  exists resps, A', vs,
    (mkParameterSetSampler (varnames A') (store w1) (np_random w1)), wf, w2.
  split; [assumption|]. split; [|split; [assumption|split; assumption]].
  apply run_repeat_calls with (i := i); [now rewrite Hn1|assumption].
Qed.

Lemma shape_loop_app (name : string) (popnames : option (pv V))
      (pre rest : list (pv V)) :
  forall shapes pat,
    shape_loop name popnames (pre ++ rest) shapes pat
    = obind (shape_loop name popnames pre shapes pat)
            (fun sp => shape_loop name popnames rest (fst sp) (snd sp)).
Proof.
  induction pre as [|s pre IH]; intros shapes pat; simpl; [reflexivity|].
  destruct s; try apply IH.
  destruct (py_len popnames) as [n| |]; simpl; try reflexivity.
  destruct (negb _); [reflexivity|].
  destruct (omap _ _) as [sizes| |]; simpl; try reflexivity.
  apply IH.
Qed.

Lemma shape_mismatch_raises (name : string) (d : ParameterSet V)
      (popnames : option (pv V)) (pre post : list (pv V)) (s : string)
      (npops : nat) (sp : list (list (pv V)) * list bool) :
  ps_contains d "dist" = true ->
  desc_shape d = Ok (pre ++ PStr s :: post) ->
  shape_loop name popnames pre [[]] [] = Ok sp ->
  py_len popnames = Ok npops ->
  List.length (Str.split s "+") <> npops ->
  ParameterSampler_init (RNG := RNG) name (PSet d) popnames
  = Raise (ValueError (shape_mismatch name (List.length (Str.split s "+")) npops)).
Proof.
  intros Hd Hsh Hpre Hlen Hne. unfold ParameterSampler_init.
  rewrite Hd, Hsh. simpl. rewrite shape_loop_app, Hpre. simpl.
  rewrite Hlen. simpl.
  destruct (Nat.eqb_spec (List.length (Str.split s "+")) npops); [contradiction|].
  reflexivity.
Qed.

Lemma omap_raise {A B : Type} (f : A -> outcome B) (l1 l2 : list A) (x : A) (e : exn) :
  (forall y, In y l1 -> exists b, f y = Ok b) -> f x = Raise e ->
  omap f (l1 ++ x :: l2) = Raise e.
Proof.
  intros Hok Hx. induction l1 as [|y l1 IH]; simpl.
  - now rewrite Hx.
  - destruct (Hok y (or_introl eq_refl)) as [b ->]. simpl.
    rewrite IH; [reflexivity|]. intros z Hz. apply Hok. now right.
Qed.

(** A variable whose shape has a population string with a number of
    [+]-separated parts other than the length of the declared list of
    populations makes the constructor fail with a [ValueError] whose
    message gives the variable, the number of parts and the number of
    populations.  The variable is the first the constructor cannot
    build, and the string the first of its shape that does not fit. *)
Theorem shape_mismatch_names_counts
        (dists : ParameterSet V) (seed : option (pv V)) (g : RNG)
        (popnames : option (pv V)) (npops : nat)
        (before after : list string) (x : string) (d : ParameterSet V)
        (pre post : list (pv V)) (s : string)
        (sp : list (list (pv V)) * list bool) :
  popnames_of dists = Ok popnames ->
  py_len popnames = Ok npops ->
  match effective_seed dists seed with
  | Some sd => exists gs, np_random_seed sd = Ok gs
  | None => True
  end ->
  varnames_of dists = before ++ x :: after ->
  (forall y, In y before ->
             exists nd : ParameterSampler V RNG,
               obind (ps_getitem dists y)
                     (fun desc => ParameterSampler_init y desc popnames) = Ok nd) ->
  ps_getitem dists x = Ok (PSet d) ->
  ps_contains d "dist" = true ->
  desc_shape d = Ok (pre ++ PStr s :: post) ->
  shape_loop x popnames pre [[]] [] = Ok sp ->
  List.length (Str.split s "+") <> npops ->
  exists g',
    ParameterSetSampler_init dists seed g
    = (Raise (ValueError
                ("The parameter '" ++ x ++ "' has a shape with "
                 ++ Str.of_nat (List.length (Str.split s "+"))
                 ++ " components, but we have " ++ Str.of_nat npops
                 ++ " populations.")), g').
Proof.
  intros Hpn Hlen Hseed Hvn Hbefore Hx Hd Hsh Hpre Hne.
  assert (Hmk : make_samplers (RNG := RNG) dists popnames (varnames_of dists)
                = Raise (ValueError (shape_mismatch x (List.length (Str.split s "+"))
                                                    npops))).
  { unfold make_samplers. rewrite Hvn. apply omap_raise; [exact Hbefore|].
    rewrite Hx. simpl.
    apply (shape_mismatch_raises x d popnames pre post s npops sp); assumption. }
  unfold ParameterSetSampler_init, mbind, get_state, set_state, lift, mret.
  rewrite Hpn.
  destruct (effective_seed dists seed) as [sd|].
  - destruct Hseed as [gs ->]. rewrite Hmk. eexists. reflexivity.
  - rewrite Hmk. eexists. reflexivity.
Qed.

End Claims.

(** ** Further properties of the chain *)

Section Edges.

Local Open Scope nat_scope.
Local Open Scope list_scope.

Context {V RNG : Type} {ext : Externals V RNG}.

Lemma set_nth_id {A : Type} (i : nat) (x : A) (l : list A) :
  nth_error l i = Some x -> set_nth i x l = l.
Proof.
  revert i; induction l as [|y l IH]; intros [|i] H; simpl in *; try discriminate.
  - now inversion H.
  - f_equal; auto.
Qed.

Lemma set_cache_id (nd : ParameterSampler V RNG) (c : list V) :
  _cache nd = c -> set_cache c nd = nd.
Proof. intros <-. destruct nd; reflexivity. Qed.

(** A sampler of a fixed value with nothing cached gives its value back
    and is afterwards as before; the generator is not looked at. *)
Lemma const_call (fuel : nat) (w : world V RNG) (i : nat)
      (nd : ParameterSampler V RNG) (c : V) :
  nth_error (store w) i = Some nd -> sampled_idx nd = None -> _cache nd = [] ->
  (forall g, _get_sample nd g = (Ok c, g)) ->
  ParameterSampler_call (S fuel) i w = (Ok c, w).
Proof.
  intros E Hidx Hc Hgs.
  assert (Hi : i < List.length (store w)) by (apply nth_error_Some; congruence).
  unfold ParameterSampler_call.
  unfold mbind at 1, get_node at 1, node_at. rewrite E, Hc.
  cbn [List.length Nat.eqb].
  rewrite _sample_eq.
  unfold mbind at 1.
  unfold mbind at 1, get_node at 1, node_at. rewrite E, Hidx.
  rewrite (draw_append_ok w i nd c (np_random w) E (Hgs _)).
  rewrite Hc. cbn [app].
  unfold mbind, get_node, node_at, modify_node. cbn [store np_random].
  rewrite nth_error_set_nth_eq by assumption. simpl.
  rewrite nth_error_set_nth_eq by assumption. unfold mret.
  rewrite set_nth_twice.
  replace (set_cache [] (set_cache [c] nd)) with nd.
  - rewrite (set_nth_id _ _ _ E). destruct w; reflexivity.
  - rewrite <- (set_cache_id nd [] Hc) at 1. reflexivity.
Qed.

(** *** What a call leaves alone *)

Lemma mbind_rel {St A B : Type} (R : St -> St -> Prop)
      (m : M St A) (f : A -> M St B) (w w' : St) (r : outcome B) :
  (forall a b c, R a b -> R b c -> R a c) ->
  mbind m f w = (r, w') ->
  (forall r1 w1, m w = (r1, w1) -> R w w1) ->
  (forall a w1 r2 w2, m w = (Ok a, w1) -> f a w1 = (r2, w2) -> R w1 w2) ->
  R w w'.
Proof.
  intros Htr H Hm Hf. unfold mbind in H.
  destruct (m w) as [[a|e|] w1] eqn:E.
  - eapply Htr; [apply (Hm _ _ eq_refl)|eapply Hf; [reflexivity|exact H]].
  - inversion H; subst. apply (Hm _ _ eq_refl).
  - inversion H; subst. apply (Hm _ _ eq_refl).
Qed.

Lemma map_frame_set_nth (i : nat) (nd nd' : ParameterSampler V RNG)
      (st : list (ParameterSampler V RNG)) :
  nth_error st i = Some nd -> frame nd' = frame nd ->
  map frame (set_nth i nd' st) = map frame st.
Proof.
  revert i; induction st as [|y st IH]; intros [|i] E Hf; simpl in *; try discriminate.
  - inversion E; subst. now rewrite Hf.
  - f_equal. now apply IH.
Qed.

Lemma frame_active (nd nd' : ParameterSampler V RNG) :
  frame nd' = frame nd -> active nd' = active nd.
Proof. unfold frame. intros H. now inversion H. Qed.

Lemma same_frame_node (w w' : world V RNG) (p : nat) (nd : ParameterSampler V RNG) :
  same_frame w w' -> nth_error (store w) p = Some nd ->
  exists nd', nth_error (store w') p = Some nd' /\ frame nd' = frame nd.
Proof.
  unfold same_frame. intros H E.
  assert (Hn : nth_error (map frame (store w')) p = Some (frame nd))
    by (rewrite H, nth_error_map, E; reflexivity).
  rewrite nth_error_map in Hn.
  destruct (nth_error (store w') p) as [nd'|]; simpl in Hn; [|discriminate].
  exists nd'. split; [reflexivity|]. congruence.
Qed.

Lemma keeps_refl (e : option nat) (w : world V RNG) : keeps e w w.
Proof. split; [reflexivity|]. auto. Qed.

Lemma keeps_trans (e : option nat) (a b c : world V RNG) :
  keeps e a b -> keeps e b c -> keeps e a c.
Proof.
  intros [Hf1 Hk1] [Hf2 Hk2]. split.
  - unfold same_frame in *. congruence.
  - intros p nd E Ha He. apply Hk2; auto.
Qed.

Lemma keeps_weaken (e : option nat) (w w' : world V RNG) :
  keeps None w w' -> keeps e w w'.
Proof.
  intros [Hf Hk]. split; [assumption|].
  intros p nd E Ha _. apply Hk; auto. discriminate.
Qed.

Lemma keeps_active (i : nat) (w w' : world V RNG) :
  keeps (Some i) w w' -> is_active (store w) i = true -> keeps None w w'.
Proof.
  intros [Hf Hk] Hi. split; [assumption|].
  intros p nd E Ha _. apply Hk; auto.
  intros H; inversion H; subst. unfold is_active in Hi. rewrite E in Hi. congruence.
Qed.

Lemma keeps_gen (e : option nat) (w : world V RNG) (g : RNG) :
  keeps e w (mkWorld g (store w)).
Proof. split; [reflexivity|]. auto. Qed.

Lemma modify_node_keeps (i : nat) (f : ParameterSampler V RNG -> ParameterSampler V RNG)
      (w w' : world V RNG) (r : outcome unit) :
  modify_node i f w = (r, w') ->
  (forall nd, nth_error (store w) i = Some nd -> frame (f nd) = frame nd) ->
  keeps (Some i) w w'.
Proof.
  unfold modify_node. intros H Hf.
  destruct (nth_error (store w) i) as [nd|] eqn:E; inversion H; subst;
    [|apply keeps_refl].
  split.
  - unfold same_frame. simpl. apply (map_frame_set_nth i nd); auto.
  - intros p nd' E' _ He. simpl. rewrite nth_error_set_nth_neq; auto.
Qed.

Lemma draw_append_keeps (i : nat) (w w' : world V RNG) (r : outcome unit) :
  draw_append i w = (r, w') -> keeps (Some i) w w'.
Proof.
  unfold draw_append. intros H.
  apply (mbind_rel (keeps (Some i)) _ _ _ _ _ (keeps_trans (Some i)) H).
  - unfold get_node. intros r1 w1 H1. inversion H1. apply keeps_refl.
  - intros nd w1 r2 w2 H1 H2. unfold get_node in H1. inversion H1; subst w1.
    apply (mbind_rel (keeps (Some i)) _ _ _ _ _ (keeps_trans (Some i)) H2).
    + intros r1 w1 Hd. destruct (_get_sample nd (np_random w)) as [r' g'].
      inversion Hd. apply keeps_gen.
    + intros v w1 r3 w3 _ Hm. apply (modify_node_keeps _ _ _ _ _ Hm).
      intros nd' _. reflexivity.
Qed.

Lemma previous_active (fuel : nat) (st : list (ParameterSampler V RNG)) :
  forall self p, previous fuel st self = Ok p -> is_active st p = true.
Proof.
  induction fuel as [|fuel IH]; intros self p; simpl; [discriminate|].
  unfold node_at.
  destruct (nth_error st self) as [nd|]; simpl; [|discriminate].
  destruct (_previous nd) as [q|]; [|discriminate].
  destruct (nth_error st q) as [pn|] eqn:Eq; simpl; [|discriminate].
  destruct (sampled_idx pn) as [z|] eqn:Ez.
  - intros H; inversion H; subst. unfold is_active, active. now rewrite Eq, Ez.
  - apply IH.
Qed.

Ltac state_only :=
  let r := fresh "r" in
  let w := fresh "w" in
  let H := fresh "H" in
  intros r w H; unfold get_node in H; cbv beta in H; inversion H; apply keeps_refl.

Lemma the_idx_keeps (e : option nat) (nd : ParameterSampler V RNG)
      (w w1 : world V RNG) (r : outcome Z) :
  the_idx nd w = (r, w1) -> keeps e w w1.
Proof.
  unfold the_idx. destruct (sampled_idx nd); intros H; inversion H; apply keeps_refl.
Qed.

(** A call of [_sample] changes indices and caches only, and of the
    samplers of fixed values at most the one it is called on. *)
Lemma sample_keeps (fuel : nat) :
  (forall i t (w w' : world V RNG) r,
      _sample fuel i t w = (r, w') -> keeps (Some i) w w') /\
  (forall i t (w w' : world V RNG) r,
      _sample_while fuel i t w = (r, w') -> keeps None w w').
Proof.
  induction fuel as [|fuel [IHs IHw]].
  - split; intros i t w w' r H; inversion H; apply keeps_refl.
  - split; intros i t w w' r H.
    + rewrite _sample_eq in H.
      apply (mbind_rel (keeps (Some i)) _ _ _ _ _ (keeps_trans (Some i)) H).
      { state_only. }
      intros nd w1 r2 w2 K1 K2. inversion K1; subst w1. clear K1.
      destruct (sampled_idx nd) as [idx|]; [|now apply (draw_append_keeps _ _ _ _ K2)].
      cbv zeta in K2.
      match type of K2 with
      | (if ?b then _ else _) _ = _ => destruct b
      end; [|inversion K2; apply keeps_refl].
      apply (mbind_rel (keeps (Some i)) _ _ _ _ _ (keeps_trans (Some i)) K2).
      { intros r1 w1 K3. apply keeps_weaken. eapply IHw; eassumption. }
      intros _ w1 r3 w3 _ K3.
      apply (mbind_rel (keeps (Some i)) _ _ _ _ _ (keeps_trans (Some i)) K3).
      { state_only. }
      intros nd1 w4 r4 w5 K4 K5. unfold get_node, node_at in K4.
      assert (w4 = w1) by (destruct (nth_error (store w1) i); now inversion K4).
      subst w4.
      apply (mbind_rel (keeps (Some i)) _ _ _ _ _ (keeps_trans (Some i)) K5).
      { intros ? ? Hx; eapply the_idx_keeps; exact Hx. }
      intros idx' w6 r6 w7 K6 K7.
      assert (Hact : sampled_idx nd1 = Some idx' /\ w6 = w1).
      { unfold the_idx in K6. destruct (sampled_idx nd1); inversion K6; auto. }
      destruct Hact as [Hact ->].
      apply (mbind_rel (keeps (Some i)) _ _ _ _ _ (keeps_trans (Some i)) K7).
      { intros r1 w8 K8. apply (modify_node_keeps _ _ _ _ _ K8).
        intros nd2 E2. rewrite E2 in K4.
        inversion K4; subst nd2. unfold frame, set_idx, active. simpl.
        now rewrite Hact. }
      intros _ w8 r8 w9 _ K9. now apply (draw_append_keeps _ _ _ _ K9).
    + rewrite _sample_while_eq in H.
      apply (mbind_rel (keeps None) _ _ _ _ _ (keeps_trans None) H).
      { state_only. }
      intros p w1 r1 w2 K1 K2. inversion K1; subst w1.
      apply (mbind_rel (keeps None) _ _ _ _ _ (keeps_trans None) K2).
      { state_only. }
      intros pn w3 r3 w4 K3 K4. inversion K3; subst w3.
      apply (mbind_rel (keeps None) _ _ _ _ _ (keeps_trans None) K4).
      { intros ? ? Hx; eapply the_idx_keeps; exact Hx. }
      intros pidx w5 r5 w6 K5 K6.
      assert (w5 = w)
        by (unfold the_idx in K5; destruct (sampled_idx pn); now inversion K5).
      subst w5.
      apply (mbind_rel (keeps None) _ _ _ _ _ (keeps_trans None) K6).
      { state_only. }
      intros off w7 r7 w8 K7 K8. inversion K7; subst w7.
      match type of K8 with
      | (if ?b then _ else _) _ = _ => destruct b
      end; [|inversion K8; apply keeps_refl].
      apply (mbind_rel (keeps None) _ _ _ _ _ (keeps_trans None) K8).
      { state_only. }
      intros p' w9 r9 w10 K9 K10. inversion K9; subst w9.
      apply (mbind_rel (keeps None) _ _ _ _ _ (keeps_trans None) K10).
      { state_only. }
      intros off' w11 r11 w12 K11 K12. inversion K11; subst w11.
      apply (mbind_rel (keeps None) _ _ _ _ _ (keeps_trans None) K12).
      { intros rs ws Hs. apply (keeps_active p').
        - eapply IHs; eassumption.
        - apply (previous_active fuel _ i). now inversion K9. }
      intros _ w13 r13 w14 _ K14. eapply IHw; eassumption.
Qed.

Lemma mmap_rel {St A B : Type} (R : St -> St -> Prop) (f : A -> M St B) (l : list A) :
  (forall w, R w w) -> (forall a b c, R a b -> R b c -> R a c) ->
  (forall a w r w', f a w = (r, w') -> R w w') ->
  forall w r w', mmap f l w = (r, w') -> R w w'.
Proof.
  intros Hrefl Htr Hf. induction l as [|a l IH]; intros w r w' H; simpl in H.
  - inversion H. apply Hrefl.
  - apply (mbind_rel R _ _ _ _ _ Htr H); [intros; eapply Hf; eassumption|].
    intros b w1 r2 w2 _ H2.
    apply (mbind_rel R _ _ _ _ _ Htr H2); [intros; eapply IH; eassumption|].
    intros bs w3 r3 w4 _ H3. inversion H3. apply Hrefl.
Qed.

Lemma same_frame_trans (a b c : world V RNG) :
  same_frame a b -> same_frame b c -> same_frame a c.
Proof. unfold same_frame. congruence. Qed.

Lemma call_keeps (fuel i : nat) (w w' : world V RNG) (r : outcome V) :
  ParameterSampler_call fuel i w = (r, w') -> keeps (Some i) w w'.
Proof.
  unfold ParameterSampler_call. intros H.
  apply (mbind_rel (keeps (Some i)) _ _ _ _ _ (keeps_trans (Some i)) H).
  { state_only. }
  intros nd w1 r1 w2 K1 K2.
  apply (mbind_rel (keeps (Some i)) _ _ _ _ _ (keeps_trans (Some i)) K2).
  { intros rs ws Hs. destruct (List.length (_cache nd) =? 0).
    - eapply (proj1 (sample_keeps fuel)); eassumption.
    - inversion Hs. apply keeps_refl. }
  intros _ w3 r3 w4 _ K3.
  apply (mbind_rel (keeps (Some i)) _ _ _ _ _ (keeps_trans (Some i)) K3).
  { state_only. }
  intros nd' w5 r5 w6 _ K5.
  destruct (_cache nd') as [|v rest]; [inversion K5; apply keeps_refl|].
  apply (mbind_rel (keeps (Some i)) _ _ _ _ _ (keeps_trans (Some i)) K5).
  { intros rm wm Hm. apply (modify_node_keeps _ _ _ _ _ Hm). reflexivity. }
  intros _ w7 r7 w8 _ K7. inversion K7. apply keeps_refl.
Qed.

(** A call on a sampler of a fixed value that has nothing cached changes
    nothing. *)
Lemma call_fixed (fuel i : nat) (w w' : world V RNG) (r : outcome V)
      (nd : ParameterSampler V RNG) :
  nth_error (store w) i = Some nd -> active nd = false -> _cache nd = [] ->
  (exists c, forall g, _get_sample nd g = (Ok c, g)) ->
  ParameterSampler_call fuel i w = (r, w') -> w' = w.
Proof.
  intros E Ha Hc [c Hg] H.
  assert (Hidx : sampled_idx nd = None)
    by (unfold active in Ha; destruct (sampled_idx nd); [discriminate|reflexivity]).
  destruct fuel as [|fuel].
  - unfold ParameterSampler_call, mbind, get_node, node_at in H.
    rewrite E, Hc in H. simpl in H. now inversion H.
  - rewrite (const_call fuel w i nd c E Hidx Hc Hg) in H. now inversion H.
Qed.

Lemma same_frame_back (w w' : world V RNG) (p : nat) (nd' : ParameterSampler V RNG) :
  same_frame w w' -> nth_error (store w') p = Some nd' ->
  exists nd, nth_error (store w) p = Some nd /\ frame nd' = frame nd.
Proof.
  unfold same_frame. intros H E.
  assert (Hn : nth_error (map frame (store w)) p = Some (frame nd'))
    by (rewrite <- H, nth_error_map, E; reflexivity).
  rewrite nth_error_map in Hn.
  destruct (nth_error (store w) p) as [nd|]; simpl in Hn; [|discriminate].
  exists nd. split; [reflexivity|]. congruence.
Qed.

(** Calls keep the samplers of fixed values of a chain as they were at
    rest. *)
Lemma call_keeps_fixed (w0 : world V RNG) (fuel i : nat) (w w' : world V RNG)
      (r : outcome V) :
  fixed_fresh (store w0) -> keeps None w0 w ->
  ParameterSampler_call fuel i w = (r, w') -> keeps None w0 w'.
Proof.
  intros Hfresh Hk H.
  destruct (nth_error (store w) i) as [nd|] eqn:E.
  - destruct (active nd) eqn:Ha.
    + apply (keeps_trans None w0 w w'); [assumption|].
      apply (keeps_active i); [eapply call_keeps; eassumption|].
      unfold is_active. now rewrite E.
    + destruct (same_frame_back w0 w i nd (proj1 Hk) E) as (nd0 & E0 & Hf).
      assert (Ha0 : active nd0 = false) by (rewrite <- (frame_active _ _ Hf); exact Ha).
      assert (nd = nd0).
      { pose proof (proj2 Hk i nd0 E0 Ha0) as Hn.
        rewrite E in Hn. assert (Some nd = Some nd0) by (apply Hn; discriminate).
        congruence. }
      subst nd0. destruct (Hfresh i nd E0 Ha0) as [Hc Hg].
      rewrite (call_fixed fuel i w w' r nd E Ha Hc Hg H). assumption.
  - unfold ParameterSampler_call, mbind, get_node, node_at in H. rewrite E in H.
    inversion H; subst. assumption.
Qed.

Lemma sample_body_rel (R : world V RNG -> world V RNG -> Prop)
      (fuel : nat) (vn : list string) (req : request) :
  (forall w, R w w) -> (forall a b c, R a b -> R b c -> R a c) ->
  (forall i w r w', ParameterSampler_call fuel i w = (r, w') -> R w w') ->
  forall w (r : outcome (response V)) w', sample_body fuel vn req w = (r, w') -> R w w'.
Proof.
  intros Hrefl Htr Hcall.
  assert (Hcs : forall x w (r : outcome V) w',
             call_sampler fuel vn x w = (r, w') -> R w w').
  { intros x w r w'. unfold call_sampler. destruct (index_of x vn).
    - apply Hcall.
    - intros H; inversion H. apply Hrefl. }
  assert (Hitems : forall names w (r : outcome (response V)) w',
             (let! items <- mmap (fun name => let! v <- call_sampler fuel vn name;
                                             mret (name, v)) names;
              mret (Values (dict_of items))) w = (r, w') -> R w w').
  { intros names w r w' H.
    apply (mbind_rel R _ _ _ _ _ Htr H).
    - intros r1 w1. apply (mmap_rel R); auto.
      intros x wa ra wb Ha.
      apply (mbind_rel R _ _ _ _ _ Htr Ha); [intros; eapply Hcs; eassumption|].
      intros v wc rc wd _ Hc. inversion Hc. apply Hrefl.
    - intros items w1 r2 w2 _ H2. inversion H2. apply Hrefl. }
  intros w r w' H. destruct req as [|x|names]; simpl in H.
  - eapply Hitems; eassumption.
  - apply (mbind_rel R _ _ _ _ _ Htr H); [intros; eapply Hcs; eassumption|].
    intros v wc rc wd _ Hc. inversion Hc. apply Hrefl.
  - eapply Hitems; eassumption.
Qed.

Lemma sample_inv (fuel : nat) (req : request) (h h' : RNG)
      (self self' : ParameterSetSampler V RNG) (r : outcome (response V)) :
  sample fuel req (h, self) = (r, (h', self')) ->
  varnames self' = varnames self /\
  exists w', sample_body fuel (varnames self) req
                         (mkWorld (rng_state self) (_samplers self)) = (r, w') /\
             _samplers self' = store w'.
Proof.
  unfold sample.
  destruct (sample_body fuel (varnames self) req _) as [[res|e|] w'];
    intros H; inversion H; subst; simpl; split; try reflexivity;
    exists w'; split; reflexivity.
Qed.

(** A relation between the samplers of a chain that every call keeps is
    kept by a sequence of requests. *)
Lemma run_rel (R : world V RNG -> world V RNG -> Prop) (fuel : nat) :
  (forall w, R w w) -> (forall a b c, R a b -> R b c -> R a c) ->
  (forall a a' b b', store a = store a' -> store b = store b' -> R a b -> R a' b') ->
  (forall i w r w', ParameterSampler_call fuel i w = (r, w') -> R w w') ->
  forall reqs h h' (self self' : ParameterSetSampler V RNG) r,
    run fuel reqs (h, self) = (r, (h', self')) ->
    varnames self' = varnames self /\
    R (mkWorld (rng_state self) (_samplers self))
      (mkWorld (rng_state self') (_samplers self')).
Proof.
  intros Hrefl Htr Hst Hcall. unfold run.
  induction reqs as [|req reqs IH]; intros h h' self self' r H; simpl in H.
  - inversion H; subst. split; [reflexivity|apply Hrefl].
  - unfold mbind at 1 in H.
    destruct (sample fuel req (h, self)) as [r1 [h1 self1]] eqn:Es.
    destruct (sample_inv _ _ _ _ _ _ _ Es) as (Hv1 & w1 & Hb1 & Hs1).
    assert (R1 : R (mkWorld (rng_state self) (_samplers self))
                   (mkWorld (rng_state self1) (_samplers self1))).
    { apply (Hst _ _ w1 _ eq_refl); [symmetry; exact Hs1|].
      eapply sample_body_rel; eassumption. }
    destruct r1 as [resp|e|]; try (inversion H; subst; auto).
    unfold mbind at 1 in H.
    destruct (mmap (sample fuel) reqs (h1, self1)) as [r2 [h2 self2]] eqn:Er.
    destruct (IH _ _ _ _ _ Er) as [Hv2 R2].
    assert (self' = self2) by (destruct r2; inversion H; reflexivity).
    subst self2. split; [congruence|]. eapply Htr; eassumption.
Qed.

Lemma sampled_varnames_frame (vn : list string) (st st' : list (ParameterSampler V RNG)) :
  map frame st' = map frame st ->
  map fst (filter (fun ns => active (snd ns)) (combine vn st'))
  = map fst (filter (fun ns => active (snd ns)) (combine vn st)).
Proof.
  revert st st'; induction vn as [|x vn IH]; intros st st' H; [reflexivity|].
  destruct st as [|nd st], st' as [|nd' st']; simpl in H; try discriminate;
    [reflexivity|].
  inversion H as [[Hn Ha Hg Hp Ho Hrest]]. simpl. unfold active at 1 3.
  fold (active nd) (active nd'). rewrite Ha.
  destruct (active nd); simpl; [f_equal|]; now apply IH.
Qed.

(** Whatever is asked of a chain, and whether the requests return or
    raise, the names, the draw functions and the links of its samplers
    stay as they are, and so does the list of the variables that are
    sampled: a request changes indices and caches only. *)
Theorem sampling_keeps_frame (fuel : nat) (reqs : list request) (h h' : RNG)
        (self self' : ParameterSetSampler V RNG) (r : outcome (list (response V))) :
  run fuel reqs (h, self) = (r, (h', self')) ->
  varnames self' = varnames self /\
  map frame (_samplers self') = map frame (_samplers self) /\
  sampled_varnames self' = sampled_varnames self.
Proof.
  intros H.
  assert (Hrun : varnames self' = varnames self /\
                 same_frame (mkWorld (rng_state self) (_samplers self))
                            (mkWorld (rng_state self') (_samplers self'))).
  { apply (run_rel same_frame fuel) with (reqs := reqs) (h := h) (h' := h') (r := r).
    - reflexivity.
    - apply same_frame_trans.
    - unfold same_frame. intros a a' b b' -> ->. auto.
    - intros i w r0 w' Hc. exact (proj1 (call_keeps _ _ _ _ _ Hc)).
    - exact H. }
  destruct Hrun as [Hv Hf].
  split; [assumption|]. split; [exact Hf|].
  unfold sampled_varnames. rewrite Hv. now apply sampled_varnames_frame.
Qed.

(** *** The samplers a construction leaves *)

Lemma init_node (dists : ParameterSet V) (seed : option (pv V)) (g g' : RNG)
      (A : ParameterSetSampler V RNG) :
  ParameterSetSampler_init dists seed g = (Ok A, g') ->
  List.length (_samplers A) = List.length (varnames A) /\
  exists popnames,
    popnames_of dists = Ok popnames /\
    forall p nd, nth_error (_samplers A) p = Some nd ->
      exists x desc nd1,
        nth_error (varnames A) p = Some x /\ ps_getitem dists x = Ok desc /\
        ParameterSampler_init x desc popnames = Ok nd1 /\ same_core nd nd1.
Proof.
  intros HA.
  destruct (init_inv _ _ _ _ _ HA) as (_ & pn & ss & Hpn & Hss & Hl & Hv & _).
  destruct (omap_spec _ _ _ Hss) as [Hlen Hnth].
  destruct (link_all_spec _ _ _ (eq_sym Hlen) Hl) as (Hlen' & _ & Hcore).
  split; [now rewrite Hv|].
  exists pn. split; [assumption|].
  intros p nd E.
  assert (Hp : p < List.length ss).
  { rewrite Hlen, <- Hlen'. apply nth_error_Some. congruence. }
  destruct (nth_error ss p) as [nd1|] eqn:E1; [|apply nth_error_None in E1; lia].
  destruct (Hcore p nd1 E1) as (nd' & E' & Hc).
  assert (nd' = nd) by congruence. subst nd'.
  destruct (Hnth p nd1 E1) as (x & Ex & Hx).
  destruct (ps_getitem dists x) as [desc| |] eqn:Ed; simpl in Hx; try discriminate.
  exists x, desc, nd1. rewrite Hv. auto.
Qed.

Lemma init_fixed_fresh (dists : ParameterSet V) (seed : option (pv V)) (g g' : RNG)
      (A : ParameterSetSampler V RNG) :
  ParameterSetSampler_init dists seed g = (Ok A, g') -> fixed_fresh (_samplers A).
Proof.
  intros HA p nd E Ha.
  destruct (init_node _ _ _ _ _ HA) as (_ & pn & _ & Hn).
  destruct (Hn p nd E) as (x & desc & nd1 & _ & _ & Hi & (_ & Hidx & Hg & Hc)).
  destruct (ParameterSampler_init_fresh _ _ _ _ Hi) as (Hc1 & _ & _ & Hk).
  rewrite Hc, Hg. split; [assumption|].
  destruct Hk as [Hk|[_ Hk]]; [|assumption].
  unfold active in Ha. rewrite Hidx, Hk in Ha. discriminate.
Qed.

Lemma keeps_store (e : option nat) (a a' b b' : world V RNG) :
  store a = store a' -> store b = store b' -> keeps e a b -> keeps e a' b'.
Proof. unfold keeps, same_frame. intros -> ->. auto. Qed.

(** A variable given as a fixed value is handed out as [np.array] of that
    value at any point in the life of the chain, whatever was asked of
    the chain before and whether or not those requests returned; the
    request leaves the chain and the generator as they are. *)
Theorem fixed_value_always
        (dists : ParameterSet V) (seed : option (pv V)) (g g' h h' h2 : RNG)
        (A A' : ParameterSetSampler V RNG) (reqs : list request)
        (r : outcome (list (response V))) (fuel fuel' : nat)
        (x : string) (desc : pv V) :
  ParameterSetSampler_init dists seed g = (Ok A, g') ->
  run fuel reqs (h, A) = (r, (h', A')) ->
  Str.mem x (varnames A) = true ->
  ps_lookup dists x = Some desc -> is_set desc = false ->
  sample (S fuel') (One x) (h2, A') = (Ok (Value (np_array desc)), (h2, A')).
Proof.
  intros HA Hrun Hx Hd Hset.
  destruct (index_of_mem x (varnames A) Hx) as [i Hi].
  pose proof (index_of_nth x (varnames A) i Hi) as Hxi.
  destruct (init_node _ _ _ _ _ HA) as (Hlen & pn & _ & Hn).
  assert (Hil : i < List.length (_samplers A))
    by (rewrite Hlen; apply nth_error_Some; congruence).
  destruct (nth_error (_samplers A) i) as [nd|] eqn:E;
    [|apply nth_error_None in E; lia].
  destruct (Hn i nd E) as (x' & desc' & nd1 & Hx' & Hg' & Hi1 & (_ & Hidx & Hgs & Hc)).
  assert (x' = x) by congruence. subst x'.
  unfold ps_getitem in Hg'. rewrite Hd in Hg'. inversion Hg'; subst desc'.
  assert (Hnd1 : nd1 = mkParameterSampler x None (mret (np_array desc)) [] None None).
  { unfold ParameterSampler_init in Hi1.
    destruct desc; try discriminate; now inversion Hi1. }
  subst nd1. simpl in Hidx, Hgs, Hc.
  assert (Hk : varnames A' = varnames A /\
               (keeps None (mkWorld (rng_state A) (_samplers A))
                      (mkWorld (rng_state A) (_samplers A)) ->
                keeps None (mkWorld (rng_state A) (_samplers A))
                      (mkWorld (rng_state A') (_samplers A')))).
  { apply (run_rel (fun w w' =>
                      keeps None (mkWorld (rng_state A) (_samplers A)) w ->
                      keeps None (mkWorld (rng_state A) (_samplers A)) w') fuel)
      with (reqs := reqs) (h := h) (h' := h') (r := r).
    - auto.
    - auto.
    - intros a a' b b' Ha Hb Hab Hk. apply (keeps_store None _ _ b b' eq_refl Hb).
      apply Hab. apply (keeps_store None _ _ a' a eq_refl (eq_sym Ha)). exact Hk.
    - intros j w r0 w' Hcall Hk.
      apply (call_keeps_fixed _ fuel j w w' r0); auto.
      simpl. eapply init_fixed_fresh. eassumption.
    - exact Hrun. }
  destruct Hk as [Hv Hk]. specialize (Hk (keeps_refl _ _)).
  assert (E' : nth_error (_samplers A') i = Some nd).
  { apply (proj2 Hk i nd E); [|discriminate].
    unfold active. now rewrite Hidx. }
  unfold sample, sample_body, call_sampler. rewrite Hv, Hi.
  unfold mbind at 1.
  rewrite (const_call fuel' (mkWorld (rng_state A') (_samplers A')) i nd
                      (np_array desc) E' Hidx Hc).
  - simpl. rewrite <- Hv. destruct A'; reflexivity.
  - intros g1. now rewrite Hgs.
Qed.

(** *** The indices of a chain at work *)

(** Requests on a chain just built: they return, and leave the chain in
    a state of the canonical order. *)
Lemma run_fresh (dists : ParameterSet V) (seed : option (pv V)) (g g' h : RNG)
      (A : ParameterSetSampler V RNG) (reqs : list request) (fuel : nat) :
  ParameterSetSampler_init dists seed g = (Ok A, g') ->
  (forall nd, In nd (_samplers A) -> active nd = true -> total_draw (_get_sample nd)) ->
  forallb (request_ok (varnames A)) reqs = true ->
  enough (List.length (varnames A)) <= fuel ->
  exists resps A' k c cons,
    run fuel reqs (h, A) = (Ok resps, (h, A')) /\
    varnames A' = varnames A /\
    Inv (_samplers A) (rng_state A) k c cons
        (mkWorld (rng_state A') (_samplers A')) /\
    forall x i, index_of x (varnames A) = Some i ->
                List.length (values_of x reqs resps) = cons i.
Proof.
  intros HA Htot Hreqs Hf.
  destruct (init_Inv _ _ _ _ _ HA Htot) as (Hlk & Hdr & Hlen & HI).
  rewrite Hlen in Hf.
  destruct (run_spec (_samplers A) (rng_state A) Hlk Hdr (varnames A) Hlen fuel Hf
                     reqs 0 0 (fun _ => 0) A h eq_refl HI Hreqs)
    as (resps & A' & k & c & cons & Hrun & Hv & HI' & Hvals).
  exists resps, A', k, c, cons. repeat (split; [assumption|]).
  intros x i Hx. destruct (Hvals x i Hx) as [_ Hm].
  apply (f_equal (@List.length _)) in Hm.
  rewrite !length_map, length_seq in Hm. lia.
Qed.

Lemma Inv_active_node (st0 : list (ParameterSampler V RNG)) (g0 : RNG) (k c : nat)
      (cons : nat -> nat) (w : world V RNG) (p : nat) (nd : ParameterSampler V RNG) :
  Inv st0 g0 k c cons w -> nth_error (store w) p = Some nd -> active nd = true ->
  sampled_idx nd = Some (Z.of_nat (idx_of k c p)) /\
  cons p + List.length (_cache nd) = idx_of k c p.
Proof.
  intros HI E Ha.
  assert (Hp : p < List.length st0).
  { destruct HI as (Hl & _). rewrite <- Hl. apply nth_error_Some. congruence. }
  destruct (nth_error st0 p) as [nd0|] eqn:E0; [|apply nth_error_None in E0; lia].
  destruct (Inv_node _ _ _ _ _ _ _ _ HI E0) as (nd' & E' & (_ & _ & _ & _ & Hact)).
  assert (nd' = nd) by congruence. subst nd'.
  destruct (active nd0).
  - destruct Hact as (Hi & Hle & Hm). split; [assumption|].
    apply (f_equal (@List.length _)) in Hm.
    rewrite !length_map, length_seq in Hm. lia.
  - destruct Hact as [Hi _]. unfold active in Ha. rewrite Hi in Ha. discriminate.
Qed.

(** The samplers of a chain advance in lockstep: after any requests, the
    indices of two sampled variables differ by one at most, and the one
    that comes first in the order of the names is never behind. *)
Theorem samplers_in_lockstep
        (dists : ParameterSet V) (seed : option (pv V)) (g g' h : RNG)
        (A : ParameterSetSampler V RNG) (reqs : list request) (fuel : nat) :
  ParameterSetSampler_init dists seed g = (Ok A, g') ->
  (forall nd, In nd (_samplers A) -> active nd = true -> total_draw (_get_sample nd)) ->
  forallb (request_ok (varnames A)) reqs = true ->
  enough (List.length (varnames A)) <= fuel ->
  exists resps A',
    run fuel reqs (h, A) = (Ok resps, (h, A')) /\
    forall p q ndp ndq ip iq,
      p <= q ->
      nth_error (_samplers A') p = Some ndp -> sampled_idx ndp = Some ip ->
      nth_error (_samplers A') q = Some ndq -> sampled_idx ndq = Some iq ->
      (iq <= ip <= iq + 1)%Z.
Proof.
  intros HA Htot Hreqs Hf.
  destruct (run_fresh _ _ _ _ h _ _ _ HA Htot Hreqs Hf)
    as (resps & A' & k & c & cons & Hrun & _ & HI & _).
  exists resps, A'. split; [assumption|].
  intros p q ndp ndq ip iq Hpq Ep Hp Eq Hq.
  destruct (Inv_active_node _ _ _ _ _ _ p ndp HI Ep) as [Hp' _];
    [unfold active; now rewrite Hp|].
  destruct (Inv_active_node _ _ _ _ _ _ q ndq HI Eq) as [Hq' _];
    [unfold active; now rewrite Hq|].
  rewrite Hp in Hp'. rewrite Hq in Hq'. inversion Hp'. inversion Hq'.
  unfold idx_of. destruct (Nat.ltb_spec p c), (Nat.ltb_spec q c); lia.
Qed.

(** The index of a sampled variable counts its draws: at any time it is
    the number of values of the variable handed out so far plus the
    number of values waiting in its cache. *)
Theorem index_counts_draws
        (dists : ParameterSet V) (seed : option (pv V)) (g g' h : RNG)
        (A : ParameterSetSampler V RNG) (reqs : list request) (fuel : nat) :
  ParameterSetSampler_init dists seed g = (Ok A, g') ->
  (forall nd, In nd (_samplers A) -> active nd = true -> total_draw (_get_sample nd)) ->
  forallb (request_ok (varnames A)) reqs = true ->
  enough (List.length (varnames A)) <= fuel ->
  exists resps A',
    run fuel reqs (h, A) = (Ok resps, (h, A')) /\
    forall x i nd idx,
      index_of x (varnames A) = Some i ->
      nth_error (_samplers A') i = Some nd -> sampled_idx nd = Some idx ->
      idx = Z.of_nat (List.length (values_of x reqs resps) + List.length (_cache nd)).
Proof.
  intros HA Htot Hreqs Hf.
  destruct (run_fresh _ _ _ _ h _ _ _ HA Htot Hreqs Hf)
    as (resps & A' & k & c & cons & Hrun & _ & HI & Hvals).
  exists resps, A'. split; [assumption|].
  intros x i nd idx Hx E Hidx.
  destruct (Inv_active_node _ _ _ _ _ _ i nd HI E) as [Hi Hc];
    [unfold active; now rewrite Hidx|].
  rewrite (Hvals x i Hx), Hc. congruence.
Qed.

(** The first request for a sampled variable makes every sampled
    variable before it in the order of the names draw once, itself
    included, and none after it: the earlier ones keep their value in
    their cache, and the value returned is the one of the first round. *)
Theorem first_request_draws_earlier_once
        (dists : ParameterSet V) (seed : option (pv V)) (g g' h : RNG)
        (A : ParameterSetSampler V RNG) (x : string) (i : nat) (fuel : nat) :
  ParameterSetSampler_init dists seed g = (Ok A, g') ->
  (forall nd, In nd (_samplers A) -> active nd = true -> total_draw (_get_sample nd)) ->
  index_of x (varnames A) = Some i ->
  is_active (_samplers A) i = true ->
  enough (List.length (varnames A)) <= fuel ->
  exists v A',
    sample fuel (One x) (h, A) = (Ok (Value v), (h, A')) /\
    Ok v = canon (_samplers A) (rng_state A) i 0 /\
    forall p nd, nth_error (_samplers A') p = Some nd -> active nd = true ->
      sampled_idx nd = Some (if (p <=? i)%nat then 1%Z else 0%Z) /\
      List.length (_cache nd) = (if p <? i then 1 else 0).
Proof.
  intros HA Htot Hx Hact Hf.
  destruct (init_Inv _ _ _ _ _ HA Htot) as (Hlk & Hdr & Hlen & HI).
  rewrite Hlen in Hf. unfold enough in Hf.
  unfold is_active in Hact.
  destruct (nth_error (_samplers A) i) as [nd0|] eqn:E0; [|discriminate].
  assert (Hil : i < List.length (_samplers A)) by (apply nth_error_Some; congruence).
  destruct (sample_active (_samplers A) (rng_state A) Hlk Hdr
              (List.length (_samplers A)) 0 0 (fun _ => 0) _ i nd0 fuel None HI E0 Hact)
    as (w1 & Hs & HI1); auto; try lia.
  { unfold dist. simpl. lia. }
  simpl in HI1.
  destruct (Inv_node _ _ _ _ _ _ _ _ HI1 E0) as (nd1 & E1 & (_ & _ & _ & _ & Hok1)).
  rewrite Hact in Hok1. destruct Hok1 as (_ & _ & Hm1).
  assert (Hone : idx_of 0 (S i) i - 0 = 1).
  { unfold idx_of. destruct (Nat.ltb_spec i (S i)); lia. }
  rewrite Hone in Hm1. simpl in Hm1.
  destruct (_cache nd1) as [|v [|v' rest]] eqn:Hc1; try discriminate.
  destruct (pop_step (_samplers A) (rng_state A) Hdr 0 (S i) (fun _ => 0) w1 i nd0 nd1 v []
              HI1 E0 E1 Hc1) as (w' & Hpop & Hv & HI').
  exists v, (mkParameterSetSampler (varnames A) (store w') (np_random w')).
  split; [|split].
  - unfold sample, sample_body, call_sampler. rewrite Hx.
    unfold mbind at 1. unfold ParameterSampler_call.
    unfold mbind at 1, get_node at 1, node_at. simpl.
    destruct (Inv_node _ _ _ _ _ _ _ _ HI E0) as (nda & Ea & (_ & _ & _ & _ & Hoka)).
    simpl in Ea. rewrite Ea.
    rewrite Hact in Hoka. destruct Hoka as (_ & _ & Hma).
    unfold idx_of in Hma. simpl in Hma.
    destruct (_cache nda); [|discriminate]. cbn [List.length Nat.eqb].
    unfold mbind at 1. rewrite Hs. rewrite Hpop. reflexivity.
  - exact Hv.
  - intros p nd E Ha. simpl in E.
    destruct (Inv_active_node _ _ _ _ _ _ p nd HI' E Ha) as [Hi Hc].
    split.
    + rewrite Hi. unfold idx_of. simpl.
      destruct (Nat.ltb_spec p (S i)), (Nat.leb_spec p i); try lia; reflexivity.
    + revert Hc. unfold idx_of, upd. simpl.
      destruct (Nat.ltb_spec p (S i)), (Nat.eqb_spec p i), (Nat.ltb_spec p i); lia.
Qed.

(** *** The order of the names *)

Lemma ascii_compare_refl (c : ascii) : Ascii.compare c c = Eq.
Proof. unfold Ascii.compare. apply N.compare_refl. Qed.

Lemma ascii_compare_lt_trans (x y z : ascii) :
  Ascii.compare x y = Lt -> Ascii.compare y z = Lt -> Ascii.compare x z = Lt.
Proof.
  unfold Ascii.compare. rewrite !N.compare_lt_iff. apply N.lt_trans.
Qed.

Lemma leb_trans (a b c : string) :
  String.leb a b = true -> String.leb b c = true -> String.leb a c = true.
Proof.
  unfold String.leb. revert b c.
  induction a as [|x a IH]; intros [|y b] [|z c]; simpl; try congruence.
  destruct (Ascii.compare x y) eqn:Exy; try discriminate;
    destruct (Ascii.compare y z) eqn:Eyz; try discriminate.
  - apply Ascii.compare_eq_iff in Exy, Eyz. subst. rewrite ascii_compare_refl. apply IH.
  - apply Ascii.compare_eq_iff in Exy. subst. now rewrite Eyz.
  - apply Ascii.compare_eq_iff in Eyz. subst. now rewrite Exy.
  - now rewrite (ascii_compare_lt_trans x y z Exy Eyz).
Qed.

Lemma leb_refl (a : string) : String.leb a a = true.
Proof. destruct (String.leb_total a a); assumption. Qed.

Lemma insert_perm (x : string) (l : list string) : Permutation (Str.insert x l) (x :: l).
Proof.
  induction l as [|y l IH]; simpl; [reflexivity|].
  destruct (String.leb x y); [reflexivity|].
  rewrite IH. apply perm_swap.
Qed.

Lemma sorted_perm (l : list string) : Permutation (Str.sorted l) l.
Proof.
  induction l as [|x l IH]; simpl; [reflexivity|].
  rewrite insert_perm. now constructor.
Qed.

Lemma insert_sorted (x : string) (l : list string) :
  StronglySorted name_le l -> StronglySorted name_le (Str.insert x l).
Proof.
  induction l as [|y l IH]; simpl; intros H.
  - constructor; constructor.
  - apply StronglySorted_inv in H. destruct H as [Hs Hall].
    destruct (String.leb x y) eqn:E.
    + constructor; [constructor; assumption|].
      constructor; [exact E|].
      eapply Forall_impl; [|exact Hall]. intros z Hz. unfold name_le in *.
      eapply leb_trans; eassumption.
    + constructor; [now apply IH|].
      eapply Permutation_Forall; [symmetry; apply insert_perm|].
      constructor; [|assumption].
      unfold name_le. destruct (String.leb_total x y); congruence.
Qed.

Lemma sorted_sorted (l : list string) : StronglySorted name_le (Str.sorted l).
Proof.
  induction l as [|x l IH]; simpl; [constructor|]. now apply insert_sorted.
Qed.

Lemma sorted_unique (l1 l2 : list string) :
  StronglySorted name_le l1 -> StronglySorted name_le l2 ->
  Permutation l1 l2 -> l1 = l2.
Proof.
  revert l2; induction l1 as [|a l1 IH]; intros [|b l2] H1 H2 Hp.
  - reflexivity.
  - apply Permutation_nil in Hp. discriminate.
  - symmetry in Hp. apply Permutation_nil in Hp. discriminate.
  - apply StronglySorted_inv in H1, H2.
    destruct H1 as [S1 F1], H2 as [S2 F2].
    assert (Hab : a = b).
    { assert (Ha : In a (b :: l2)) by (eapply Permutation_in; [exact Hp|now left]).
      assert (Hb : In b (a :: l1))
        by (eapply Permutation_in; [symmetry; exact Hp|now left]).
      destruct Ha as [Ha|Ha]; [congruence|].
      destruct Hb as [Hb|Hb]; [congruence|].
      rewrite Forall_forall in F1, F2.
      apply String.leb_antisym; [apply F1|apply F2]; assumption. }
    subst b. f_equal. apply IH; auto.
    eapply Permutation_cons_inv. exact Hp.
Qed.

Lemma sorted_of_perm (l1 l2 : list string) :
  Permutation l1 l2 -> Str.sorted l1 = Str.sorted l2.
Proof.
  intros H. apply sorted_unique; try apply sorted_sorted.
  rewrite !sorted_perm. exact H.
Qed.

Lemma mem_In (x : string) (l : list string) : Str.mem x l = true <-> In x l.
Proof.
  unfold Str.mem. rewrite existsb_exists. split.
  - intros (y & Hy & E). apply String.eqb_eq in E. now subst.
  - intros H. exists x. split; [assumption|apply String.eqb_refl].
Qed.

Lemma mem_perm (x : string) (l l' : list string) :
  Permutation l l' -> Str.mem x l = Str.mem x l'.
Proof.
  intros H. apply eq_true_iff_eq. rewrite !mem_In.
  split; apply Permutation_in; [assumption|now symmetry].
Qed.

Lemma ps_lookup_perm (d d' : ParameterSet V) (k : string) :
  Permutation d d' -> NoDup (keys d) -> ps_lookup d k = ps_lookup d' k.
Proof.
  unfold keys. induction 1 as [|[k1 v1] l l' Hp IH|[k1 v1] [k2 v2] l|l l' l'' H1 IH1 H2 IH2];
    intros Hnd; simpl in *.
  - reflexivity.
  - inversion Hnd; subst. destruct (String.eqb k k1); auto.
  - inversion Hnd as [|? ? Hn _]; subst.
    destruct (String.eqb_spec k k1), (String.eqb_spec k k2); try reflexivity.
    subst. exfalso. apply Hn. now left.
  - rewrite IH1 by assumption. apply IH2.
    eapply Permutation_NoDup; [|exact Hnd]. now apply Permutation_map.
Qed.

Lemma popattrs_perm (d d' : ParameterSet V) :
  Permutation d d' -> popattrs_of d = popattrs_of d'.
Proof.
  intros H. unfold popattrs_of. apply filter_ext. intros a.
  unfold ps_contains, keys. apply mem_perm. now apply Permutation_map.
Qed.

Lemma omap_ext {A B : Type} (f f' : A -> outcome B) (l : list A) :
  (forall a, f a = f' a) -> omap f l = omap f' l.
Proof.
  intros H. induction l as [|a l IH]; simpl; [reflexivity|]. now rewrite H, IH.
Qed.

Lemma filter_perm {A : Type} (f : A -> bool) (l l' : list A) :
  Permutation l l' -> Permutation (filter f l) (filter f l').
Proof.
  induction 1 as [|x l l' Hp IH|x y l|l l' l'' H1 IH1 H2 IH2]; simpl.
  - constructor.
  - destruct (f x); [now constructor|assumption].
  - destruct (f x), (f y); try reflexivity. apply perm_swap.
  - now transitivity (filter f l').
Qed.

Lemma varnames_perm (d d' : ParameterSet V) :
  Permutation d d' -> varnames_of d = varnames_of d'.
Proof.
  intros H. unfold varnames_of. rewrite (popattrs_perm d d' H).
  apply sorted_of_perm. apply filter_perm. unfold keys. now apply Permutation_map.
Qed.

(** The order in which a specification lists its entries does not
    matter: two specifications with the same entries build the same
    chain, since the names are sorted before the samplers are made. *)
Theorem spec_order_irrelevant (dists dists' : ParameterSet V) (seed : option (pv V))
        (g : RNG) :
  Permutation dists dists' -> NoDup (keys dists) ->
  ParameterSetSampler_init dists seed g = ParameterSetSampler_init dists' seed g.
Proof.
  intros Hp Hnd.
  assert (Hl : forall k, ps_lookup dists k = ps_lookup dists' k)
    by (intros k; now apply ps_lookup_perm).
  assert (Hpn : popnames_of dists = popnames_of dists').
  { unfold popnames_of, ps_getitem. rewrite (popattrs_perm _ _ Hp).
    destruct (1 <? List.length (popattrs_of dists')); [reflexivity|].
    destruct (popattrs_of dists'); [reflexivity|]. now rewrite Hl. }
  assert (Hs : effective_seed dists seed = effective_seed dists' seed).
  { unfold effective_seed. destruct seed; [reflexivity|apply Hl]. }
  assert (Hm : forall pn, make_samplers dists pn (varnames_of dists)
                          = make_samplers dists' pn (varnames_of dists')).
  { intros pn. unfold make_samplers. rewrite (varnames_perm _ _ Hp).
    apply omap_ext. intros x. unfold ps_getitem. now rewrite Hl. }
  unfold ParameterSetSampler_init, mbind, lift.
  rewrite Hpn, Hs. rewrite (varnames_perm _ _ Hp).
  destruct (get_state g) as [[og| |] g1]; try reflexivity.
  destruct (popnames_of dists') as [pn| |]; try reflexivity.
  rewrite <- (varnames_perm _ _ Hp), Hm, (varnames_perm _ _ Hp). reflexivity.
Qed.

Lemma nodupb_NoDup (l : list string) : NoDup l -> nodupb l = true.
Proof.
  induction 1 as [|x l Hn Hnd IH]; simpl; [reflexivity|].
  rewrite IH, andb_true_r. apply negb_true_iff.
  destruct (Str.mem x l) eqn:E; [|reflexivity]. apply mem_In in E. contradiction.
Qed.

Lemma varnames_of_spec (dists : ParameterSet V) :
  StronglySorted name_le (varnames_of dists) /\
  (forall x, In x (varnames_of dists) <->
             In x (keys dists) /\ x <> "seed"%string /\ ~ In x population_attrs) /\
  (NoDup (keys dists) -> NoDup (varnames_of dists)).
Proof.
  unfold varnames_of. split; [apply sorted_sorted|]. split.
  - intros x. split.
    + intros H. apply (Permutation_in _ (sorted_perm _)) in H.
      apply filter_In in H. destruct H as [Hk Hn]. split; [assumption|].
      apply negb_true_iff in Hn.
      split.
      * intros ->. unfold Str.mem in Hn. simpl in Hn. discriminate.
      * intros Hp. assert (Hm : Str.mem x ("seed"%string :: popattrs_of dists) = true).
        { apply mem_In. right. unfold popattrs_of. apply filter_In.
          split; [assumption|]. unfold ps_contains. now apply mem_In. }
        congruence.
    + intros (Hk & Hs & Hp).
      apply (Permutation_in _ (Permutation_sym (sorted_perm _))).
      apply filter_In. split; [assumption|]. apply negb_true_iff.
      destruct (Str.mem x _) eqn:E; [|reflexivity].
      apply mem_In in E. destruct E as [E|E]; [congruence|].
      unfold popattrs_of in E. apply filter_In in E. tauto.
  - intros Hnd. eapply Permutation_NoDup; [symmetry; apply sorted_perm|].
    now apply NoDup_filter.
Qed.

(** The names of a chain are the keys of the specification other than
    [seed] and the population keys, in sorted order, each once. *)
Theorem varnames_sorted_complete
        (dists : ParameterSet V) (seed : option (pv V)) (g g' : RNG)
        (A : ParameterSetSampler V RNG) :
  ParameterSetSampler_init dists seed g = (Ok A, g') ->
  StronglySorted name_le (varnames A) /\
  (forall x, In x (varnames A) <->
             In x (keys dists) /\ x <> "seed"%string /\ ~ In x population_attrs) /\
  (NoDup (keys dists) -> NoDup (varnames A)).
Proof.
  intros HA. destruct (init_inv _ _ _ _ _ HA) as (_ & pn & ss & _ & _ & _ & Hv & _).
  rewrite Hv. apply varnames_of_spec.
Qed.

Lemma varnames_nodup (dists : ParameterSet V) (seed : option (pv V)) (g g' : RNG)
      (A : ParameterSetSampler V RNG) :
  ParameterSetSampler_init dists seed g = (Ok A, g') ->
  NoDup (keys dists) -> NoDup (varnames A).
Proof.
  intros HA. destruct (init_inv _ _ _ _ _ HA) as (_ & pn & ss & _ & _ & _ & Hv & _).
  rewrite Hv. apply varnames_of_spec.
Qed.

Lemma index_of_some_mem (x : string) (l : list string) (i : nat) :
  index_of x l = Some i -> Str.mem x l = true.
Proof.
  intros H. apply mem_In. eapply nth_error_In. eapply index_of_nth. exact H.
Qed.

(** A request for the full set returns one value for every name of the
    chain, in the order of the names; on a chain just built these are
    the values of the first round. *)
Theorem sample_all_returns_every_variable
        (dists : ParameterSet V) (seed : option (pv V)) (g g' h : RNG)
        (A : ParameterSetSampler V RNG) (fuel : nat) :
  ParameterSetSampler_init dists seed g = (Ok A, g') ->
  (forall nd, In nd (_samplers A) -> active nd = true -> total_draw (_get_sample nd)) ->
  NoDup (keys dists) ->
  enough (List.length (varnames A)) <= fuel ->
  exists items A',
    sample fuel All (h, A) = (Ok (Values items), (h, A')) /\
    map fst items = varnames A /\
    forall x i, index_of x (varnames A) = Some i ->
      exists v, dict_get x items = Some v /\
                Ok v = canon (_samplers A) (rng_state A) i 0.
Proof.
  intros HA Htot Hnd Hf.
  destruct (init_Inv _ _ _ _ _ HA Htot) as (Hlk & Hdr & Hlen & HI).
  rewrite Hlen in Hf.
  assert (Hnb : nodupb (varnames A) = true).
  { apply nodupb_NoDup.
    apply (varnames_nodup dists seed g g' A HA Hnd). }
  destruct (items_spec (_samplers A) (rng_state A) Hlk Hdr (varnames A) Hlen fuel Hf
                       (varnames A) 0 0 (fun _ => 0) _ HI
                       (forallb_mem_self (varnames A)) Hnb)
    as (items & w' & k' & c' & cons' & Hmm & _ & Hfst & Hserved).
  exists items, (mkParameterSetSampler (varnames A) (store w') (np_random w')).
  split; [|split; [assumption|]].
  - unfold sample, sample_body. unfold mbind at 1. rewrite Hmm. unfold mret.
    rewrite dict_of_nodup; [reflexivity|now rewrite Hfst].
  - intros x i Hx. specialize (Hserved x i Hx). unfold served in Hserved.
    rewrite (index_of_some_mem _ _ _ Hx) in Hserved.
    destruct Hserved as (v & Hg & Hv & _). eauto.
Qed.

(** *** The block shapes of a sampler *)

Lemma flat_map_length_const {A B : Type} (f : A -> list B) (l : list A) (n : nat) :
  (forall a, In a l -> List.length (f a) = n) ->
  List.length (flat_map f l) = List.length l * n.
Proof.
  induction l as [|a l IH]; intros H; simpl; [reflexivity|].
  rewrite length_app, H, IH; [reflexivity| |now left].
  intros b Hb. apply H. now right.
Qed.

Lemma nth_flat_map_const {A B : Type} (f : A -> list B) (l : list A) (n i j : nat)
      (a : A) :
  (forall a, In a l -> List.length (f a) = n) -> j < n ->
  nth_error l i = Some a ->
  nth_error (flat_map f l) (i * n + j) = nth_error (f a) j.
Proof.
  revert i; induction l as [|b l IH]; intros [|i] H Hj E; simpl in *; try discriminate.
  - inversion E; subst. rewrite nth_error_app1; [reflexivity|].
    rewrite H; [assumption|now left].
  - rewrite nth_error_app2 by (rewrite H; [lia|now left]).
    rewrite H by now left.
    replace (n + i * n + j - n) with (i * n + j) by lia.
    apply IH; auto.
Qed.

Lemma omap_nth {A B : Type} (f : A -> outcome B) (l : list A) (l' : list B)
      (i : nat) (x : A) :
  omap f l = Ok l' -> nth_error l i = Some x ->
  exists y, nth_error l' i = Some y /\ f x = Ok y.
Proof.
  intros H E. destruct (omap_spec _ _ _ H) as [Hlen Hn].
  assert (Hi : i < List.length l') by (rewrite Hlen; apply nth_error_Some; congruence).
  destruct (nth_error l' i) as [y|] eqn:Ey; [|apply nth_error_None in Ey; lia].
  destruct (Hn i y Ey) as (x' & Ex' & Hx'). exists y. split; [reflexivity|]. congruence.
Qed.

Lemma npops_of_len (popnames : option (pv V)) (n : nat) :
  py_len popnames = Ok n -> npops_of popnames = n.
Proof. unfold npops_of. now intros ->. Qed.

Lemma shape_loop_count (name : string) (popnames : option (pv V)) (comps : list (pv V)) :
  forall shapes pat shapes' pat',
    shape_loop (RNG := RNG) name popnames comps shapes pat = Ok (shapes', pat') ->
    pat' = pat ++ map (fun s => negb (not_str s)) comps /\
    List.length shapes' = List.length shapes * npops_of popnames ^ pop_axes comps /\
    forall n, Forall (fun sh => List.length sh = n) shapes ->
              Forall (fun sh => List.length sh = n + List.length comps) shapes'.
Proof.
  induction comps as [|s comps IH]; intros shapes pat shapes' pat' H.
  - simpl in H. inversion H; subst. rewrite app_nil_r. unfold pop_axes. simpl.
    split; [reflexivity|]. split; [lia|].
    intros n Hn. eapply Forall_impl; [|exact Hn]. simpl. intros; lia.
  - assert (Hplain : not_str s = true ->
              shape_loop (RNG := RNG) name popnames comps
                         (map (fun r => r ++ [s]) shapes) (pat ++ [false])
              = Ok (shapes', pat') ->
              pat' = pat ++ map (fun s => negb (not_str s)) (s :: comps) /\
              List.length shapes'
              = List.length shapes * npops_of popnames ^ pop_axes (s :: comps) /\
              forall n, Forall (fun sh => List.length sh = n) shapes ->
                Forall (fun sh => List.length sh = n + List.length (s :: comps)) shapes').
    { intros Hs H'. destruct (IH _ _ _ _ H') as (Hp & Hl & Hf).
      split; [|split].
      - rewrite Hp, <- app_assoc. simpl. now rewrite Hs.
      - rewrite Hl, length_map. unfold pop_axes. simpl. now rewrite Hs.
      - intros n Hn. simpl. replace (n + S (List.length comps))
          with (S n + List.length comps) by lia.
        apply Hf. apply Forall_map. eapply Forall_impl; [|exact Hn].
        simpl. intros sh Hsh. rewrite length_app. simpl. lia. }
    destruct s as [z|v|s|l|m]; try (apply Hplain; [reflexivity|exact H]).
    simpl in H.
    destruct (py_len popnames) as [npops| |] eqn:Elen; simpl in H; try discriminate.
    destruct (Nat.eqb_spec (List.length (Str.split s "+")) npops) as [El|];
      simpl in H; [|discriminate].
    destruct (omap (int_of (RNG := RNG)) (Str.split s "+")) as [sizes| |] eqn:Es; simpl in H;
      try discriminate.
    destruct (omap_spec _ _ _ Es) as [Hsz _].
    destruct (IH _ _ _ _ H) as (Hp & Hl & Hf).
    split; [|split].
    + rewrite Hp, <- app_assoc. reflexivity.
    + rewrite Hl. rewrite (flat_map_length_const _ _ npops).
      * rewrite (npops_of_len _ _ Elen). unfold pop_axes. simpl. lia.
      * intros r _. rewrite length_map. congruence.
    + intros n Hn. simpl. replace (n + S (List.length comps))
        with (S n + List.length comps) by lia.
      apply Hf. apply Forall_flat_map. eapply Forall_impl; [|exact Hn].
      simpl. intros sh Hsh. apply Forall_map. apply Forall_forall.
      intros p _. rewrite length_app. simpl. lia.
Qed.

(** The loop over the components of a shape marks the components given
    as strings as population axes, and makes one block shape for every
    combination of populations over these axes: [len(popnames)] to the
    number of such axes.  Without a population axis there is one shape,
    as [__init__] asserts; every block shape has one entry for every
    component. *)
Theorem shape_loop_counts (name : string) (popnames : option (pv V))
        (comps : list (pv V)) (shapes : list (list (pv V))) (pat : list bool) :
  shape_loop (RNG := RNG) name popnames comps [[]] [] = Ok (shapes, pat) ->
  pat = map (fun s => negb (not_str s)) comps /\
  List.length shapes = npops_of popnames ^ pop_axes comps /\
  (forallb negb pat = true -> List.length shapes = 1) /\
  Forall (fun sh => List.length sh = List.length comps) shapes.
Proof.
  intros H. destruct (shape_loop_count _ _ _ _ _ _ _ H) as (Hp & Hl & Hf).
  simpl in Hp, Hl. rewrite Nat.add_0_r in Hl.
  split; [assumption|]. split; [assumption|]. split.
  - intros Hall. rewrite Hl.
    assert (Hz : pop_axes comps = 0).
    { subst pat. unfold pop_axes. clear -Hall.
      induction comps as [|s comps IH]; [reflexivity|]. simpl in *.
      apply andb_true_iff in Hall. destruct Hall as [Hs Hall].
      rewrite negb_involutive in Hs. rewrite Hs. simpl. now apply IH. }
    now rewrite Hz.
  - apply (Hf 0). repeat constructor.
Qed.

(** A shape of two population axes: the block for the populations
    number [p1] and [p2] is looked up at [shapes[p1 * n + p2]], and this
    is the shape made of part [p1] of the first component and part [p2]
    of the second, so the lookup never leaves the list. *)
Theorem block_shapes_two_axes (name : string) (pops : list (pv V)) (a b : string)
        (shapes : list (list (pv V))) (pat : list bool)
        (p1 p2 : nat) (x y : string) :
  shape_loop (RNG := RNG) name (Some (PList pops)) [PStr a; PStr b] [[]] []
  = Ok (shapes, pat) ->
  nth_error (Str.split a "+") p1 = Some x ->
  nth_error (Str.split b "+") p2 = Some y ->
  pat = [true; true] /\
  exists zx zy,
    py_int x = Some zx /\ py_int y = Some zy /\
    nth_shape shapes (p1 * List.length pops + p2) = Ok [PInt zx; PInt zy].
Proof.
  intros H Ex Ey. simpl in H.
  destruct (Nat.eqb_spec (List.length (Str.split a "+")) (List.length pops)) as [Ea|];
    simpl in H; [|discriminate].
  destruct (omap (int_of (RNG := RNG)) (Str.split a "+")) as [sa| |] eqn:Esa; simpl in H;
    try discriminate.
  destruct (Nat.eqb_spec (List.length (Str.split b "+")) (List.length pops)) as [Eb|];
    simpl in H; [|discriminate].
  destruct (omap (int_of (RNG := RNG)) (Str.split b "+")) as [sb| |] eqn:Esb; simpl in H;
    try discriminate.
  inversion H; subst shapes pat. split; [reflexivity|].
  destruct (omap_nth _ _ _ _ _ Esa Ex) as (vx & Hvx & Hix).
  destruct (omap_nth _ _ _ _ _ Esb Ey) as (vy & Hvy & Hiy).
  unfold int_of in Hix, Hiy.
  destruct (py_int x) as [zx|]; [|discriminate].
  destruct (py_int y) as [zy|]; [|discriminate].
  inversion Hix; subst vx. inversion Hiy; subst vy.
  exists zx, zy. split; [reflexivity|]. split; [reflexivity|].
  destruct (omap_spec _ _ _ Esb) as [Hlb _].
  unfold nth_shape. rewrite app_nil_r.
  rewrite (nth_flat_map_const _ _ (List.length pops) p1 p2 [PInt zx]).
  - rewrite nth_error_map, Hvy. reflexivity.
  - intros r _. rewrite length_map. congruence.
  - rewrite <- Eb. apply nth_error_Some. congruence.
  - rewrite nth_error_map, Hvx. reflexivity.
Qed.

Lemma shape_loop_no_populations (name : string) (comps : list (pv V)) :
  existsb (fun s => negb (not_str s)) comps = true ->
  forall shapes pat,
    shape_loop (RNG := RNG) name None comps shapes pat
    = Raise (TypeError "object of type 'NoneType' has no len()").
Proof.
  induction comps as [|s comps IH]; intros H shapes pat; simpl in H; [discriminate|].
  destruct s; simpl in H; try (simpl; now apply IH).
  reflexivity.
Qed.

(** A shape with a population axis in a specification that declares no
    populations: [len(popnames)] is asked of [None], and construction of
    the sampler ends in a [TypeError]. *)
Theorem population_axis_needs_populations (name : string) (d : ParameterSet V)
        (comps : list (pv V)) :
  ps_contains d "dist" = true ->
  desc_shape d = Ok comps ->
  existsb (fun s => negb (not_str s)) comps = true ->
  ParameterSampler_init (RNG := RNG) name (PSet d) None
  = Raise (TypeError "object of type 'NoneType' has no len()").
Proof.
  intros Hd Hsh Hs. unfold ParameterSampler_init. rewrite Hd, Hsh. simpl.
  now rewrite shape_loop_no_populations.
Qed.

(** *** Requests that fail *)

Lemma index_of_none (x : string) (l : list string) :
  Str.mem x l = false -> index_of x l = None.
Proof.
  unfold Str.mem. induction l as [|y l IH]; simpl; [reflexivity|].
  intros H. apply orb_false_iff in H. destruct H as [H1 H2].
  rewrite H1. now rewrite IH.
Qed.

Lemma mmap_app_raise {St A B : Type} (f : A -> M St B) (pre post : list A) (bad : A)
      (e : exn) (items : list B) (w w1 w2 : St) :
  mmap f pre w = (Ok items, w1) -> f bad w1 = (Raise e, w2) ->
  mmap f (pre ++ bad :: post) w = (Raise e, w2).
Proof.
  revert items w. induction pre as [|a pre IH]; intros items w Hpre Hbad; simpl in *.
  - inversion Hpre; subst. unfold mbind. now rewrite Hbad.
  - unfold mbind at 1 in Hpre. unfold mbind at 1.
    destruct (f a w) as [[b|e'|] wa]; try discriminate.
    unfold mbind at 1 in Hpre. unfold mbind at 1.
    destruct (mmap f pre wa) as [[bs|e'|] wb] eqn:Em; try discriminate.
    inversion Hpre; subst. rewrite (IH bs wa Em Hbad). reflexivity.
Qed.

(** A list request that names an undeclared variable raises [KeyError],
    but only after the variables named before it have been drawn: one
    value of each of them is gone (its index is one more than the number
    of values in its cache, where the two are equal for every other
    variable).  The ambient generator is left in the state the draws
    reached, and the state the chain keeps for itself is not updated. *)
Theorem undeclared_name_in_list
        (dists : ParameterSet V) (seed : option (pv V)) (g g' h : RNG)
        (A : ParameterSetSampler V RNG) (pre post : list string) (bad : string)
        (fuel : nat) :
  ParameterSetSampler_init dists seed g = (Ok A, g') ->
  (forall nd, In nd (_samplers A) -> active nd = true -> total_draw (_get_sample nd)) ->
  forallb (fun x => Str.mem x (varnames A)) pre = true -> nodupb pre = true ->
  Str.mem bad (varnames A) = false ->
  enough (List.length (varnames A)) <= fuel ->
  exists k c A',
    sample fuel (Many (pre ++ bad :: post)) (h, A)
    = (Raise (KeyError bad), (gen_state (_samplers A) (rng_state A) k c, A')) /\
    rng_state A' = rng_state A /\ varnames A' = varnames A /\
    forall x i nd,
      index_of x (varnames A) = Some i ->
      nth_error (_samplers A') i = Some nd -> active nd = true ->
      sampled_idx nd
      = Some (Z.of_nat ((if Str.mem x pre then 1 else 0) + List.length (_cache nd))).
Proof.
  intros HA Htot Hpre Hnd Hbad Hf.
  destruct (init_Inv _ _ _ _ _ HA Htot) as (Hlk & Hdr & Hlen & HI).
  rewrite Hlen in Hf.
  destruct (items_spec (_samplers A) (rng_state A) Hlk Hdr (varnames A) Hlen fuel Hf
                       pre 0 0 (fun _ => 0) _ HI Hpre Hnd)
    as (items & w' & k & c & cons & Hmm & HI' & _ & Hserved).
  exists k, c, (mkParameterSetSampler (varnames A) (store w') (rng_state A)).
  split; [|split; [reflexivity|split; [reflexivity|]]].
  - unfold sample, sample_body. unfold mbind at 1.
    rewrite (mmap_app_raise _ pre post bad (KeyError bad) items _ w' w' Hmm).
    + destruct HI' as (_ & _ & -> & _). reflexivity.
    + unfold mbind, call_sampler. rewrite (index_of_none _ _ Hbad). reflexivity.
  - intros x i nd Hx E Ha. simpl in E.
    destruct (Inv_active_node _ _ _ _ _ _ i nd HI' E Ha) as [Hi Hc].
    rewrite Hi, <- Hc. specialize (Hserved x i Hx). unfold served in Hserved.
    destruct (Str.mem x pre).
    + destruct Hserved as (_ & _ & _ & ->). reflexivity.
    + destruct Hserved as [_ ->]. reflexivity.
Qed.

(** A specification without variables: the constructor fails with
    [IndexError] on [self.varnames[0]], after the seed has been set, and
    leaves the ambient generator seeded. *)
Theorem empty_specification_raises
        (dists : ParameterSet V) (seed : option (pv V)) (s : pv V) (g gs : RNG)
        (popnames : option (pv V)) :
  varnames_of dists = [] ->
  popnames_of dists = Ok popnames ->
  effective_seed dists seed = Some s -> np_random_seed s = Ok gs ->
  ParameterSetSampler_init dists seed g
  = (Raise (IndexError "list index out of range"), gs).
Proof.
  intros Hv Hpn Hs Hgs.
  unfold ParameterSetSampler_init, mbind, get_state, set_state, lift, mret.
  rewrite Hpn, Hs, Hgs, Hv. reflexivity.
Qed.

(** *** The links of a chain *)

Lemma init_linked (dists : ParameterSet V) (seed : option (pv V)) (g g' : RNG)
      (A : ParameterSetSampler V RNG) :
  ParameterSetSampler_init dists seed g = (Ok A, g') -> linked (_samplers A).
Proof.
  intros HA.
  destruct (init_inv _ _ _ _ _ HA) as (_ & pn & ss & _ & Hss & Hl & _ & _).
  destruct (omap_spec _ _ _ Hss) as [Hlen _].
  now destruct (link_all_spec _ _ _ (eq_sym Hlen) Hl) as (_ & Hlinked & _).
Qed.

(** In a chain as the constructor links it, [previous] of a sampled
    variable is the nearest sampled variable before it in the ring of
    the sorted names, the fixed values in between being skipped, and
    [previous_offset] is 0 when that variable comes earlier in the
    order and -1 when the way to it goes around the end of the ring (as
    for the first sampled variable, and for the only one). *)
Theorem previous_is_nearest_sampled
        (dists : ParameterSet V) (seed : option (pv V)) (g g' : RNG)
        (A : ParameterSetSampler V RNG) (i fuel : nat) :
  ParameterSetSampler_init dists seed g = (Ok A, g') ->
  i < List.length (_samplers A) -> is_active (_samplers A) i = true ->
  List.length (_samplers A) + 1 <= fuel ->
  exists p off,
    previous fuel (_samplers A) i = Ok p /\
    previous_offset fuel (_samplers A) i = Ok off /\
    p < List.length (_samplers A) /\ is_active (_samplers A) p = true /\
    ((off = 0%Z /\ p < i /\ forall q, p < q < i -> is_active (_samplers A) q = false) \/
     (off = (-1)%Z /\ i <= p /\
      (forall q, q < i -> is_active (_samplers A) q = false) /\
      forall q, p < q < List.length (_samplers A) -> is_active (_samplers A) q = false)).
Proof.
  intros HA Hi Ha Hf.
  pose proof (init_linked _ _ _ _ _ HA) as Hlk.
  destruct (previous_spec (_samplers A) Hlk i Hi Ha fuel Hf) as [Hp Ho].
  destruct (prev_of_spec (_samplers A) i Hi Ha) as (Hpl & Hpa & Hcases).
  exists (fst (prev_of (_samplers A) i)), (snd (prev_of (_samplers A) i)).
  auto.
Qed.

End Edges.

(** ** Expansion of parameter descriptions *)

Section Expand.

Local Open Scope nat_scope.
Local Open Scope list_scope.

Import Expansion.

Lemma el_ok_mono (st b b' : nat) (kv : nat * option text) :
  b <= b' -> el_ok st b kv -> el_ok st b' kv.
Proof. intros H (e & He & Hl). exists e. split; [assumption|lia]. Qed.

Lemma open_ok_S (i : nat) (b : Block) : open_ok i b -> open_ok (S i) b.
Proof.
  intros (es & p & He & Hs & Hp & Hall). exists es, p.
  repeat (split; [assumption || lia|]).
  eapply Forall_impl; [|exact Hall]. intros kv [H1 H2]. split; [assumption|].
  eapply el_ok_mono; [|exact H2]. lia.
Qed.

Lemma nset_last {A : Type} (es : list (nat * A)) (p : nat) (v v' : A) :
  Forall (fun kv => fst kv < p) es ->
  nset p v' (es ++ [(p, v)]) = es ++ [(p, v')].
Proof.
  induction es as [|[k x] es IH]; intros H; simpl.
  - now rewrite Nat.eqb_refl.
  - inversion H; subst. simpl in *.
    destruct (Nat.eqb_spec p k); [lia|]. f_equal. now apply IH.
Qed.

Lemma nset_new {A : Type} (es : list (nat * A)) (p : nat) (v : A) :
  Forall (fun kv => fst kv < p) es -> nset p v es = es ++ [(p, v)].
Proof.
  induction es as [|[k x] es IH]; intros H; simpl; [reflexivity|].
  inversion H; subst. simpl in *.
  destruct (Nat.eqb_spec p k); [lia|]. f_equal. now apply IH.
Qed.

Lemma last_key_app {A : Type} (es : list (nat * A)) (p : nat) (v : A) :
  last_key (es ++ [(p, v)]) = Ok p.
Proof. unfold last_key. now rewrite rev_app_distr. Qed.

Lemma slice_length (s : text) (a b : nat) : List.length (slice s a b) <= b - a.
Proof. unfold slice. rewrite length_firstn. lia. Qed.

Lemma Forall_nset {A : Type} (Q : nat * A -> Prop) (k : nat) (v : A) (d : list (nat * A)) :
  Q (k, v) -> Forall Q d -> Forall Q (nset k v d).
Proof.
  intros Hq. induction d as [|[k' v'] d IH]; intros H; simpl.
  - now constructor.
  - inversion H; subst. destruct (k =? k'); constructor; auto.
Qed.

Lemma end_element_ok (s : text) (i : nat) (b : Block) :
  open_ok i b ->
  exists es p,
    elements b = es ++ [(p, None)] /\ start b < p /\ p <= i /\
    Forall (fun kv => fst kv < p /\ el_ok (start b) i kv) es /\
    end_element s i b = Ok (set_elements (es ++ [(p, Some (slice s p i))]) b).
Proof.
  intros (es & p & He & Hs & Hp & Hall). exists es, p.
  repeat (split; [assumption|]).
  unfold end_element. rewrite He, last_key_app. simpl.
  rewrite nset_last; [reflexivity|].
  eapply Forall_impl; [|exact Hall]. now intros kv [H _].
Qed.

Lemma step_ok (self : Parser) (s : text) (n i : nat) (c : ascii) (st st' : pstate) :
  state_ok n i st -> i < n -> step self s i c st = Ok st' -> state_ok n (S i) st'.
Proof.
  intros [Hopen Hclosed] Hi. unfold step.
  destruct (amem c (open_brackets self)).
  - destruct (get_closer self c) as [cl| |]; simpl; try discriminate.
    intros H; inversion H; subst. split; [|assumption]. simpl.
    constructor.
    + exists [], (i + 1). simpl. repeat split; try lia. constructor.
    + destruct (block_stack st) as [|top rest]; [constructor|].
      inversion Hopen; subst. constructor.
      * apply open_ok_S. destruct H2 as (es & p & He & Hrest).
        exists es, p. simpl. split; assumption.
      * eapply Forall_impl; [|eassumption]. apply open_ok_S.
  - destruct (amem c (close_brackets self)).
    + destruct (block_stack st) as [|b rest] eqn:Est; [discriminate|].
      simpl. destruct (negb (Ascii.eqb c (closer b))); [discriminate|].
      inversion Hopen; subst.
      assert (Hb : open_ok i (set_stop (i + 1) b)).
      { destruct H1 as (es & p & He & Hrest). exists es, p. simpl. split; assumption. }
      destruct (end_element_ok s i _ Hb) as (es & p & He & Hs & Hp & Hall & ->).
      simpl. intros H; inversion H; subst. simpl. split.
      * eapply Forall_impl; [|eassumption]. apply open_ok_S.
      * apply Forall_nset; [|assumption].
        split; [reflexivity|]. simpl. exists (i + 1).
        split; [reflexivity|]. split; [lia|].
        apply Forall_app. split.
        -- eapply Forall_impl; [|exact Hall]. intros kv [_ Hk].
           eapply el_ok_mono; [|exact Hk]. lia.
        -- constructor; [|constructor]. eexists. split; [reflexivity|].
           pose proof (slice_length s p i). simpl in Hs. lia.
    + destruct (amem c (separators self)).
      * destruct (block_stack st) as [|b rest] eqn:Est; [discriminate|].
        inversion Hopen; subst.
        destruct (end_element_ok s i _ H1) as (es & p & He & Hs & Hp & Hall & ->).
        simpl. intros H; inversion H; subst. simpl. split; [|assumption].
        constructor.
        -- exists (es ++ [(p, Some (slice s p i))]), (i + 1). simpl.
           split.
           { rewrite nset_new; [reflexivity|].
             apply Forall_app. split.
             - eapply Forall_impl; [|exact Hall]. intros kv [Hk _]. lia.
             - constructor; [simpl; lia|constructor]. }
           split; [lia|]. split; [lia|].
           apply Forall_app. split.
           { eapply Forall_impl; [|exact Hall]. intros kv [Hk1 Hk2].
             split; [lia|]. eapply el_ok_mono; [|exact Hk2]. lia. }
           constructor; [|constructor]. simpl. split; [lia|].
           eexists. split; [reflexivity|].
           pose proof (slice_length s p i). lia.
        -- eapply Forall_impl; [|eassumption]. apply open_ok_S.
      * intros H; inversion H; subst. split; [|assumption].
        eapply Forall_impl; [|eassumption]. apply open_ok_S.
Qed.

Lemma scan_ok (self : Parser) (s : text) (n : nat) (chars : text) :
  forall i st st',
    state_ok n i st -> i + List.length chars <= n ->
    scan self s i chars st = Ok st' -> state_ok n (i + List.length chars) st'.
Proof.
  induction chars as [|c chars IH]; intros i st st' Hok Hn H; simpl in *.
  - injection H as <-. now rewrite Nat.add_0_r.
  - destruct (step self s i c st) as [st1| |] eqn:Es; simpl in H; try discriminate.
    rewrite <- Nat.add_succ_comm.
    apply (IH (S i) st1 st'); [|lia|assumption].
    eapply step_ok; [eassumption|lia|eassumption].
Qed.

Lemma extract_blocks_ok (self : Parser) (s : text) (bl : list (nat * Block)) :
  extract_blocks self s = Ok bl -> Forall (closed_ok (List.length s)) bl.
Proof.
  unfold extract_blocks.
  destruct (scan self s 0 s (mkState [] [])) as [st| |] eqn:Es; simpl; try discriminate.
  destruct (block_stack st); [|discriminate].
  intros H; inversion H; subst.
  apply (scan_ok self s (List.length s) s 0 (mkState [] []) st); auto.
  split; constructor.
Qed.

Lemma nget_In {A : Type} (k : nat) (d : list (nat * A)) (v : A) :
  nget k d = Some v -> In (k, v) d.
Proof.
  induction d as [|[k' v'] d IH]; simpl; [discriminate|].
  destruct (Nat.eqb_spec k k'); [|auto].
  intros H; inversion H; subst. now left.
Qed.

Lemma expand_scan_shorter (self : Parser) (s : text) (fail : bool)
      (bl : list (nat * Block)) (chars : text) :
  Forall (closed_ok (List.length s)) bl ->
  forall i strs d,
    expand_scan self s fail bl i chars = Ok (strs, d) ->
    (d = true /\ strs = [s]) \/
    (d = false /\ Forall (fun c => List.length c + 3 <= List.length s) strs).
Proof.
  intros Hbl. induction chars as [|c chars IH]; intros i strs d H; simpl in H.
  - inversion H; subst. now left.
  - destruct (amem c (expanders self)); [|eapply IH; eassumption].
    destruct (nget (i + 1) bl) as [b|] eqn:Eb.
    + inversion H; subst. right. split; [reflexivity|].
      apply nget_In in Eb. rewrite Forall_forall in Hbl.
      destruct (Hbl _ Eb) as (Hst & j & Hj & Hjn & Hel). simpl in *.
      apply Forall_map. eapply Forall_impl; [|exact Hel].
      intros kv (e & He & Hle). rewrite He, Hj. simpl.
      rewrite !length_app, length_firstn, length_skipn. lia.
    + destruct fail; [discriminate|]. eapply IH; eassumption.
Qed.

Lemma _expand_shorter (s : text) (fail : bool) (parser : Parser)
      (strs : list text) (d : bool) :
  _expand s fail parser = Ok (strs, d) ->
  (d = true /\ strs = [s]) \/
  (d = false /\ Forall (fun c => List.length c + 3 <= List.length s) strs).
Proof.
  unfold _expand.
  destruct (extract_blocks parser s) as [bl| |] eqn:Eb; simpl; try discriminate.
  intros H. eapply expand_scan_shorter; [|exact H].
  eapply extract_blocks_ok; eassumption.
Qed.

Lemma step_fuel (self : Parser) (s : text) (i : nat) (c : ascii) (st : pstate) :
  step self s i c st <> OutOfFuel.
Proof.
  unfold step, end_element, last_key, get_closer, nth_bracket.
  repeat match goal with
         | |- context [if ?b then _ else _] => destruct b
         | |- context [match ?x with _ => _ end] => destruct x
         end; simpl; discriminate.
Qed.

Lemma scan_fuel (self : Parser) (s : text) (chars : text) :
  forall i st, scan self s i chars st <> OutOfFuel.
Proof.
  induction chars as [|c chars IH]; intros i st; simpl; [discriminate|].
  pose proof (step_fuel self s i c st).
  destruct (step self s i c st); simpl; [apply IH|discriminate|congruence].
Qed.

Lemma _expand_fuel (s : text) (fail : bool) (parser : Parser) :
  _expand s fail parser <> OutOfFuel.
Proof.
  unfold _expand, extract_blocks.
  pose proof (scan_fuel parser s s 0 (mkState [] [])).
  destruct (scan parser s 0 s _) as [st| |]; simpl; [|discriminate|congruence].
  destruct (block_stack st); simpl; [|discriminate].
  generalize 0. generalize s at 2 as chars.
  induction chars as [|c chars IH]; intros i; simpl; [discriminate|].
  destruct (amem c (expanders parser)); [|apply IH].
  destruct (nget (i + 1) (closed st)); [discriminate|].
  destruct fail; [discriminate|apply IH].
Qed.

Lemma omap_fuel {A B : Type} (f : A -> outcome B) (l : list A) :
  (forall a, f a <> OutOfFuel) -> omap f l <> OutOfFuel.
Proof.
  intros H. induction l as [|a l IH]; simpl; [discriminate|].
  specialize (H a). destruct (f a); simpl; [|discriminate|congruence].
  destruct (omap f l); simpl; [discriminate|discriminate|congruence].
Qed.

Lemma expand_while_ends (fail : bool) (parser : Parser) (n : nat) :
  forall strs,
    Forall (fun s => settled fail parser s \/ List.length s < n) strs ->
    expand_while (S n) fail parser strs <> OutOfFuel.
Proof.
  induction n as [|n IH]; intros strs Hs.
  - simpl.
    destruct (omap _ strs) as [res| |] eqn:Eo; simpl;
      [|discriminate|exfalso; revert Eo; apply omap_fuel; intros; apply _expand_fuel].
    assert (Hall : forallb snd res = true).
    { revert res Eo. induction strs as [|s strs IHs]; intros res Eo; simpl in Eo.
      - inversion Eo. reflexivity.
      - inversion Hs; subst. destruct H1 as [H1|H1]; [|lia].
        unfold settled in H1. rewrite H1 in Eo. simpl in Eo.
        destruct (omap _ strs) as [res'| |]; simpl in Eo; try discriminate.
        inversion Eo; subst. simpl. now apply IHs. }
    rewrite Hall. discriminate.
  - cbn [expand_while].
    destruct (omap _ strs) as [res| |] eqn:Eo; cbn [obind];
      [|discriminate|exfalso; revert Eo; apply omap_fuel; intros; apply _expand_fuel].
    destruct (forallb snd res); [discriminate|].
    apply IH.
    revert res Eo. induction strs as [|s strs IHs]; intros res Eo; simpl in Eo.
    + inversion Eo. constructor.
    + inversion Hs; subst.
      destruct (_expand s fail parser) as [[ss d]| |] eqn:Ee; simpl in Eo; try discriminate.
      destruct (omap _ strs) as [res'| |]; simpl in Eo; try discriminate.
      inversion Eo; subst. simpl. apply Forall_app. split; [|now apply IHs].
      destruct (_expand_shorter _ _ _ _ _ Ee) as [[-> ->]|[-> Hsh]].
      * constructor; [|constructor]. left. exact Ee.
      * eapply Forall_impl; [|exact Hsh]. intros c Hc. right.
        destruct H1 as [H1|H1]; [unfold settled in H1; congruence|].
        simpl in Hc. lia.
Qed.
Lemma scan_app (self : Parser) (s : text) (a b : text) :
  forall i st,
    scan self s i (a ++ b) st
    = obind (scan self s i a st) (fun st1 => scan self s (i + List.length a) b st1).
Proof.
  induction a as [|c a IH]; intros i st; simpl.
  - now rewrite Nat.add_0_r.
  - destruct (step self s i c st) as [st1| |]; simpl; try reflexivity.
    rewrite IH. now rewrite Nat.add_succ_r.
Qed.

Lemma step_plain (self : Parser) (s : text) (i : nat) (c : ascii) (st : pstate) :
  plain self c = true -> step self s i c st = Ok st.
Proof.
  unfold plain, step. intros H.
  apply andb_true_iff in H. destruct H as [H H3].
  apply andb_true_iff in H. destruct H as [H1 H2].
  apply negb_true_iff in H1, H2, H3. now rewrite H1, H2, H3.
Qed.

Lemma scan_plain (self : Parser) (s : text) (chars : text) :
  forallb (plain self) chars = true ->
  forall i st, scan self s i chars st = Ok st.
Proof.
  induction chars as [|c chars IH]; intros H i st; simpl; [reflexivity|].
  simpl in H. apply andb_true_iff in H. destruct H as [Hc H].
  rewrite (step_plain _ _ _ _ _ Hc). simpl. now apply IH.
Qed.

Lemma slice_at (s : text) (i : nat) (e tail : text) :
  skipn i s = e ++ tail -> slice s i (i + List.length e) = e.
Proof.
  intros H. unfold slice. rewrite H.
  replace (i + List.length e - i) with (List.length e) by lia.
  rewrite firstn_app, Nat.sub_diag, firstn_all. simpl. now rewrite app_nil_r.
Qed.

Lemma skipn_more {A : Type} (s : list A) (i : nat) (a b : list A) :
  skipn i s = a ++ b -> skipn (i + List.length a) s = b.
Proof.
  intros H. rewrite Nat.add_comm, <- skipn_skipn, H.
  rewrite skipn_app, skipn_all, Nat.sub_diag. reflexivity.
Qed.

(** Scanning the elements of a flat block. *)
Lemma scan_elements (s : text) (els : list text) :
  Forall (fun e => forallb (plain default_parser) e = true) els -> els <> [] ->
  forall i b rest cl es tail,
    elements b = es ++ [(i, None)] ->
    Forall (fun kv => fst kv < i) es ->
    skipn i s = join_with ","%char els ++ tail ->
    exists es' q,
      scan default_parser s i (join_with ","%char els) (mkState (b :: rest) cl)
      = Ok (mkState (set_elements (es' ++ [(q, None)]) b :: rest) cl) /\
      Forall (fun kv => fst kv < q) es' /\
      map snd es' = map snd es ++ map Some (removelast els) /\
      q + List.length (last els []) = i + List.length (join_with ","%char els) /\
      skipn q s = last els [] ++ tail.
Proof.
  induction els as [|e els IH]; intros Hpl Hne i b rest cl es tail He Hk Hs;
    [contradiction|].
  inversion Hpl as [|? ? Hp Hpl']; subst.
  destruct els as [|e' els].
  - simpl in *. exists es, i. rewrite scan_plain by assumption.
    split; [|split; [assumption|split; [now rewrite app_nil_r|split; [reflexivity|assumption]]]].
    rewrite <- He. destruct b; reflexivity.
  - change (join_with ","%char (e :: e' :: els))
      with (e ++ ","%char :: join_with ","%char (e' :: els)) in *.
    rewrite scan_app, scan_plain by assumption. cbn [obind scan].
    rewrite <- app_assoc in Hs.
    assert (Hsl : slice s i (i + List.length e) = e) by (eapply slice_at; eassumption).
    assert (Hstep : step default_parser s (i + List.length e) ","%char
                         (mkState (b :: rest) cl)
                    = Ok (mkState
                            (set_elements (es ++ [(i, Some e)]
                                              ++ [(i + List.length e + 1, None)]) b
                                          :: rest) cl)).
    { unfold step. cbn [amem existsb default_parser open_brackets close_brackets
                        separators Ascii.eqb orb block_stack].
      simpl. unfold end_element. rewrite He, last_key_app. simpl.
      rewrite nset_last by assumption. rewrite Hsl. simpl.
      rewrite nset_new.
      - now rewrite <- app_assoc.
      - apply Forall_app. split.
        + eapply Forall_impl; [|exact Hk]. simpl. intros; lia.
        + constructor; [simpl; lia|constructor]. }
    rewrite Hstep. cbn [obind].
    destruct (IH Hpl' ltac:(discriminate) (S (i + List.length e))
                 (set_elements (es ++ [(i, Some e)] ++ [(i + List.length e + 1, None)]) b)
                 rest cl (es ++ [(i, Some e)]) tail)
      as (es' & q & Hscan & Hq & Hm & Hl & Hsk).
    + cbn [elements set_elements]. rewrite app_assoc. do 3 f_equal. lia.
    + apply Forall_app. split.
      * eapply Forall_impl; [|exact Hk]. simpl. intros; lia.
      * constructor; [simpl; lia|constructor].
    + apply skipn_more in Hs. rewrite <- Nat.add_1_r, <- Nat.add_assoc.
      rewrite Nat.add_comm in Hs. rewrite Nat.add_comm.
      replace (List.length e + 1 + i) with (1 + (List.length e + i)) by lia.
      rewrite <- skipn_skipn, Hs. reflexivity.
    + exists es', q. split; [|split; [assumption|split; [|split; [|assumption]]]].
      * rewrite Hscan. destruct b; reflexivity.
      * rewrite Hm, map_app. simpl. rewrite <- app_assoc. reflexivity.
      * rewrite length_app. simpl in *. lia.
Qed.

Lemma end_element_start (s : text) (i : nat) (b b' : Block) :
  end_element s i b = Ok b' -> start b' = start b.
Proof.
  unfold end_element. destruct (last_key (elements b)); simpl; try discriminate.
  intros H; inversion H. reflexivity.
Qed.

Lemma nget_nset_other {A : Type} (k k' : nat) (v : A) (d : list (nat * A)) :
  k <> k' -> nget k (nset k' v d) = nget k d.
Proof.
  intros Hne. induction d as [|[k1 v1] d IH]; simpl.
  - destruct (Nat.eqb_spec k k'); [contradiction|reflexivity].
  - destruct (Nat.eqb_spec k' k1); simpl.
    + subst. destruct (Nat.eqb_spec k k1); [contradiction|reflexivity].
    + destruct (k =? k1); [reflexivity|assumption].
Qed.

Lemma nget_nset_same {A : Type} (k : nat) (v : A) (d : list (nat * A)) :
  nget k (nset k v d) = Some v.
Proof.
  induction d as [|[k1 v1] d IH]; simpl.
  - now rewrite Nat.eqb_refl.
  - destruct (Nat.eqb_spec k k1); simpl.
    + now rewrite Nat.eqb_refl.
    + destruct (Nat.eqb_spec k k1); [contradiction|assumption].
Qed.

(** A closed block is not touched again. *)
Lemma step_keeps (self : Parser) (s : text) (i : nat) (c : ascii) (st st' : pstate)
      (k : nat) (v : Block) :
  k < i -> Forall (fun b => start b <> k) (block_stack st) ->
  nget k (closed st) = Some v -> step self s i c st = Ok st' ->
  Forall (fun b => start b <> k) (block_stack st') /\ nget k (closed st') = Some v.
Proof.
  intros Hk Hst Hg. unfold step.
  destruct (amem c (open_brackets self)).
  - destruct (get_closer self c); simpl; try discriminate.
    intros H; inversion H; subst; simpl. split; [|assumption].
    constructor; [simpl; lia|].
    destruct (block_stack st) as [|top rest]; [constructor|].
    inversion Hst; subst. constructor; assumption.
  - destruct (amem c (close_brackets self)).
    + destruct (block_stack st) as [|b rest]; [discriminate|]. simpl.
      destruct (negb (Ascii.eqb c (closer b))); [discriminate|].
      destruct (end_element s i (set_stop (i + 1) b)) as [b'| |] eqn:Ee; simpl;
        try discriminate.
      intros H; inversion H; subst; simpl. inversion Hst; subst.
      split; [assumption|].
      rewrite nget_nset_other; [assumption|].
      rewrite (end_element_start _ _ _ _ Ee). simpl. congruence.
    + destruct (amem c (separators self)).
      * destruct (block_stack st) as [|b rest]; [discriminate|].
        destruct (end_element s i b) as [b'| |] eqn:Ee; simpl; try discriminate.
        intros H; inversion H; subst; simpl. inversion Hst; subst.
        split; [|assumption]. constructor; [|assumption].
        simpl. now rewrite (end_element_start _ _ _ _ Ee).
      * intros H; inversion H; subst. auto.
Qed.

Lemma scan_keeps (self : Parser) (s : text) (chars : text) (k : nat) (v : Block) :
  forall i st st',
    k < i -> Forall (fun b => start b <> k) (block_stack st) ->
    nget k (closed st) = Some v -> scan self s i chars st = Ok st' ->
    nget k (closed st') = Some v.
Proof.
  induction chars as [|c chars IH]; intros i st st' Hk Hst Hg H; simpl in H.
  - now inversion H; subst.
  - destruct (step self s i c st) as [st1| |] eqn:Es; simpl in H; try discriminate.
    destruct (step_keeps _ _ _ _ _ _ _ _ Hk Hst Hg Es) as [Hst1 Hg1].
    apply (IH (S i) st1 st'); auto.
Qed.

Lemma expand_scan_skip (self : Parser) (s : text) (fail : bool)
      (bl : list (nat * Block)) (pre rest : text) :
  forallb (fun c => negb (amem c (expanders self))) pre = true ->
  forall i, expand_scan self s fail bl i (pre ++ rest)
            = expand_scan self s fail bl (i + List.length pre) rest.
Proof.
  induction pre as [|c pre IH]; intros H i; simpl.
  - now rewrite Nat.add_0_r.
  - simpl in H. apply andb_true_iff in H. destruct H as [Hc H].
    apply negb_true_iff in Hc. rewrite Hc, IH by assumption.
    now rewrite Nat.add_succ_r.
Qed.

(** The documented expansion: in a description that parses, the first
    starred block [*[a,b,...]] whose elements hold no bracket and no
    separator is replaced by each of its elements in turn, with the text
    before and after it kept; the result is flagged as not done. *)
Theorem expand_starred_block (pre post : text) (els : list text) (fail : bool)
        (bl : list (nat * Block)) :
  forallb (fun c => negb (amem c (expanders default_parser))) pre = true ->
  els <> [] ->
  Forall (fun e => forallb (plain default_parser) e = true) els ->
  extract_blocks default_parser
    (pre ++ "*"%char :: "["%char :: join_with ","%char els ++ "]"%char :: post)
  = Ok bl ->
  _expand (pre ++ "*"%char :: "["%char :: join_with ","%char els ++ "]"%char :: post)
          fail default_parser
  = Ok (map (fun el => pre ++ el ++ post) els, false).
Proof.
  intros Hpre Hne Hels Hbl.
  set (body := join_with ","%char els) in *.
  set (s := pre ++ "*"%char :: "["%char :: body ++ "]"%char :: post) in *.
  set (i0 := List.length pre).
  assert (Hlen : List.length s = i0 + 2 + List.length body + 1 + List.length post).
  { unfold s, i0. rewrite length_app. simpl. rewrite length_app. simpl. lia. }
  unfold _expand. rewrite Hbl. cbn [obind].
  unfold extract_blocks in Hbl.
  destruct (scan default_parser s 0 s (mkState [] [])) as [stf| |] eqn:Escan;
    simpl in Hbl; try discriminate.
  destruct (block_stack stf) eqn:Estf; [|discriminate].
  inversion Hbl; subst bl. clear Hbl.
  (* the characters before the star *)
  unfold s at 2 in Escan. rewrite scan_app in Escan.
  destruct (scan default_parser s 0 pre (mkState [] [])) as [st1| |] eqn:E1;
    simpl in Escan; try discriminate.
  assert (Hok1 : state_ok (List.length s) (0 + List.length pre) st1).
  { apply (scan_ok default_parser s (List.length s) pre 0 (mkState [] []) st1); auto.
    - split; constructor.
    - fold i0. lia. }
  simpl in Hok1. fold i0 in Hok1, Escan.
  destruct st1 as [stack1 cl1].
  (* the star and the opening bracket *)
  cbn [block_stack closed] in Escan.
  set (stack1' := match stack1 with
                  | top :: rest => add_block (S i0) top :: rest
                  | [] => []
                  end) in *.
  (* the elements *)
  rewrite scan_app in Escan.
  assert (Hskip : skipn (S (S i0)) s = body ++ "]"%char :: post).
  { unfold s, i0. rewrite skipn_app, skipn_all2 by lia.
    replace (S (S (List.length pre)) - List.length pre) with 2 by lia. reflexivity. }
  destruct (scan_elements s els Hels Hne (S (S i0)) (Block_init (S i0) "["%char "]"%char)
                          stack1' cl1 [] ("]"%char :: post))
    as (es' & q & Hbody & Hq & Hm & Hl & Hsk).
  { simpl. do 3 f_equal. lia. }
  { constructor. }
  { exact Hskip. }
  fold body in Hbody, Hl. rewrite Hbody in Escan. cbn [obind scan] in Escan.
  (* the closing bracket *)
  set (i1 := S (S i0) + List.length body) in *.
  assert (Hlast : slice s q i1 = last els []).
  { rewrite <- Hl. eapply slice_at. exact Hsk. }
  set (B := mkBlock (S i0) (Some (i1 + 1)) "["%char "]"%char
                    (es' ++ [(q, Some (last els []))]) []).
  assert (Hclose : step default_parser s i1 "]"%char
                     (mkState (set_elements (es' ++ [(q, None)])
                                            (Block_init (S i0) "["%char "]"%char)
                                            :: stack1') cl1)
                   = Ok (mkState stack1' (nset (S i0) B cl1))).
  { unfold step. cbn [amem existsb default_parser open_brackets close_brackets
                      Ascii.eqb orb block_stack].
    simpl. unfold end_element. cbn [elements set_stop set_elements Block_init].
    rewrite last_key_app. cbn [obind].
    rewrite nset_last by assumption. rewrite Hlast. reflexivity. }
  rewrite Hclose in Escan. cbn [obind] in Escan.
  (* the characters after the block *)
  assert (HB : nget (S i0) (closed stf) = Some B).
  { apply (scan_keeps default_parser s post (S i0) B (S i1)
                      (mkState stack1' (nset (S i0) B cl1)) stf).
    - unfold i1. lia.
    - simpl. destruct Hok1 as [Hopen1 _]. simpl in Hopen1.
      assert (Hs1 : Forall (fun b => start b <> S i0) stack1).
      { eapply Forall_impl; [|exact Hopen1].
        intros b (es & p & _ & Hs & Hp & _). lia. }
      unfold stack1'. destruct stack1 as [|top rest]; [constructor|].
      inversion Hs1; subst. constructor; assumption.
    - simpl. apply nget_nset_same.
    - exact Escan. }
  (* the expansion *)
  unfold s at 2. rewrite expand_scan_skip by assumption.
  cbn [expand_scan amem existsb default_parser expanders Ascii.eqb orb].
  simpl Nat.add. fold i0.
  replace (i0 + 1) with (S i0) by lia. rewrite HB.
  f_equal. f_equal.
  assert (Hfirst : firstn i0 s = pre).
  { unfold s, i0. rewrite firstn_app, Nat.sub_diag, firstn_all. simpl.
    now rewrite app_nil_r. }
  assert (Hpost : skipn (i1 + 1) s = post).
  { replace (i1 + 1) with (S (S i0) + (List.length body + 1)) by (unfold i1; lia).
    rewrite Nat.add_comm, <- skipn_skipn, Hskip.
    replace (List.length body + 1) with (List.length (body ++ ["]"%char]))
      by (rewrite length_app; reflexivity).
    replace (body ++ "]"%char :: post) with ((body ++ ["]"%char]) ++ post)
      by (rewrite <- app_assoc; reflexivity).
    rewrite skipn_app, skipn_all, Nat.sub_diag. reflexivity. }
  cbn [elements stop B from]. rewrite Hfirst, Hpost.
  rewrite <- (map_map snd (fun o => pre ++ str_of o ++ post)).
  rewrite map_app, Hm. simpl.
  change [Some (last els [])] with (map (@Some text) [last els []]).
  rewrite <- map_app, <- app_removelast_last by assumption.
  rewrite map_map. reflexivity.
Qed.

Lemma slice_prefix (pre rest : text) (a i : nat) :
  i <= List.length pre -> slice (pre ++ rest) a i = slice pre a i.
Proof.
  intros Hi. unfold slice. rewrite skipn_app, firstn_app, length_skipn.
  replace (i - a - (List.length pre - a)) with 0 by lia.
  simpl. now rewrite app_nil_r.
Qed.

Lemma step_prefix (self : Parser) (pre rest : text) (i : nat) (c : ascii) (st : pstate) :
  i <= List.length pre -> step self (pre ++ rest) i c st = step self pre i c st.
Proof.
  intros Hi.
  assert (He : forall b, end_element (pre ++ rest) i b = end_element pre i b).
  { intros b. unfold end_element. destruct (last_key (elements b)); simpl; try reflexivity.
    now rewrite slice_prefix. }
  unfold step. destruct (block_stack st) as [|b l]; [reflexivity|]. now rewrite !He.
Qed.

Lemma scan_prefix (self : Parser) (pre rest : text) (chars : text) :
  forall i st, i + List.length chars <= List.length pre ->
               scan self (pre ++ rest) i chars st = scan self pre i chars st.
Proof.
  induction chars as [|c chars IH]; intros i st Hi; simpl in *; [reflexivity|].
  rewrite step_prefix by lia.
  destruct (step self pre i c st); simpl; try reflexivity. apply IH. lia.
Qed.

Lemma scan_raise (self : Parser) (s : text) (chars : text) (i : nat) (c : ascii)
      (rest : text) (st st1 : pstate) (e : exn) :
  scan self s i chars st = Ok st1 ->
  step self s (i + List.length chars) c st1 = Raise e ->
  scan self s i (chars ++ c :: rest) st = Raise e.
Proof.
  intros H1 H2. rewrite scan_app, H1. simpl. now rewrite H2.
Qed.

(** A separator or a closing bracket outside of every block: the loop
    looks at the innermost open block before anything else, and the
    empty stack raises [IndexError]; expansion of such a description
    raises it too, whether or not there is anything to expand. *)
Theorem separator_outside_brackets (self : Parser) (pre post : text) (c : ascii)
        (bl : list (nat * Block)) (fail : bool) (fuel : nat) :
  extract_blocks self pre = Ok bl ->
  amem c (open_brackets self) = false ->
  amem c (close_brackets self) || amem c (separators self) = true ->
  extract_blocks self (pre ++ c :: post) = Raise empty_deque /\
  expand_while (S fuel) fail self [pre ++ c :: post] = Raise empty_deque.
Proof.
  intros Hpre Ho Hc.
  assert (He : extract_blocks self (pre ++ c :: post) = Raise empty_deque).
  { unfold extract_blocks in *.
    destruct (scan self pre 0 pre (mkState [] [])) as [st| |] eqn:Es; simpl in Hpre;
      try discriminate.
    destruct (block_stack st) eqn:Est; [|discriminate].
    rewrite (scan_raise self _ pre 0 c post _ st empty_deque); [reflexivity| |].
    - rewrite scan_prefix by (simpl; lia). exact Es.
    - unfold step. rewrite Ho, Est.
      destruct (amem c (close_brackets self)); [reflexivity|].
      simpl in Hc. now rewrite Hc. }
  split; [assumption|].
  simpl. unfold _expand. rewrite He. reflexivity.
Qed.

(** The error for an unmatched closing bracket is never raised: the
    stack is indexed before its length is tested. *)
Theorem unmatched_closing_never_reported (self : Parser) (s : text) (c : ascii) (i : nat) :
  extract_blocks self s <> Raise (ValueError (unmatched_closing c i)).
Proof.
  assert (Hstep : forall j d st, step self s j d st
                                 <> Raise (ValueError (unmatched_closing c i))).
  { intros j d st. unfold step.
    destruct (amem d (open_brackets self)).
    - unfold get_closer, nth_bracket.
      destruct (list_index d (open_brackets self)) as [idx|]; simpl.
      + destruct (nth_error (close_brackets self) idx); simpl; discriminate.
      + unfold not_in_list, unmatched_closing. simpl. discriminate.
    - destruct (amem d (close_brackets self)).
      + destruct (block_stack st) as [|b rest]; [discriminate|]. simpl.
        destruct (negb (Ascii.eqb d (closer b))).
        * unfold mismatched, unmatched_closing. simpl. discriminate.
        * unfold end_element, last_key.
          destruct (rev (elements (set_stop (j + 1) b))) as [|[k v] l]; simpl; discriminate.
      + destruct (amem d (separators self)); [|discriminate].
        destruct (block_stack st) as [|b rest]; [discriminate|].
        unfold end_element, last_key.
        destruct (rev (elements b)) as [|[k v] l]; simpl; discriminate. }
  assert (Hscan : forall chars j st, scan self s j chars st
                                     <> Raise (ValueError (unmatched_closing c i))).
  { induction chars as [|d chars IH]; intros j st; simpl; [discriminate|].
    specialize (Hstep j d st).
    destruct (step self s j d st); simpl; [apply IH|assumption|discriminate]. }
  unfold extract_blocks.
  destruct (scan self s 0 s (mkState [] [])) as [st| |] eqn:Es; simpl;
    [|intros H; inversion H; subst; apply (Hscan s 0 (mkState [] []));
      rewrite Es; reflexivity|discriminate].
  destruct (block_stack st); [discriminate|].
  unfold unmatched_opening, unmatched_closing. simpl. discriminate.
Qed.

Lemma list_index_nth (c : ascii) (l : list ascii) (idx : nat) :
  list_index c l = Some idx -> nth_error l idx = Some c.
Proof.
  revert idx; induction l as [|x l IH]; intros idx; simpl; [discriminate|].
  destruct (Ascii.eqb_spec x c) as [->|Hne].
  - intros H; inversion H; reflexivity.
  - destruct (list_index c l) as [j|]; [|discriminate].
    intros H; inversion H; subst. simpl. now apply IH.
Qed.

Lemma nth_list_index (c : ascii) (l : list ascii) (idx : nat) :
  NoDup l -> nth_error l idx = Some c -> list_index c l = Some idx.
Proof.
  revert idx; induction l as [|x l IH]; intros [|idx] Hnd H; simpl in *;
    try discriminate.
  - inversion H; subst. now rewrite Ascii.eqb_refl.
  - inversion Hnd; subst.
    destruct (Ascii.eqb_spec x c) as [->|Hne].
    + exfalso. apply H2. eapply nth_error_In. eassumption.
    + now rewrite (IH idx H3 H).
Qed.

(** With closing brackets that are distinct, [get_opener] undoes
    [get_closer]. *)
Theorem opener_of_closer (self : Parser) (c d : ascii) :
  NoDup (close_brackets self) ->
  get_closer self c = Ok d -> get_opener self d = Ok c.
Proof.
  unfold get_closer, get_opener, nth_bracket. intros Hnd.
  destruct (list_index c (open_brackets self)) as [idx|] eqn:Ei; [|discriminate].
  destruct (nth_error (close_brackets self) idx) as [x|] eqn:En; [|discriminate].
  intros H; inversion H; subst x.
  rewrite (nth_list_index _ _ _ Hnd En).
  now rewrite (list_index_nth _ _ _ Ei).
Qed.

(** What the loop of [expand_params] returns is settled: [_expand]
    finds nothing to expand in any of the descriptions. *)
Lemma expand_while_settled (fuel : nat) (fail : bool) (parser : Parser) :
  forall strs res,
    expand_while fuel fail parser strs = Ok res ->
    Forall (settled fail parser) res.
Proof.
  induction fuel as [|fuel IH]; intros strs res H; simpl in H; [discriminate|].
  destruct (omap _ strs) as [rl| |] eqn:Eo; simpl in H; try discriminate.
  destruct (forallb snd rl) eqn:Ed; [|eapply IH; eassumption].
  inversion H; subst. clear H.
  revert rl Eo Ed. induction strs as [|s strs IHs]; intros rl Eo Ed; simpl in Eo.
  - inversion Eo; subst. constructor.
  - destruct (_expand s fail parser) as [[ss d]| |] eqn:Ee; simpl in Eo; try discriminate.
    destruct (omap _ strs) as [rl'| |]; simpl in Eo; try discriminate.
    inversion Eo; subst. simpl in Ed. apply andb_true_iff in Ed. destruct Ed as [Hd Ed].
    subst d. simpl. apply Forall_app. split; [|now apply IHs].
    destruct (_expand_shorter _ _ _ _ _ Ee) as [[_ ->]|[Hf _]]; [|discriminate].
    constructor; [exact Ee|constructor].
Qed.

(** *** Blocks and brackets *)

Lemma end_element_same (s : text) (i : nat) (b b' : Block) :
  end_element s i b = Ok b' ->
  start b' = start b /\ stop b' = stop b /\ opener b' = opener b /\
  closer b' = closer b.
Proof.
  unfold end_element. destruct (last_key (elements b)); simpl; try discriminate.
  intros H; inversion H. auto.
Qed.

Lemma nget_nset_some {A : Type} (k k' : nat) (v : A) (d : list (nat * A)) :
  nget k d <> None -> nget k (nset k' v d) <> None.
Proof.
  intros H. destruct (Nat.eq_dec k k') as [->|Hne].
  - rewrite nget_nset_same. discriminate.
  - now rewrite nget_nset_other.
Qed.

Lemma step_brackets (self : Parser) (s : text) (i : nat) (c : ascii) (st st' : pstate) :
  brackets_ok self s i st -> nth_error s i = Some c ->
  step self s i c st = Ok st' -> brackets_ok self s (S i) st'.
Proof.
  intros (Hopen & Hclosed & Hall) Hc.
  assert (Hi : i < List.length s) by (apply nth_error_Some; congruence).
  assert (Hopen' : Forall (fun b => opened_at self s b /\ start b < S i) (block_stack st)).
  { eapply Forall_impl; [|exact Hopen]. intros b [H1 H2]. split; [assumption|lia]. }
  unfold step. destruct (amem c (open_brackets self)) eqn:Eo.
  - destruct (get_closer self c) as [cl| |] eqn:Ecl; simpl; try discriminate.
    intros H; inversion H; subst; simpl. split; [|split; [assumption|]].
    + constructor.
      * split; [|simpl; lia]. unfold opened_at. simpl. auto.
      * destruct (block_stack st) as [|top rest]; [constructor|].
        inversion Hopen'; subst. constructor; assumption.
    + intros k d Hk Hd Hdo. destruct (Nat.eq_dec k i) as [->|Hne].
      * left. eexists. split; [now left|reflexivity].
      * destruct (Hall k d ltac:(lia) Hd Hdo) as [(b & Hb & Hs)|Hn]; [|now right].
        left. destruct (block_stack st) as [|top rest]; [contradiction|].
        destruct Hb as [<-|Hb].
        -- exists (add_block i top). split; [right; now left|exact Hs].
        -- exists b. split; [right; now right|exact Hs].
  - destruct (amem c (close_brackets self)).
    + destruct (block_stack st) as [|b rest] eqn:Est; [discriminate|]. simpl.
      destruct (Ascii.eqb_spec c (closer b)) as [Ecb|]; simpl; [|discriminate].
      destruct (end_element s i (set_stop (i + 1) b)) as [b'| |] eqn:Ee; simpl;
        try discriminate.
      destruct (end_element_same _ _ _ _ Ee) as (Hs & Hst & Hop & Hcl). simpl in *.
      intros H; inversion H; subst st'; simpl.
      inversion Hopen' as [|? ? [Hb Hbi] Hrest]; subst.
      split; [assumption|]. split.
      * apply Forall_nset; [|assumption].
        split; [reflexivity|]. simpl. split.
        -- unfold opened_at in *. now rewrite Hs, Hop, Hcl.
        -- exists (i + 1). rewrite Hst, Hs, Hcl.
           inversion Hopen as [|? ? [_ Hlt] _]; subst.
           replace (i + 1 - 1) with i by lia.
           repeat split; try lia. congruence.
      * intros k d Hk Hd Hdo. destruct (Nat.eq_dec k i) as [->|Hne].
        { congruence. }
        destruct (Hall k d ltac:(lia) Hd Hdo) as [(b0 & [<-|Hb0] & Hs0)|Hn].
        -- right. simpl. rewrite <- Hs0, <- Hs, nget_nset_same. discriminate.
        -- left. eauto.
        -- right. now apply nget_nset_some.
    + destruct (amem c (separators self)).
      * destruct (block_stack st) as [|b rest] eqn:Est; [discriminate|].
        destruct (end_element s i b) as [b'| |] eqn:Ee; simpl; try discriminate.
        destruct (end_element_same _ _ _ _ Ee) as (Hs & Hst & Hop & Hcl).
        intros H; inversion H; subst st'; simpl.
        inversion Hopen' as [|? ? [Hb Hbi] Hrest]; subst.
        split; [|split; [assumption|]].
        -- constructor; [|assumption]. unfold opened_at in *. simpl.
           rewrite Hs, Hop, Hcl. auto.
        -- intros k d Hk Hd Hdo. destruct (Nat.eq_dec k i) as [->|Hne].
           { congruence. }
           destruct (Hall k d ltac:(lia) Hd Hdo) as [(b0 & [<-|Hb0] & Hs0)|Hn];
             [left|left|now right].
           ++ eexists. split; [now left|]. simpl. congruence.
           ++ exists b0. split; [now right|assumption].
      * intros H; inversion H; subst st'. split; [assumption|]. split; [assumption|].
        intros k d Hk Hd Hdo. destruct (Nat.eq_dec k i) as [->|Hne].
        { congruence. }
        apply (Hall k d); auto. lia.
Qed.

Lemma scan_brackets (self : Parser) (s : text) (chars : text) :
  forall i st st',
    brackets_ok self s i st -> skipn i s = chars ->
    scan self s i chars st = Ok st' -> brackets_ok self s (List.length s) st'.
Proof.
  induction chars as [|c chars IH]; intros i st st' Hok Hsk H; simpl in H.
  - inversion H; subst st'.
    assert (Hle : List.length s <= i).
    { apply (f_equal (@List.length _)) in Hsk. rewrite length_skipn in Hsk.
      simpl in Hsk. lia. }
    destruct Hok as (H1 & H2 & H3). split; [|split; [assumption|]].
    + eapply Forall_impl; [|exact H1]. intros b [Hb Hlt]. split; [assumption|].
      destruct Hb as (Hn & _). assert (start b < List.length s); [|lia].
      apply nth_error_Some. congruence.
    + intros k d Hk. apply H3. lia.
  - destruct (step self s i c st) as [st1| |] eqn:Es; simpl in H; try discriminate.
    assert (Hc : nth_error s i = Some c).
    { rewrite <- (firstn_skipn i s) at 1. rewrite Hsk.
      assert (Hi : i <= List.length s).
      { destruct (le_lt_dec i (List.length s)); [assumption|].
        rewrite skipn_all2 in Hsk by lia. discriminate. }
      rewrite nth_error_app2; rewrite length_firstn, Nat.min_l by assumption;
        [|lia].
      now rewrite Nat.sub_diag. }
    apply (IH (S i) st1 st'); [eapply step_brackets; eassumption| |assumption].
    replace (S i) with (1 + i) by lia. rewrite <- skipn_skipn, Hsk. reflexivity.
Qed.

Lemma nget_spans (self : Parser) (s : text) (bl : list (nat * Block)) (k : nat)
      (b : Block) :
  Forall (spans self s) bl -> nget k bl = Some b -> spans self s (k, b).
Proof.
  intros H Hg. apply nget_In in Hg. rewrite Forall_forall in H. now apply H.
Qed.

Lemma extract_blocks_state (self : Parser) (s : text) (bl : list (nat * Block)) :
  extract_blocks self s = Ok bl ->
  Forall (spans self s) bl /\
  forall k c, nth_error s k = Some c -> amem c (open_brackets self) = true ->
              nget k bl <> None.
Proof.
  unfold extract_blocks.
  destruct (scan self s 0 s (mkState [] [])) as [st| |] eqn:Es; simpl; try discriminate.
  destruct (block_stack st) eqn:Est; [|discriminate].
  intros H; inversion H; subst bl.
  destruct (scan_brackets self s s 0 (mkState [] []) st) as (_ & H2 & H3); auto.
  { split; [constructor|]. split; [constructor|]. intros k c Hk. lia. }
  split; [assumption|].
  intros k c Hc Hco.
  assert (Hk : k < List.length s) by (apply nth_error_Some; congruence).
  destruct (H3 k c Hk Hc Hco) as [(b & Hb & _)|Hn]; [|assumption].
  rewrite Est in Hb. contradiction.
Qed.

(** The blocks [extract_blocks] returns are the bracket pairs of the
    text: a block is stored under the index of its opening bracket, its
    [closer] is the closing bracket that goes with its [opener], and the
    character before [stop] is that closing bracket; and every opening
    bracket of the text has its block. *)
Theorem extract_blocks_brackets (self : Parser) (s : text) (bl : list (nat * Block)) :
  extract_blocks self s = Ok bl ->
  (forall k b, nget k bl = Some b ->
     start b = k /\ nth_error s k = Some (opener b) /\
     amem (opener b) (open_brackets self) = true /\
     get_closer self (opener b) = Ok (closer b) /\
     exists j, stop b = Some j /\ k < j /\ j <= List.length s /\
               nth_error s (j - 1) = Some (closer b)) /\
  (forall k c, nth_error s k = Some c -> amem c (open_brackets self) = true ->
               nget k bl <> None).
Proof.
  intros H. destruct (extract_blocks_state _ _ _ H) as [Hsp Hall].
  split; [|assumption].
  intros k b Hg.
  pose proof (nget_spans _ _ _ _ _ Hsp Hg) as Hx. unfold spans, opened_at in Hx.
  destruct Hx as (Hs & (Hn & Ha & Hc) & j & Hj & Hkj & Hjl & Hcl).
  simpl in *. subst k. split; [reflexivity|]. do 3 (split; [assumption|]).
  exists j. auto.
Qed.

(** With [fail_on_unexpanded], the first expansion character of a
    description raises [ValueError] with its position when no opening
    bracket follows it. *)
Theorem unexpanded_star_raises (parser : Parser) (pre rest : text) (c : ascii)
        (bl : list (nat * Block)) :
  forallb (fun c => negb (amem c (expanders parser))) pre = true ->
  amem c (expanders parser) = true ->
  match rest with
  | [] => True
  | d :: _ => amem d (open_brackets parser) = false
  end ->
  extract_blocks parser (pre ++ c :: rest) = Ok bl ->
  _expand (pre ++ c :: rest) true parser
  = Raise (ValueError (unexpanded (pre ++ c :: rest) (List.length pre))).
Proof.
  intros Hpre Hc Hrest Hbl. unfold _expand. rewrite Hbl. cbn [obind].
  rewrite expand_scan_skip by assumption. cbn [expand_scan Nat.add]. rewrite Hc.
  destruct (nget (List.length pre + 1) bl) as [b|] eqn:Eb; [|reflexivity].
  exfalso.
  destruct (extract_blocks_state _ _ _ Hbl) as [Hsp _].
  pose proof (nget_spans _ _ _ _ _ Hsp Eb) as Hx. unfold spans, opened_at in Hx.
  destruct Hx as (Hs & (Hn & Ha & _) & _).
  simpl in Hs, Hn, Ha. rewrite Hs in Hn.
  rewrite nth_error_app2 in Hn by lia.
  replace (List.length pre + 1 - List.length pre) with 1 in Hn by lia.
  simpl in Hn. destruct rest as [|d rest]; [discriminate|].
  simpl in Hn. inversion Hn; subst d. congruence.
Qed.

(** A description without expansion character that parses is settled,
    and the loop of [expand_params] returns it as it is. *)
Theorem nothing_to_expand (parser : Parser) (s : text) (fail : bool)
        (bl : list (nat * Block)) (fuel : nat) :
  forallb (fun c => negb (amem c (expanders parser))) s = true ->
  extract_blocks parser s = Ok bl ->
  _expand s fail parser = Ok ([s], true) /\
  expand_while (S fuel) fail parser [s] = Ok [s].
Proof.
  intros Hs Hbl.
  assert (He : _expand s fail parser = Ok ([s], true)).
  { unfold _expand. rewrite Hbl. cbn [obind].
    rewrite <- (app_nil_r s) at 2. rewrite expand_scan_skip by assumption.
    reflexivity. }
  split; [assumption|]. simpl. rewrite He. reflexivity.
Qed.

Section Files.
Variable expand_urls : text -> outcome text.
Variable strip_comments : text -> text.

(** [expand_params] terminates: every expansion makes a description
    shorter by three characters at least, so a number of rounds of the
    length of the description (and two more) is enough, and what is
    returned is settled. *)
Theorem expand_params_terminates (fuel : nat) (param_str s : text) (fail : bool)
        (parser : option Parser) :
  expand_urls param_str = Ok s ->
  List.length (strip_comments s) + 2 <= fuel ->
  exists r, expand_params expand_urls strip_comments fuel param_str fail parser = r /\
            r <> OutOfFuel /\
            forall res, r = Ok res ->
              Forall (settled fail (match parser with
                                    | Some p => p
                                    | None => default_parser
                                    end)) res.
Proof.
  intros Hu Hf. eexists. split; [reflexivity|].
  unfold expand_params. rewrite Hu. cbn [obind].
  destruct fuel as [|n]; [lia|]. split.
  - apply expand_while_ends. constructor; [|constructor]. right. lia.
  - intros res Hr. eapply expand_while_settled. exact Hr.
Qed.
End Files.

End Expand.

(** ** Labelled parameter sets *)

Section Labels.

Local Open Scope nat_scope.
Local Open Scope list_scope.

Import Records.

Variable P : Type.

Lemma skipn_nth {A : Type} (l : list A) (i : nat) (x : A) :
  nth_error l i = Some x -> skipn i l = x :: skipn (S i) l.
Proof.
  revert i; induction l as [|y l IH]; intros [|i] H; simpl in *; try discriminate.
  - now inversion H.
  - now apply IH.
Qed.

Lemma paramrecs_loop_spec (params : list (param P)) (labels : list string) :
  forallb (fun p => negb (is_other p)) params = true ->
  forall i recs,
    i <= List.length labels ->
    paramrecs_loop true params labels i recs
    = if i + List.length (filter (@is_set P) params) <=? List.length labels
      then Done (i + List.length (filter (@is_set P) params),
                 recs ++ labelled params (skipn i labels))
      else Failed (ValueError no_label).
Proof.
  induction params as [|p params IH]; intros Hno i recs Hi; simpl.
  - rewrite Nat.add_0_r, app_nil_r.
    destruct (Nat.leb_spec i (List.length labels)); [reflexivity|lia].
  - simpl in Hno. apply andb_true_iff in Hno. destruct Hno as [Hp Hno].
    destruct p as [l ps|ps|]; simpl in *; [| |discriminate].
    + rewrite IH by assumption.
      destruct (_ <=? _); [|reflexivity]. now rewrite <- app_assoc.
    + destruct (nth_error labels i) as [l|] eqn:El.
      * assert (Hlt : i < List.length labels) by (apply nth_error_Some; congruence).
        rewrite IH by (assumption || lia).
        rewrite <- Nat.add_succ_comm.
        destruct (_ <=? _); [|reflexivity].
        rewrite (skipn_nth _ _ _ El), <- app_assoc. reflexivity.
      * apply nth_error_None in El.
        destruct (Nat.leb_spec (i + S (List.length (filter (@is_set P) params)))
                               (List.length labels)); [lia|reflexivity].
Qed.

(** [make_paramrecs] on records and parameter sets: with as many labels
    as there are parameter sets, the sets take the labels in order and
    the records keep their own; with fewer labels it raises
    [ValueError], and with more the final [assert] fails. *)
Theorem make_paramrecs_labels (params : list (param P)) (labels : option (list string)) :
  forallb (fun p => negb (is_other p)) params = true ->
  make_paramrecs true params labels
  = let ls := match labels with
              | Some l => l
              | None => []
              end in
    match Nat.compare (List.length (filter (@is_set P) params)) (List.length ls) with
    | Eq => Done (labelled params ls)
    | Gt => Failed (ValueError no_label)
    | Lt => AssertionFailed
    end.
Proof.
  intros Hno. unfold make_paramrecs. cbv zeta.
  set (ls := match labels with Some l => l | None => [] end).
  assert (Hls : match labels with Some l => l | None => [] end = ls) by reflexivity.
  rewrite (paramrecs_loop_spec params ls Hno 0 []) by lia. simpl.
  destruct (Nat.compare_spec (List.length (filter (@is_set P) params)) (List.length ls))
    as [He|Hl|Hg].
  - rewrite He, Nat.leb_refl, Nat.eqb_refl. reflexivity.
  - destruct (Nat.leb_spec (List.length (filter (@is_set P) params)) (List.length ls));
      [|lia].
    destruct (Nat.eqb_spec (List.length (filter (@is_set P) params)) (List.length ls));
      [lia|reflexivity].
  - destruct (Nat.leb_spec (List.length (filter (@is_set P) params)) (List.length ls));
      [lia|reflexivity].
Qed.

End Labels.

(** ** The claims on the small instance *)

Import Demo.

Lemma chain_xy_built (g : Z) :
  ParameterSetSampler_init spec_xy None g = (Ok chain_xy, g).
Proof. reflexivity. Qed.

Lemma chain_xy_total (nd : ParameterSampler Z Z) :
  In nd (_samplers chain_xy) -> active nd = true -> total_draw (_get_sample nd).
Proof.
  intros Hin Ha g. vm_compute in Hin.
  destruct Hin as [<-|[<-|[<-|[]]]]; try discriminate Ha;
    eexists; eexists; reflexivity.
Qed.



(** On [spec_xy]: the constructor called in state 7 leaves 7; a [sample]
    made in state 9 leaves 9; and requests on the chain do return. *)
Lemma ambient_restored_on_return_witness :
  ParameterSetSampler_init spec_xy None 7 = (Ok chain_xy, 7) /\
  (exists resp A' g',
      sample 20 (One "x") (9, chain_xy) = (Ok resp, (g', A')) /\ g' = 9) /\
  forallb (request_ok (varnames chain_xy)) [All; One "x"] = true /\
  (enough (List.length (varnames chain_xy)) <= 20)%nat /\
  exists resps A', run 20 [All; One "x"] (9, chain_xy) = (Ok resps, (9, A')).
Proof.
  split; [apply chain_xy_built|].
  split.
  { eexists. eexists. eexists.
    assert (H : sample 20 (One "x") (9, chain_xy) = (Ok _, (_, _)))
      by (vm_compute; reflexivity).
    split; [exact H|].
    exact (proj1 (proj2 ambient_restored_on_return) _ _ _ _ _ _ _ H). }
  split; [reflexivity|].
  split; [vm_compute; lia|].
  apply (proj2 (proj2 (proj2 ambient_restored_on_return))
           spec_xy None 7 7 9 chain_xy [All; One "x"] 20%nat
           (chain_xy_built 7) chain_xy_total).
  - reflexivity.
  - vm_compute; lia.
Defined.

(** C2.  A call that raises leaves the chain's generator state
    outside.  The kind of [x] in [spec_uniform] is not known: [sample]
    is called in the state 7 and raises, and the state outside is then
    100, the state of the seed, while a [sample] that returns restores
    the 7.  The constructor called in the state 7 on [spec_mismatch]
    raises after it has seeded, and leaves 100 as well. *)
Theorem C2_raise_leaves_chain_state :
  ParameterSetSampler_init spec_uniform None 7 = (Ok chain_uniform, 7) /\
  (exists A',
      sample 20 (One "x") (7, chain_uniform)
      = (Raise (ValueError "Unrecognized distribution type 'uniform'."), (100, A'))) /\
  (exists v A', sample 20 (One "x") (7, chain_xy) = (Ok (Value v), (7, A'))) /\
  ParameterSetSampler_init spec_mismatch None 7
  = (Raise (ValueError
              "The parameter 'x' has a shape with 2 components, but we have 3 populations."),
     100).
Proof.
  split; [reflexivity|].
  split; [eexists; vm_compute; reflexivity|].
  split; [eexists; eexists; vm_compute; reflexivity|].
  reflexivity.
Qed.

(** The constructor accepts [spec_uniform], whose variable [x] has a kind
    that is not recognized; the error comes with the first [sample]. *)
Lemma C3_counterexample :
  ParameterSetSampler_init spec_uniform None 7 = (Ok chain_uniform, 7) /\
  exists st,
    sample 20 (One "x") (7, chain_uniform)
    = (Raise (ValueError "Unrecognized distribution type 'uniform'."), st).
Proof.
  split; [reflexivity|].
  eexists. vm_compute; reflexivity.
Defined.

Lemma C3_unknown_kind_raises_at_draw_witness :
  ps_lookup desc_uniform "dist" = Some (PStr "uniform") /\
  exists nd : ParameterSampler Z Z,
    ParameterSampler_init "x" (PSet desc_uniform) None = Ok nd /\
    sampled_idx nd = Some 0 /\
    forall g, _get_sample nd g
              = (Raise (ValueError "Unrecognized distribution type 'uniform'."), g).
Proof.
  split; [reflexivity|].
  exact (proj2 (C3_unknown_kind_raises_at_draw (RNG := Z) "x" desc_uniform None
                  [PInt 2] (PStr "uniform")
                  eq_refl eq_refl eq_refl eq_refl eq_refl)).
Defined.



(** [spec_xy] has the seed 100; built with the seed 5 the chain starts from
    the state of seed 5. *)
Lemma C5_constructor_seed_wins_witness :
  ParameterSetSampler_init spec_xy (Some (PInt 5)) 7 = (Ok chain_xy5, 7) /\
  np_random_seed (PInt 5) = Ok (rng_state chain_xy5) /\
  rng_state chain_xy5 = 5.
Proof.
  split; [reflexivity|].
  split; [|reflexivity].
  exact (proj1 C5_constructor_seed_wins spec_xy (PInt 5) 7 7 chain_xy5 eq_refl).
Defined.

(** On [spec_xy], after a request for [y]: three requests for [x] against
    three fills and three calls. *)
Lemma C6_fifo_replay_witness :
  ParameterSetSampler_init spec_xy None 7 = (Ok chain_xy, 7) /\
  index_of "x" (varnames chain_xy) = Some 1%nat /\
  exists resps A' vs A1 wf w2,
    run 20 [One "y"] (7, chain_xy) = (Ok resps, (7, A')) /\
    run 20 (repeat (One "x") 3) (7, A') = (Ok (map (@Value Z) vs), (7, A1)) /\
    fills 20 1 3 (mkWorld (rng_state A') (_samplers A')) = (Ok tt, wf) /\
    cache_len wf 1 = (cache_len (mkWorld (rng_state A') (_samplers A')) 1 + 3)%nat /\
    calls 20 1 3 wf = (Ok vs, w2).
Proof.
  split; [apply chain_xy_built|]. split; [reflexivity|].
  apply (proj2 C6_fifo_replay spec_xy None 7 7 7 chain_xy [One "y"] 20%nat "x"
           1%nat 3%nat (chain_xy_built 7) chain_xy_total).
  - reflexivity.
  - vm_compute; lia.
  - reflexivity.
Defined.

(** C7.  [spec_two_keys] has both [population] and [labels]: the
    constructor fails, and what it raises is the [NameError] of the
    undefined name in the message of its [ValueError]. *)
Theorem C7_population_and_labels :
  List.length (popattrs_of spec_two_keys) = 2%nat /\
  ParameterSetSampler_init spec_two_keys None 7
  = (Raise (NameError "population_strs"), 7).
Proof.
  split; [reflexivity|].
  apply multiple_population_keys. vm_compute. lia.
Qed.

(** C8.  The variable of [spec_nopop] has the shape ["2+3"], and the
    specification has no population key: the constructor fails, and
    what it raises is the [TypeError] of [len(None)], where with a list
    of three populations ([spec_mismatch]) it is the [ValueError] that
    names both counts. *)
Theorem C8_partition_without_populations :
  popnames_of spec_nopop = Ok None /\
  ps_getitem spec_nopop "x"
  = Ok (PSet [("dist", PStr "normal"); ("shape", PList [PStr "2+3"])]) /\
  ParameterSetSampler_init spec_nopop None 7
  = (Raise (TypeError "object of type 'NoneType' has no len()"), 100) /\
  ParameterSetSampler_init spec_mismatch None 7
  = (Raise (ValueError
              "The parameter 'x' has a shape with 2 components, but we have 3 populations."),
     100).
Proof.
  split; [reflexivity|]. split; [reflexivity|]. split; reflexivity.
Qed.

(** [spec_mismatch]: the shape ["2+3"] against three populations. *)
Lemma shape_mismatch_names_counts_witness :
  List.length (Str.split "2+3" "+") <> 3%nat /\
  exists g',
    ParameterSetSampler_init spec_mismatch None 7
    = (Raise (ValueError
                "The parameter 'x' has a shape with 2 components, but we have 3 populations."),
       g').
Proof.
  split; [vm_compute; discriminate|].
  apply (shape_mismatch_names_counts spec_mismatch None 7
           (Some (PList [PStr "A"; PStr "B"; PStr "C"])) 3 [] [] "x"
           [("dist", PStr "normal"); ("shape", PList [PStr "2+3"])]
           [] [] "2+3" ([[]], [])).
  - reflexivity.
  - reflexivity.
  - simpl. eexists. reflexivity.
  - reflexivity.
  - intros y [].
  - reflexivity.
  - reflexivity.
  - reflexivity.
  - reflexivity.
  - vm_compute; discriminate.
Defined.

(** Offsets 1 and -1 on the samplers of [spec_xy], and the offsets the
    constructor has set. *)
Lemma C10_set_previous_offset_witness :
  ParameterSetSampler_init spec_xy None 7 = (Ok chain_xy, 7) /\
  nth_error (_samplers chain_xy) 0 = Some sampler_c /\
  set_previous 0 2 1 (_samplers chain_xy)
  = (Raise (ValueError "Offset cannot be positive."), _samplers chain_xy) /\
  set_previous 0 2 (-1) (_samplers chain_xy)
  = (Ok tt, set_nth 0 (set_link 2 (-1) sampler_c) (_samplers chain_xy)) /\
  exists off, _previous_offset sampler_c = Some off /\ off <= 0.
Proof.
  split; [apply chain_xy_built|]. split; [reflexivity|].
  destruct (C10_set_previous_offset (V := Z) (RNG := Z)) as (H1 & H2 & H3).
  split; [apply H1; lia|].
  split; [apply H2; [lia|reflexivity]|].
  apply (H3 spec_xy None 7 7 chain_xy sampler_c (chain_xy_built 7)).
  left. reflexivity.
Defined.

(** ** Further properties on the small instance *)

Lemma spec_xy_nodup : NoDup (keys spec_xy).
Proof.
  vm_compute. repeat (constructor; [simpl; intuition discriminate|]). constructor.
Qed.

Lemma after_bad_eq :
  run 20 reqs_bad (7, chain_xy)
  = (fst after_bad, (fst (snd after_bad), snd (snd after_bad))).
Proof. unfold after_bad. destruct (run 20 reqs_bad (7, chain_xy)) as [r [h s]]. reflexivity. Qed.

(** The requests [y], [nope] on [chain_xy]: the second raises, and the
    frame of the chain is as before. *)
Lemma sampling_keeps_frame_witness :
  run 20 reqs_bad (7, chain_xy)
  = (fst after_bad, (fst (snd after_bad), snd (snd after_bad))) /\
  fst after_bad = Raise (KeyError "nope") /\
  varnames (snd (snd after_bad)) = varnames chain_xy /\
  map frame (_samplers (snd (snd after_bad))) = map frame (_samplers chain_xy) /\
  sampled_varnames (snd (snd after_bad)) = sampled_varnames chain_xy.
Proof.
  split; [exact after_bad_eq|]. split; [reflexivity|].
  exact (sampling_keeps_frame 20 reqs_bad 7 (fst (snd after_bad)) chain_xy
                              (snd (snd after_bad)) (fst after_bad) after_bad_eq).
Defined.

(** After the failed requests on [chain_xy], the fixed value [c] is
    still handed out as 42. *)
Lemma fixed_value_always_witness :
  Str.mem "c" (varnames chain_xy) = true /\
  ps_lookup spec_xy "c" = Some (PInt 42) /\
  sample 1 (One "c") (3, snd (snd after_bad))
  = (Ok (Value 42), (3, snd (snd after_bad))).
Proof.
  split; [reflexivity|]. split; [reflexivity|].
  exact (fixed_value_always spec_xy None 7 7 7 (fst (snd after_bad)) 3
                            chain_xy (snd (snd after_bad)) reqs_bad (fst after_bad)
                            20 0 "c" (PInt 42)
                            (chain_xy_built 7) after_bad_eq eq_refl eq_refl eq_refl).
Defined.

Lemma samplers_in_lockstep_witness :
  forallb (request_ok (varnames chain_xy)) [One "y"; One "y"; One "x"] = true /\
  (enough (List.length (varnames chain_xy)) <= 20)%nat /\
  exists resps A',
    run 20 [One "y"; One "y"; One "x"] (7, chain_xy) = (Ok resps, (7, A')) /\
    forall p q ndp ndq ip iq,
      (p <= q)%nat ->
      nth_error (_samplers A') p = Some ndp -> sampled_idx ndp = Some ip ->
      nth_error (_samplers A') q = Some ndq -> sampled_idx ndq = Some iq ->
      (iq <= ip <= iq + 1)%Z.
Proof.
  split; [reflexivity|]. split; [vm_compute; lia|].
  apply (samplers_in_lockstep spec_xy None 7 7 7 chain_xy
                              [One "y"; One "y"; One "x"] 20
                              (chain_xy_built 7) chain_xy_total).
  - reflexivity.
  - vm_compute; lia.
Defined.

Lemma index_counts_draws_witness :
  forallb (request_ok (varnames chain_xy)) [One "y"; One "y"; One "x"] = true /\
  (enough (List.length (varnames chain_xy)) <= 20)%nat /\
  exists resps A',
    run 20 [One "y"; One "y"; One "x"] (7, chain_xy) = (Ok resps, (7, A')) /\
    forall x i nd idx,
      index_of x (varnames chain_xy) = Some i ->
      nth_error (_samplers A') i = Some nd -> sampled_idx nd = Some idx ->
      idx = Z.of_nat (List.length (values_of x [One "y"; One "y"; One "x"] resps)
                      + List.length (_cache nd)).
Proof.
  split; [reflexivity|]. split; [vm_compute; lia|].
  apply (index_counts_draws spec_xy None 7 7 7 chain_xy
                            [One "y"; One "y"; One "x"] 20
                            (chain_xy_built 7) chain_xy_total).
  - reflexivity.
  - vm_compute; lia.
Defined.

(** The first request on [chain_xy] is for [y], the last of the names:
    [x] draws as well, and keeps its value. *)
Lemma first_request_draws_earlier_once_witness :
  index_of "y" (varnames chain_xy) = Some 2%nat /\
  is_active (_samplers chain_xy) 2 = true /\
  exists v A',
    sample 20 (One "y") (7, chain_xy) = (Ok (Value v), (7, A')) /\
    Ok v = canon (_samplers chain_xy) (rng_state chain_xy) 2 0 /\
    forall p nd, nth_error (_samplers A') p = Some nd -> active nd = true ->
      sampled_idx nd = Some (if (p <=? 2)%nat then 1%Z else 0%Z) /\
      List.length (_cache nd) = (if (p <? 2)%nat then 1 else 0)%nat.
Proof.
  split; [reflexivity|]. split; [reflexivity|].
  apply (first_request_draws_earlier_once spec_xy None 7 7 7 chain_xy "y" 2 20
                                          (chain_xy_built 7) chain_xy_total).
  - reflexivity.
  - reflexivity.
  - vm_compute; lia.
Defined.

Lemma spec_order_irrelevant_witness :
  Permutation spec_xy spec_yx /\ NoDup (keys spec_xy) /\
  ParameterSetSampler_init spec_xy None 7 = ParameterSetSampler_init spec_yx None 7.
Proof.
  split; [apply Permutation_rev|]. split; [exact spec_xy_nodup|].
  exact (spec_order_irrelevant spec_xy spec_yx None 7 (Permutation_rev spec_xy)
                               spec_xy_nodup).
Defined.

Lemma varnames_sorted_complete_witness :
  StronglySorted name_le (varnames chain_xy) /\
  (forall x, In x (varnames chain_xy) <->
             In x (keys spec_xy) /\ x <> "seed"%string /\ ~ In x population_attrs) /\
  (NoDup (keys spec_xy) -> NoDup (varnames chain_xy)).
Proof.
  exact (varnames_sorted_complete spec_xy None 7 7 chain_xy (chain_xy_built 7)).
Defined.

Lemma sample_all_returns_every_variable_witness :
  (enough (List.length (varnames chain_xy)) <= 20)%nat /\
  exists items A',
    sample 20 All (7, chain_xy) = (Ok (Values items), (7, A')) /\
    map fst items = varnames chain_xy /\
    forall x i, index_of x (varnames chain_xy) = Some i ->
      exists v, dict_get x items = Some v /\
                Ok v = canon (_samplers chain_xy) (rng_state chain_xy) i 0.
Proof.
  split; [vm_compute; lia|].
  apply (sample_all_returns_every_variable spec_xy None 7 7 7 chain_xy 20
                                           (chain_xy_built 7) chain_xy_total
                                           spec_xy_nodup).
  vm_compute; lia.
Defined.

(** A shape of one population axis of two parts and one plain axis,
    with two populations. *)
Lemma shape_loop_counts_witness :
  shape_loop (RNG := Z) "x" (Some (PList two_pops)) [PStr "2+3"; PInt 4] [[]] []
  = Ok ([[PInt 2; PInt 4]; [PInt 3; PInt 4]], [true; false]) /\
  [true; false] = map (fun s : pv Z => negb (not_str s)) [PStr "2+3"; PInt 4] /\
  List.length [[PInt 2; PInt 4]; [@PInt Z 3; PInt 4]]
  = (npops_of (Some (PList two_pops)) ^ pop_axes [@PStr Z "2+3"; PInt 4])%nat /\
  (forallb negb [true; false] = true ->
   List.length [[PInt 2; PInt 4]; [@PInt Z 3; PInt 4]] = 1%nat) /\
  Forall (fun sh => List.length sh = List.length [@PStr Z "2+3"; PInt 4])
         [[PInt 2; PInt 4]; [@PInt Z 3; PInt 4]].
Proof.
  split; [reflexivity|].
  exact (shape_loop_counts "x" (Some (PList two_pops)) [PStr "2+3"; PInt 4]
                           [[PInt 2; PInt 4]; [PInt 3; PInt 4]] [true; false] eq_refl).
Defined.

(** Two population axes of two parts each: the block of the second and
    the first population is at place 2 and has the shape (3, 4). *)
Lemma block_shapes_two_axes_witness :
  nth_error (Str.split "2+3" "+") 1 = Some "3"%string /\
  nth_error (Str.split "4+5" "+") 0 = Some "4"%string /\
  [true; true] = [true; true] /\
  exists zx zy,
    py_int "3" = Some zx /\ py_int "4" = Some zy /\
    nth_shape [[PInt 2; PInt 4]; [PInt 2; PInt 5]; [PInt 3; PInt 4]; [@PInt Z 3; PInt 5]]
              (1 * List.length two_pops + 0) = Ok [PInt zx; PInt zy].
Proof.
  split; [reflexivity|]. split; [reflexivity|].
  exact (block_shapes_two_axes "x" two_pops "2+3" "4+5"
           [[PInt 2; PInt 4]; [PInt 2; PInt 5]; [PInt 3; PInt 4]; [PInt 3; PInt 5]]
           [true; true] 1 0 "3" "4" eq_refl eq_refl eq_refl).
Defined.

Lemma population_axis_needs_populations_witness :
  ps_contains desc_pop "dist" = true /\
  desc_shape desc_pop = Ok [PStr "2+3"] /\
  ParameterSampler_init (RNG := Z) "x" (PSet desc_pop) None
  = Raise (TypeError "object of type 'NoneType' has no len()").
Proof.
  split; [reflexivity|]. split; [reflexivity|].
  exact (population_axis_needs_populations "x" desc_pop [PStr "2+3"]
                                           eq_refl eq_refl eq_refl).
Defined.

(** The request for [y], [nope] and [x] on [chain_xy]. *)
Lemma undeclared_name_in_list_witness :
  Str.mem "nope" (varnames chain_xy) = false /\
  (enough (List.length (varnames chain_xy)) <= 20)%nat /\
  exists k c A',
    sample 20 (Many (["y"] ++ "nope" :: ["x"])) (7, chain_xy)
    = (Raise (KeyError "nope"),
       (gen_state (_samplers chain_xy) (rng_state chain_xy) k c, A')) /\
    rng_state A' = rng_state chain_xy /\ varnames A' = varnames chain_xy /\
    forall x i nd,
      index_of x (varnames chain_xy) = Some i ->
      nth_error (_samplers A') i = Some nd -> active nd = true ->
      sampled_idx nd
      = Some (Z.of_nat ((if Str.mem x ["y"] then 1 else 0) + List.length (_cache nd))).
Proof.
  split; [reflexivity|]. split; [vm_compute; lia|].
  apply (undeclared_name_in_list spec_xy None 7 7 7 chain_xy ["y"] ["x"] "nope" 20
                                 (chain_xy_built 7) chain_xy_total).
  - reflexivity.
  - reflexivity.
  - reflexivity.
  - vm_compute; lia.
Defined.

Lemma empty_specification_raises_witness :
  varnames_of spec_seed_only = [] /\
  ParameterSetSampler_init spec_seed_only None 7
  = (Raise (IndexError "list index out of range"), 100).
Proof.
  split; [reflexivity|].
  exact (empty_specification_raises spec_seed_only None (PInt 100) 7 100 None
                                    eq_refl eq_refl eq_refl eq_refl).
Defined.

(** In [chain_xy] the fixed value [c] comes first: [previous] of [x]
    goes around the ring to [y]. *)
Lemma previous_is_nearest_sampled_witness :
  is_active (_samplers chain_xy) 1 = true /\
  exists p off,
    previous 4 (_samplers chain_xy) 1 = Ok p /\
    previous_offset 4 (_samplers chain_xy) 1 = Ok off /\
    (p < List.length (_samplers chain_xy))%nat /\
    is_active (_samplers chain_xy) p = true /\
    ((off = 0%Z /\ (p < 1)%nat /\
      forall q, (p < q < 1)%nat -> is_active (_samplers chain_xy) q = false) \/
     (off = (-1)%Z /\ (1 <= p)%nat /\
      (forall q, (q < 1)%nat -> is_active (_samplers chain_xy) q = false) /\
      forall q, (p < q < List.length (_samplers chain_xy))%nat ->
                is_active (_samplers chain_xy) q = false)).
Proof.
  split; [reflexivity|].
  apply (previous_is_nearest_sampled spec_xy None 7 7 chain_xy 1 4 (chain_xy_built 7)).
  - vm_compute; lia.
  - reflexivity.
  - vm_compute; lia.
Defined.

(** The description [{a: *[1, 2]}] gives [{a: 1}] and [{a:  2}]. *)
Lemma expand_starred_block_witness :
  Expansion.extract_blocks Expansion.default_parser
    (list_ascii_of_string "{a: " ++ "*"%char :: "["%char
       :: Expansion.join_with ","%char [list_ascii_of_string "1"; list_ascii_of_string " 2"]
       ++ "]"%char :: list_ascii_of_string "}")%list
  = Ok (blocks_of description) /\
  Expansion._expand description false Expansion.default_parser
  = Ok ([list_ascii_of_string "{a: 1}"; list_ascii_of_string "{a:  2}"], false).
Proof.
  split; [reflexivity|].
  apply (expand_starred_block (list_ascii_of_string "{a: ") (list_ascii_of_string "}")
                              [list_ascii_of_string "1"; list_ascii_of_string " 2"]
                              false (blocks_of description)).
  - reflexivity.
  - discriminate.
  - repeat constructor.
  - reflexivity.
Defined.

(** A comma after a block that is closed. *)
Lemma separator_outside_brackets_witness :
  Expansion.extract_blocks Expansion.default_parser one_block = Ok (blocks_of one_block) /\
  Expansion.extract_blocks Expansion.default_parser
    (one_block ++ ","%char :: list_ascii_of_string " [2]")%list
  = Raise Expansion.empty_deque /\
  Expansion.expand_while 1 false Expansion.default_parser
    [(one_block ++ ","%char :: list_ascii_of_string " [2]")%list]
  = Raise Expansion.empty_deque.
Proof.
  split; [reflexivity|].
  exact (separator_outside_brackets Expansion.default_parser one_block
           (list_ascii_of_string " [2]") ","%char (blocks_of one_block) false 0
           eq_refl eq_refl eq_refl).
Defined.

Lemma opener_of_closer_witness :
  Expansion.get_closer Expansion.default_parser "["%char = Ok "]"%char /\
  Expansion.get_opener Expansion.default_parser "]"%char = Ok "["%char.
Proof.
  split; [reflexivity|].
  apply (opener_of_closer Expansion.default_parser "["%char "]"%char).
  - vm_compute. repeat (constructor; [simpl; intuition discriminate|]). constructor.
  - reflexivity.
Defined.

(** The blocks of [{a: *[1, 2]}] are stored under 0 and 5. *)
Lemma extract_blocks_brackets_witness :
  Expansion.extract_blocks Expansion.default_parser description
  = Ok (blocks_of description) /\
  map fst (blocks_of description) = [5; 0]%nat /\
  (forall k b, Expansion.nget k (blocks_of description) = Some b ->
     Expansion.start b = k /\ nth_error description k = Some (Expansion.opener b) /\
     Expansion.amem (Expansion.opener b)
                    (Expansion.open_brackets Expansion.default_parser) = true /\
     Expansion.get_closer Expansion.default_parser (Expansion.opener b)
     = Ok (Expansion.closer b) /\
     exists j, Expansion.stop b = Some j /\ (k < j)%nat /\
               (j <= List.length description)%nat /\
               nth_error description (j - 1) = Some (Expansion.closer b)) /\
  (forall k c, nth_error description k = Some c ->
               Expansion.amem c (Expansion.open_brackets Expansion.default_parser) = true ->
               Expansion.nget k (blocks_of description) <> None).
Proof.
  split; [reflexivity|]. split; [reflexivity|].
  exact (extract_blocks_brackets Expansion.default_parser description
                                 (blocks_of description) eq_refl).
Defined.

(** The product [2*3] is no expansion. *)
Lemma unexpanded_star_raises_witness :
  Expansion.extract_blocks Expansion.default_parser product = Ok [] /\
  Expansion._expand product true Expansion.default_parser
  = Raise (ValueError (Expansion.unexpanded product 1)).
Proof.
  split; [reflexivity|].
  exact (unexpanded_star_raises Expansion.default_parser (list_ascii_of_string "2")
                                (list_ascii_of_string "3") "*"%char []
                                eq_refl eq_refl eq_refl eq_refl).
Defined.

Lemma nothing_to_expand_witness :
  Expansion.extract_blocks Expansion.default_parser plain_set = Ok (blocks_of plain_set) /\
  Expansion._expand plain_set false Expansion.default_parser = Ok ([plain_set], true) /\
  Expansion.expand_while 1 false Expansion.default_parser [plain_set] = Ok [plain_set].
Proof.
  split; [reflexivity|].
  exact (nothing_to_expand Expansion.default_parser plain_set false (blocks_of plain_set) 0
                           eq_refl eq_refl).
Defined.

(** [expand_params] on [{a: *[1, 2]}], with nothing to read and no
    comment to strip. *)
Lemma expand_params_terminates_witness :
  (List.length description + 2 <= 14)%nat /\
  exists r,
    Expansion.expand_params (fun s => Ok s) (fun s => s) 14 description false None = r /\
    r <> OutOfFuel /\
    forall res, r = Ok res ->
      Forall (Expansion.settled false Expansion.default_parser) res.
Proof.
  split; [vm_compute; lia|].
  apply (expand_params_terminates (fun s => Ok s) (fun s => s) 14 description
                                  description false None eq_refl).
  vm_compute; lia.
Defined.

(** Two parameter sets and a record between them, with two labels. *)
Lemma make_paramrecs_labels_witness :
  forallb (fun p => negb (Records.is_other p))
          [Records.ASet 1%nat; Records.ARecord "r" 2%nat; Records.ASet 3%nat] = true /\
  Records.make_paramrecs true
    [Records.ASet 1%nat; Records.ARecord "r" 2%nat; Records.ASet 3%nat]
    (Some ["a"%string; "b"%string])
  = Records.Done [Records.mkParamRec "a" 1%nat; Records.mkParamRec "r" 2%nat;
                  Records.mkParamRec "b" 3%nat].
Proof.
  split; [reflexivity|].
  exact (make_paramrecs_labels nat
           [Records.ASet 1%nat; Records.ARecord "r" 2%nat; Records.ASet 3%nat]
           (Some ["a"%string; "b"%string]) eq_refl).
Defined.

(** The description [y -> exp(y)], also with other spacing. *)
Lemma transform_desc_round_trip_witness :
  Transform_parse "  y->exp(y) " = Ok (mkTransform (Some "y") (Some "exp(y)")) /\
  exists x e,
    xname (mkTransform (Some "y") (Some "exp(y)")) = Some x /\
    expr (mkTransform (Some "y") (Some "exp(y)")) = Some e /\
    Transform_desc (mkTransform (Some "y") (Some "exp(y)")) = Ok (x ++ " -> " ++ e) /\
    Transform_parse (x ++ " -> " ++ e) = Ok (mkTransform (Some "y") (Some "exp(y)")).
Proof.
  split; [reflexivity|].
  exact (transform_desc_round_trip "  y->exp(y) "
           (mkTransform (Some "y") (Some "exp(y)")) eq_refl).
Defined.
